(** * Operation-log validator of the did:plc mirror

    A shallow embedding of [plc_validate/operations.ts] and of the step
    validator / log driver ([assureValidNextOp], [validateOperationLog],
    [opToData]), with the properties of the validator proved over it.

    Conventions.
    - A JavaScript string is a [string]; the patterns the code searches
      for are ASCII, so prefix tests and first-occurrence replacement
      agree on UTF-16 code units and on bytes.
    - A [Uint8Array] is a [list byte].
    - A JavaScript object used as a dictionary ([verificationMethods],
      [services]) is a [gmap string _]; the dag-cbor encoder orders the
      keys itself, so insertion order is not observable.
    - [async]/[await] is sequential here: a promise that rejects is an
      exception, modelled by the error monad [Result].
    - The imported packages (CID, CBOR, multibase, crypto, [Date.parse],
      SHA-256) are the fields of the class [Runtime]. *)

From Stdlib Require Import ZArith Strings.String Strings.Ascii Strings.Byte Lia.
From stdpp Require Import base option list strings gmap.

Local Open Scope string_scope.
Local Open Scope Z_scope.

(** ** JavaScript built-ins used by the validator *)

Module JS.

(** [s.startsWith(p)] *)
Definition startsWith (s p : string) : bool := String.prefix p s.

(** [s.endsWith(p)] *)
Definition endsWith (s p : string) : bool :=
  let n := String.length s in
  let k := String.length p in
  (k <=? n)%nat && String.eqb (String.substring (n - k) k s) p.

(** [s.replace(pat, repl)] with a string pattern: only the first
    occurrence is replaced (ECMAScript: StringIndexOf from 0, then
    preceding + replacement + following).  The replacement is taken
    literally; the code only ever passes the empty string. *)
Definition replace (s pat repl : string) : string :=
  match String.index 0 pat s with
  | None => s
  | Some pos =>
      let after := (pos + String.length pat)%nat in
      String.substring 0 pos s
        +:+ repl
        +:+ String.substring after (String.length s - after) s
  end.

(** [s.slice(0, n)] for a non-negative [n] *)
Definition slice_prefix (s : string) (n : nat) : string :=
  String.substring 0 n s.

(** Truthiness of a string: only the empty string is falsy. *)
Definition truthy (s : string) : bool :=
  match s with EmptyString => false | String _ _ => true end.

(** A relative index of [slice]: negative counts from the end, and the
    result is clamped to [0, len]. *)
Definition relative_index (len i : Z) : Z :=
  if i <? 0 then Z.max (len + i) 0 else Z.min i len.

(** [l.slice(start, end)]; [end_ = None] is an omitted second argument. *)
Definition slice {A} (l : list A) (start : Z) (end_ : option Z) : list A :=
  let len := Z.of_nat (length l) in
  let k := relative_index len start in
  let final := match end_ with
               | None => len
               | Some e => relative_index len e
               end in
  take (Z.to_nat (final - k)) (drop (Z.to_nat k) l).

(** [l.at(i)]: [None] is [undefined]. *)
Definition at_ {A} (l : list A) (i : Z) : option A :=
  let len := Z.of_nat (length l) in
  let k := if i <? 0 then len + i else i in
  if (k <? 0) || (len <=? k) then None else l !! Z.to_nat k.

(** [l.findIndex(p)]: the first index whose element satisfies [p],
    [-1] when there is none. *)
Fixpoint findIndex_from {A} (p : A -> bool) (l : list A) (i : Z) : Z :=
  match l with
  | [] => -1
  | x :: l' => if p x then i else findIndex_from p l' (i + 1)
  end.

Definition findIndex {A} (p : A -> bool) (l : list A) : Z :=
  findIndex_from p l 0.

(** [l.indexOf(x)] on an array of strings (strict equality). *)
Definition indexOf (l : list string) (x : string) : Z :=
  findIndex (String.eqb x) l.

(** A number produced by [Date.parse] and by subtracting two such
    numbers: an integral count of milliseconds, or [NaN].  [Date.parse]
    returns a time value, an integer of magnitude at most 8.64e15, which
    a double holds exactly; the difference of two of them can exceed
    2^53 and is then rounded. *)
Inductive number : Type :=
| Num (z : Z)
| NaN.

(** The double nearest to an integer, ties to the even significand: an
    integer of magnitude below 2^53 is a double, a larger one keeps its
    53 leading bits.  (No overflow: differences of time values are
    below 2^55.) *)
Definition round_binary64 (z : Z) : Z :=
  let m := Z.abs z in
  if m <? 2 ^ 53 then z
  else
    let ulp := 2 ^ (Z.log2 m - 52) in
    let q := m / ulp in
    let r := m mod ulp in
    let half := ulp / 2 in
    let q' :=
      if r <? half then q
      else if half <? r then q + 1
      else if Z.even q then q else q + 1 in
    Z.sgn z * (q' * ulp).

(** [a - b] on doubles that hold integers. *)
Definition sub (a b : number) : number :=
  match a, b with
  | Num x, Num y => Num (round_binary64 (x - y))
  | _, _ => NaN
  end.

(** [a > b] with a finite right operand; a comparison with [NaN] is
    [false]. *)
Definition gt (a : number) (b : Z) : bool :=
  match a with
  | Num x => b <? x
  | NaN => false
  end.

End JS.

(** ** Data model *)

(** Modelled from the spec: the operation types of [types.ts] (spec
    section 3), which the validator imports as [t]. *)
Record Service : Type := {
  svc_type : string;
  endpoint : string;
}.

(** [plc_operation] (v2). [op_prev = None] is [null]. *)
Record Operation : Type := {
  verificationMethods : gmap string string;
  rotationKeys : list string;
  alsoKnownAs : list string;
  services : gmap string Service;
  op_prev : option string;
  op_sig : string;
}.

(** [create] (v1, legacy); its [prev] is always [null]. *)
Record CreateOpV1 : Type := {
  signingKey : string;
  recoveryKey : string;
  handle : string;
  service : string;
  create_sig : string;
}.

(** [plc_tombstone] *)
Record Tombstone : Type := {
  tomb_prev : string;
  tomb_sig : string;
}.

Inductive CompatibleOp : Type :=
| PlcOperation (op : Operation)
| Create (op : CreateOpV1).

Inductive CompatibleOpOrTombstone : Type :=
| Compatible (op : CompatibleOp)
| PlcTombstone (op : Tombstone).

Coercion Compatible : CompatibleOp >-> CompatibleOpOrTombstone.

(** [op.prev] *)
Definition prev (op : CompatibleOpOrTombstone) : option string :=
  match op with
  | Compatible (PlcOperation o) => op_prev o
  | Compatible (Create _) => None
  | PlcTombstone t => Some (tomb_prev t)
  end.

(** [op.sig] *)
Definition sig (op : CompatibleOpOrTombstone) : string :=
  match op with
  | Compatible (PlcOperation o) => op_sig o
  | Compatible (Create c) => create_sig c
  | PlcTombstone t => tomb_sig t
  end.

(** [op.type === "plc_tombstone"] *)
Definition is_tombstone (op : CompatibleOpOrTombstone) : bool :=
  match op with
  | PlcTombstone _ => true
  | Compatible _ => false
  end.

Record IndexedOperation : Type := {
  operation : CompatibleOpOrTombstone;
  cid : string;
  createdAt : string;
}.

Record DocumentData : Type := {
  doc_did : string;
  doc_verificationMethods : gmap string string;
  doc_rotationKeys : list string;
  doc_alsoKnownAs : list string;
  doc_services : gmap string Service;
}.

(** The value handed to [cbor.encode]: the plain object tree of an
    operation. *)
#[local] Unset Elimination Schemes.
Inductive Value : Type :=
| VNull
| VString (s : string)
| VArray (items : list Value)
| VObject (fields : list (string * Value)).
#[local] Set Elimination Schemes.

Definition value_of_service (s : Service) : Value :=
  VObject [("type", VString (svc_type s)); ("endpoint", VString (endpoint s))].

Definition value_of_prev (p : option string) : Value :=
  match p with
  | None => VNull
  | Some s => VString s
  end.

(** The fields of an operation object, [sig] among them. *)
Definition fields_of_op (op : CompatibleOpOrTombstone) : list (string * Value) :=
  match op with
  | Compatible (PlcOperation o) =>
      [("type", VString "plc_operation");
       ("verificationMethods",
         VObject (map_to_list (VString <$> verificationMethods o)));
       ("rotationKeys", VArray (VString <$> rotationKeys o));
       ("alsoKnownAs", VArray (VString <$> alsoKnownAs o));
       ("services", VObject (map_to_list (value_of_service <$> services o)));
       ("prev", value_of_prev (op_prev o));
       ("sig", VString (op_sig o))]
  | Compatible (Create c) =>
      [("type", VString "create");
       ("signingKey", VString (signingKey c));
       ("recoveryKey", VString (recoveryKey c));
       ("handle", VString (handle c));
       ("service", VString (service c));
       ("prev", VNull);
       ("sig", VString (create_sig c))]
  | PlcTombstone t =>
      [("type", VString "plc_tombstone");
       ("prev", VString (tomb_prev t));
       ("sig", VString (tomb_sig t))]
  end.

(** [op] itself, as [cbor.encode(op)] sees it. *)
Definition value_of_op (op : CompatibleOpOrTombstone) : Value :=
  VObject (fields_of_op op).

(** [const { sig, ...opData } = op]: every field but [sig]. *)
Definition opData (op : CompatibleOpOrTombstone) : Value :=
  VObject (filter (fun kv => kv.1 <> "sig") (fields_of_op op)).

(** ** Errors *)

(** Modelled from the spec: the error classes of [error.ts] (spec
    section 7), with the payload each constructor is given in the code. *)
Inductive PlcError : Type :=
| MisorderedOperationError
| InvalidSignatureError (op : CompatibleOpOrTombstone)
| GenesisHashError (expected : string)
| ImproperOperationError (message : string) (op : CompatibleOpOrTombstone)
| LateRecoveryError (timeLapsed : JS.number).

(** What a call can throw: one of the validator's own errors, the
    syntax error of [CID.fromString], or the [TypeError] of reading a
    property of [undefined]. *)
Inductive Exception : Type :=
| Plc (e : PlcError)
| CidSyntaxError (input : string)
| TypeError.

Inductive Result (A : Type) : Type :=
| Ok (a : A)
| Throw (e : Exception).

Arguments Ok {A} a.
Arguments Throw {A} e.

Definition bind {A B} (r : Result A) (k : A -> Result B) : Result B :=
  match r with
  | Ok a => k a
  | Throw e => Throw e
  end.

Notation "'let*' x ':=' e1 'in' e2" := (bind e1 (fun x => e2))
  (at level 10, x name, e1 at level 100, e2 at level 200).

Definition is_Ok {A} (r : Result A) : Prop := exists a, r = Ok a.

(** ** The imported packages *)

(** The collaborators of the validator.  [CID.fromString] is partial
    here ([None] is its syntax error, which the validator lets escape).
    The other functions are taken where they return: [fromBase64Url] on
    signature texts it decodes, and [verifySigWithDidKey] on did-keys it
    can parse, where it answers [true] or [false].  On a did-key it
    cannot parse the verifier of the code throws instead, and nothing in
    [assureValidSig] catches that; runs with such keys are outside this
    model, and nothing below says which exceptions of the imported
    packages can escape.  [Cid] is the type of parsed CIDs. *)
Class Runtime (Cid : Type) : Type := {
  CID_fromString : string -> option Cid;
  CID_toString : Cid -> string;
  cbor_encode : Value -> list byte;
  toSha256 : list byte -> list byte;
  toBase32 : list byte -> string;
  fromBase64Url : string -> list byte;
  verifySigWithDidKey : string -> list byte -> list byte -> bool;
  Date_parse : string -> JS.number;
}.

(** ** operations.ts *)

Section Operations.

Context `{RT : Runtime Cid}.

Definition didForCreateOp (op : CompatibleOp) : string :=
  let hashOfGenesis := toSha256 (cbor_encode (value_of_op op)) in
  let hashB32 := toBase32 hashOfGenesis in
  let truncated := JS.slice_prefix hashB32 24 in
  "did:plc:" +:+ truncated.

Definition ensureHttpPrefix (str : string) : string :=
  if JS.startsWith str "http://" || JS.startsWith str "https://" then str
  else "https://" +:+ str.

Definition ensureAtprotoPrefix (str : string) : string :=
  if JS.startsWith str "at://" then str
  else
    let stripped := JS.replace (JS.replace str "http://" "") "https://" "" in
    "at://" +:+ stripped.

Definition normalizeOp (op : CompatibleOp) : Operation :=
  match op with
  | PlcOperation o => o
  | Create c =>
      {| verificationMethods := {[ "atproto" := signingKey c ]};
         rotationKeys := [recoveryKey c; signingKey c];
         alsoKnownAs := [ensureAtprotoPrefix (handle c)];
         services :=
           {[ "atproto_pds" :=
                {| svc_type := "AtprotoPersonalDataServer";
                   endpoint := ensureHttpPrefix (service c) |} ]};
         op_prev := prev (Create c);
         op_sig := sig (Create c) |}
  end.

(** The [for] loop of [assureValidSig]: the first key that verifies. *)
Fixpoint firstValidKey (allowedDidKeys : list string)
    (sigBytes dataBytes : list byte) : option string :=
  match allowedDidKeys with
  | [] => None
  | didKey :: rest =>
      if verifySigWithDidKey didKey sigBytes dataBytes then Some didKey
      else firstValidKey rest sigBytes dataBytes
  end.

Definition assureValidSig (allowedDidKeys : list string)
    (op : CompatibleOpOrTombstone) : Result string :=
  if JS.endsWith (sig op) "=" then Throw (Plc (InvalidSignatureError op))
  else
    let sigBytes := fromBase64Url (sig op) in
    let dataBytes := cbor_encode (opData op) in
    match firstValidKey allowedDidKeys sigBytes dataBytes with
    | Some didKey => Ok didKey
    | None => Throw (Plc (InvalidSignatureError op))
    end.

Definition documentOf (did : string) (normalized : Operation) : DocumentData :=
  {| doc_did := did;
     doc_verificationMethods := verificationMethods normalized;
     doc_rotationKeys := rotationKeys normalized;
     doc_alsoKnownAs := alsoKnownAs normalized;
     doc_services := services normalized |}.

Definition assureValidCreationOp (did : string)
    (op : CompatibleOpOrTombstone) : Result DocumentData :=
  match op with
  | PlcTombstone _ => Throw (Plc MisorderedOperationError)
  | Compatible cop =>
      let normalized := normalizeOp cop in
      let* _ := assureValidSig (rotationKeys normalized) op in
      let expectedDid := didForCreateOp cop in
      if negb (String.eqb expectedDid did) then
        Throw (Plc (GenesisHashError expectedDid))
      else
        match prev op with
        | Some _ =>
            Throw (Plc (ImproperOperationError "expected null prev on create" op))
        | None => Ok (documentOf did normalized)
        end
  end.

(** ** The step validator and the log driver *)

Definition SECOND : Z := 1000.
Definition MINUTE : Z := 60 * SECOND.
Definition HOUR : Z := 60 * MINUTE.
Definition RECOVERY_WINDOW : Z := 72 * HOUR.

Record StepResult : Type := {
  res_nullified : list string;
  res_prev : option Cid;
  res_ops : list IndexedOperation;
}.

(** [proposed.operation.prev ? CID.fromString(proposed.operation.prev)
    : undefined]: [null] and the empty string are falsy. *)
Definition parsePrev (p : option string) : Result (option Cid) :=
  match p with
  | None => Ok None
  | Some s =>
      if JS.truthy s then
        match CID_fromString s with
        | Some c => Ok (Some c)
        | None => Throw (CidSyntaxError s)
        end
      else Ok None
  end.

Definition assureValidNextOp (did : string) (ops : list IndexedOperation)
    (proposed : IndexedOperation) : Result StepResult :=
  if (length ops =? 0)%nat then
    let* _ := assureValidCreationOp did (operation proposed) in
    Ok {| res_nullified := []; res_prev := None; res_ops := [proposed] |}
  else
    let* maybePrev := parsePrev (prev (operation proposed)) in
    match maybePrev with
    | None => Throw (Plc MisorderedOperationError)
    | Some proposedPrev =>
        let indexOfPrev :=
          JS.findIndex (fun op => String.eqb (CID_toString proposedPrev) (cid op))
            ops in
        if indexOfPrev <? 0 then Throw (Plc MisorderedOperationError)
        else
          let opsInHistory := JS.slice ops 0 (Some (indexOfPrev + 1)) in
          let nullified := JS.slice ops (indexOfPrev + 1) None in
          match JS.at_ opsInHistory (-1) with
          | None => Throw (Plc MisorderedOperationError)
          | Some lastOp =>
              match operation lastOp with
              | PlcTombstone _ => Throw (Plc MisorderedOperationError)
              | Compatible lastCompatible =>
                  let lastOpNormalized := normalizeOp lastCompatible in
                  match nullified !! 0%nat with
                  | None =>
                      let* _ :=
                        assureValidSig (rotationKeys lastOpNormalized)
                          (operation proposed) in
                      Ok {| res_nullified := [];
                            res_prev := Some proposedPrev;
                            res_ops := ops ++ [proposed] |}
                  | Some firstNullified =>
                      let* disputedSigner :=
                        assureValidSig (rotationKeys lastOpNormalized)
                          (operation firstNullified) in
                      let indexOfSigner :=
                        JS.indexOf (rotationKeys lastOpNormalized)
                          disputedSigner in
                      let morePowerfulKeys :=
                        JS.slice (rotationKeys lastOpNormalized) 0
                          (Some indexOfSigner) in
                      let* _ := assureValidSig morePowerfulKeys (operation proposed) in
                      let timeLapsed :=
                        JS.sub (Date_parse (createdAt proposed))
                          (Date_parse (createdAt firstNullified)) in
                      if (0 <? length nullified)%nat
                         && JS.gt timeLapsed RECOVERY_WINDOW then
                        Throw (Plc (LateRecoveryError timeLapsed))
                      else
                        Ok {| res_nullified := cid <$> nullified;
                              res_prev := Some proposedPrev;
                              res_ops := opsInHistory ++ [proposed] |}
                  end
              end
          end
    end.

Definition opToData (did : string) (op : CompatibleOpOrTombstone)
    : option DocumentData :=
  match op with
  | PlcTombstone _ => None
  | Compatible cop => Some (documentOf did (normalizeOp cop))
  end.

(** The [for (const op of ops)] loop of [validateOperationLog], with the
    variable [history] as the accumulator. *)
Fixpoint validateLoop (did : string) (history : list IndexedOperation)
    (ops : list IndexedOperation) : Result (list IndexedOperation) :=
  match ops with
  | [] => Ok history
  | op :: rest =>
      let* r := assureValidNextOp did history op in
      validateLoop did (res_ops r) rest
  end.

(** [history.at(-1)!.operation] throws a [TypeError] on an empty history. *)
Definition validateOperationLog (did : string) (ops : list IndexedOperation)
    : Result (option DocumentData) :=
  let* history := validateLoop did [] ops in
  match JS.at_ history (-1) with
  | None => Throw TypeError
  | Some lastOp => Ok (opToData did (operation lastOp))
  end.

End Operations.

(** ** Vocabulary of the specification *)

(** The rest of [s] after its first [n] characters. *)
Definition string_drop (n : nat) (s : string) : string :=
  String.substring n (String.length s - n) s.

(** "Strips the first occurrence only, anywhere in the string": scan
    from the left and cut [pat] out at the first position where it
    starts. *)
Fixpoint remove_first (pat s : string) : string :=
  if String.prefix pat s then string_drop (String.length pat) s
  else
    match s with
    | EmptyString => EmptyString
    | String ch s' => String ch (remove_first pat s')
    end.

Section Specification.

Context `{RT : Runtime Cid}.

(** [i] is the first index of [ops] whose [cid] is [c], and [head] is the
    operation there: the referenced ancestor of Case C. *)
Definition refers_to (c : string) (ops : list IndexedOperation) (i : nat)
    (head : IndexedOperation) : Prop :=
  ops !! i = Some head
  /\ cid head = c
  /\ forall j y, ops !! j = Some y -> (j < i)%nat -> cid y <> c.

(** The cryptographic check of one did-key against an operation: the
    decoded signature over the encoding of the operation without [sig]. *)
Definition verifies (didKey : string) (op : CompatibleOpOrTombstone) : bool :=
  verifySigWithDidKey didKey (fromBase64Url (sig op)) (cbor_encode (opData op)).

(** [k] is the first entry of [keys] that satisfies [p], at index [n]. *)
Definition first_at (p : string -> bool) (keys : list string) (n : nat)
    (k : string) : Prop :=
  keys !! n = Some k
  /\ p k = true
  /\ forall j y, keys !! j = Some y -> (j < n)%nat -> p y = false.

(** Invariant 1 of the data model: the history is linked by [prev]. *)
Definition linked (history : list IndexedOperation) : Prop :=
  (forall g, history !! 0%nat = Some g -> prev (operation g) = None)
  /\ (forall i a b,
        history !! i = Some a -> history !! S i = Some b ->
        prev (operation b) = Some (cid a)).

(** The string form of a CID is unique: parsing a string and printing
    the result gives the string back. *)
Definition canonical_cid_strings : Prop :=
  forall s c, CID_fromString s = Some c -> CID_toString c = s.

(** The log driver as the specification words it: a left fold of the
    step validator that keeps only the [ops] of each result. *)
Definition fold_step (did : string) (ops : list IndexedOperation)
    : Result (list IndexedOperation) :=
  fold_left
    (fun acc op =>
       let* history := acc in
       let* r := assureValidNextOp did history op in
       Ok (res_ops r))
    ops (Ok []).

(** Cases D to F of the step validator as the specification words them,
    on natural-number indices: [head] is the ancestor at index [i] and
    [prefix = ops[0..=i]], [tail = ops[i+1..]]. *)
Definition spec_cases_DEF (ops : list IndexedOperation)
    (proposed : IndexedOperation) (proposedPrev : Cid) (i : nat)
    (head : IndexedOperation) : Result StepResult :=
  match operation head with
  | PlcTombstone _ => Throw (Plc MisorderedOperationError)
  | Compatible h =>
      let allowed_keys := rotationKeys (normalizeOp h) in
      match drop (S i) ops with
      | [] =>
          let* _ := assureValidSig allowed_keys (operation proposed) in
          Ok {| res_nullified := [];
                res_prev := Some proposedPrev;
                res_ops := ops ++ [proposed] |}
      | first_nullified :: _ =>
          let* disputed_signer :=
            assureValidSig allowed_keys (operation first_nullified) in
          let power_index :=
            from_option fst 0%nat
              (list_find (fun k => k = disputed_signer) allowed_keys) in
          let more_powerful_keys := take power_index allowed_keys in
          let* _ := assureValidSig more_powerful_keys (operation proposed) in
          let delta :=
            JS.sub (Date_parse (createdAt proposed))
              (Date_parse (createdAt first_nullified)) in
          if JS.gt delta (72 * 3600 * 1000) then
            Throw (Plc (LateRecoveryError delta))
          else
            Ok {| res_nullified := cid <$> drop (S i) ops;
                  res_prev := Some proposedPrev;
                  res_ops := take (S i) ops ++ [proposed] |}
      end
  end.

End Specification.

(** ** A runtime to evaluate the validator on

    Small stand-ins for the imported packages, so that the validator can
    be run on concrete logs.  A signature is the name of the key that
    made it; a CID string is any string of at least two characters that
    starts with [b] (the multibase prefix [CID.fromString] insists on);
    timestamps are read in the 24-character UTC form that storage
    supplies. *)

Module Fixture.

Definition digit (c : ascii) : option Z :=
  let n := Z.of_nat (nat_of_ascii c) in
  if (48 <=? n) && (n <=? 57) then Some (n - 48) else None.

Fixpoint digits (acc : Z) (s : string) : option Z :=
  match s with
  | EmptyString => Some acc
  | String c s' =>
      match digit c with
      | Some d => digits (10 * acc + d) s'
      | None => None
      end
  end.

Definition field (s : string) (start len : nat) : option Z :=
  let f := String.substring start len s in
  if (String.length f =? len)%nat then digits 0 f else None.

Definition days_from_civil (y m d : Z) : Z :=
  let y' := if m <=? 2 then y - 1 else y in
  let era := y' / 400 in
  let yoe := y' - era * 400 in
  let mp := if 2 <? m then m - 3 else m + 9 in
  let doy := (153 * mp + 2) / 5 + d - 1 in
  let doe := yoe * 365 + yoe / 4 - yoe / 100 + doy in
  era * 146097 + doe - 719468.

(** [YYYY-MM-DDTHH:mm:ss.sssZ] to milliseconds since the epoch; anything
    else is [NaN]. *)
Definition parse_date (s : string) : JS.number :=
  if negb (String.length s =? 24)%nat then JS.NaN
  else if negb (String.eqb (String.substring 4 1 s) "-"
                && String.eqb (String.substring 7 1 s) "-"
                && String.eqb (String.substring 10 1 s) "T"
                && String.eqb (String.substring 13 1 s) ":"
                && String.eqb (String.substring 16 1 s) ":"
                && String.eqb (String.substring 19 1 s) "."
                && String.eqb (String.substring 23 1 s) "Z") then JS.NaN
  else
    match field s 0 4, field s 5 2, field s 8 2,
          field s 11 2, field s 14 2, field s 17 2, field s 20 3 with
    | Some y, Some mo, Some d, Some h, Some mi, Some sec, Some ms =>
        if (1 <=? mo) && (mo <=? 12) && (1 <=? d) && (d <=? 31)
           && (h <? 24) && (mi <? 60) && (sec <? 60) then
          JS.Num ((((days_from_civil y mo d * 24 + h) * 60 + mi) * 60 + sec)
                  * 1000 + ms)
        else JS.NaN
    | _, _, _, _, _, _, _ => JS.NaN
    end.

(** A byte rendering of the object tree, fields in the order given. *)
Fixpoint render (v : Value) : string :=
  match v with
  | VNull => "~"
  | VString s => "'" +:+ s +:+ "'"
  | VArray items =>
      "[" +:+ (fix go (l : list Value) : string :=
                 match l with
                 | [] => ""
                 | x :: r => render x +:+ "," +:+ go r
                 end) items +:+ "]"
  | VObject fields =>
      "{" +:+ (fix go (l : list (string * Value)) : string :=
                 match l with
                 | [] => ""
                 | (k, x) :: r => k +:+ ":" +:+ render x +:+ "," +:+ go r
                 end) fields +:+ "}"
  end.

(** A 32-byte digest: a running multiplicative checksum of the input,
    read off at 32 successive rounds. *)
Definition mix (h : Z) (b : byte) : Z :=
  (Z.lxor h (Z.of_N (Byte.to_N b)) * 1099511628211) mod 2 ^ 64.

Fixpoint rounds (n : nat) (h : Z) : list byte :=
  match n with
  | O => []
  | S n' =>
      let h' := (h * 6364136223846793005 + 1442695040888963407) mod 2 ^ 64 in
      default "000"%byte (Byte.of_N (Z.to_N ((h' / 2 ^ 33) mod 256)))
        :: rounds n' h'
  end.

Definition digest (input : list byte) : list byte :=
  rounds 32 (fold_left mix input 14695981039346656037).

Definition base32_char (b : byte) : ascii :=
  match String.get (N.to_nat (Byte.to_N b) mod 32)
          "abcdefghijklmnopqrstuvwxyz234567" with
  | Some c => c
  | None => "a"%char
  end.

Definition base32 (bs : list byte) : string :=
  string_of_list_ascii (base32_char <$> bs).

Definition cid_of_string (s : string) : option string :=
  if (2 <=? String.length s)%nat && JS.startsWith s "b" then Some s else None.

Fixpoint bytes_eqb (a b : list byte) : bool :=
  match a, b with
  | [], [] => true
  | x :: a', y :: b' => Byte.eqb x y && bytes_eqb a' b'
  | _, _ => false
  end.

#[export] Instance runtime : Runtime string := {|
  CID_fromString := cid_of_string;
  CID_toString := fun c => c;
  cbor_encode := fun v => list_byte_of_string (render v);
  toSha256 := digest;
  toBase32 := base32;
  fromBase64Url := list_byte_of_string;
  verifySigWithDidKey := fun didKey sigBytes _ =>
    bytes_eqb sigBytes (list_byte_of_string didKey);
  Date_parse := parse_date;
|}.

Definition KR : string := "did:key:zRecovery".
Definition KS : string := "did:key:zSigning".

Definition plc_op (keys : list string) (host : string) (p : option string)
    (signer : string) : CompatibleOp :=
  PlcOperation
    {| verificationMethods := {[ "atproto" := KS ]};
       rotationKeys := keys;
       alsoKnownAs := ["at://alice.example.com"];
       services :=
         {[ "atproto_pds" :=
              {| svc_type := "AtprotoPersonalDataServer";
                 endpoint := host |} ]};
       op_prev := p;
       op_sig := signer |}.

(** Genesis [G] with rotation keys [KR; KS], signed by [KS]. *)
Definition G : IndexedOperation :=
  {| operation := plc_op [KR; KS] "https://pds.example.com" None KS;
     cid := "bafyG";
     createdAt := "2024-01-01T00:00:00.000Z" |}.

Definition did : string := Eval vm_compute in
  match operation G with
  | Compatible g => didForCreateOp g
  | PlcTombstone _ => ""
  end.

(** [A]: an update on top of [G], signed by [KS]. *)
Definition A : IndexedOperation :=
  {| operation := plc_op [KR; KS] "https://pds2.example.com" (Some "bafyG") KS;
     cid := "bafyA";
     createdAt := "2024-01-02T00:00:00.000Z" |}.

(** [T]: a tombstone on top of [G], signed by [KS]. *)
Definition T : IndexedOperation :=
  {| operation := PlcTombstone {| tomb_prev := "bafyG"; tomb_sig := KS |};
     cid := "bafyT";
     createdAt := "2024-01-02T00:00:00.000Z" |}.

(** [B at]: a fork from [G], signed by the recovery key [KR]. *)
Definition B (at_ : string) : IndexedOperation :=
  {| operation := plc_op [KR] "https://pds3.example.com" (Some "bafyG") KR;
     cid := "bafyB";
     createdAt := at_ |}.

(** [X p]: an update whose [prev] is [p], signed by [KR]. *)
Definition X (p : string) : IndexedOperation :=
  {| operation := plc_op [KR; KS] "https://pds4.example.com" (Some p) KR;
     cid := "bafyX";
     createdAt := "2024-01-03T00:00:00.000Z" |}.

(** [A_R]: the same update as [A], signed by the recovery key [KR]. *)
Definition A_R : IndexedOperation :=
  {| operation := plc_op [KR; KS] "https://pds2.example.com" (Some "bafyG") KR;
     cid := "bafyA";
     createdAt := "2024-01-02T00:00:00.000Z" |}.

(** [B_S]: a fork from [G], signed by the signing key [KS]. *)
Definition B_S : IndexedOperation :=
  {| operation := plc_op [KR] "https://pds3.example.com" (Some "bafyG") KS;
     cid := "bafyB";
     createdAt := "2024-01-03T00:00:00.000Z" |}.

(** [P]: an update on top of [G] whose signature text is padded. *)
Definition P : IndexedOperation :=
  {| operation :=
       plc_op [KR; KS] "https://pds5.example.com" (Some "bafyG") "c2lnbmF0dXJl=";
     cid := "bafyP";
     createdAt := "2024-01-02T00:00:00.000Z" |}.

(** [F]: a genesis whose signature is by a key it does not declare. *)
Definition F : IndexedOperation :=
  {| operation := plc_op [KR; KS] "https://pds.example.com" None "did:key:zMallory";
     cid := "bafyF";
     createdAt := "2024-01-01T00:00:00.000Z" |}.

(** A legacy genesis, as in scenario S7. *)
Definition V1 : CreateOpV1 :=
  {| signingKey := KS;
     recoveryKey := KR;
     handle := "alice.example.com";
     service := "pds.example.com";
     create_sig := KS |}.

End Fixture.


(** ** Invariants of a validated history *)

Section Invariants.

Context `{RT : Runtime Cid}.

(** Every operation but the first is signed by a rotation key of the
    operation before it, which is therefore not a tombstone. *)
Definition authorised (history : list IndexedOperation) : Prop :=
  forall i a b,
    history !! i = Some a -> history !! S i = Some b ->
    exists h,
      operation a = Compatible h
      /\ is_Ok (assureValidSig (rotationKeys (normalizeOp h)) (operation b)).

(** The history starts with [g], a genesis bound to [did]: not a
    tombstone, [prev] null, signed by one of its own rotation keys, and
    hashing to [did]. *)
Definition bound_genesis (did : string) (g : IndexedOperation)
    (history : list IndexedOperation) : Prop :=
  exists cg tail,
    history = g :: tail
    /\ operation g = Compatible cg
    /\ prev (operation g) = None
    /\ didForCreateOp cg = did
    /\ is_Ok (assureValidSig (rotationKeys (normalizeOp cg)) (operation g)).

(** Every operation but the first names, by its parsed and re-printed
    [prev], the operation just before it, which is the first confirmed
    operation with that [cid], is not a tombstone, and holds a rotation
    key that verifies the signature. *)
Definition chained (history : list IndexedOperation) : Prop :=
  forall i a b,
    history !! i = Some a -> history !! S i = Some b ->
    exists s c h,
      prev (operation b) = Some s /\ s <> ""
      /\ CID_fromString s = Some c
      /\ refers_to (CID_toString c) history i a
      /\ operation a = Compatible h
      /\ is_Ok (assureValidSig (rotationKeys (normalizeOp h)) (operation b)).

End Invariants.

(** ** Building and signing operations (operations.ts) *)

(** Modelled from the spec: the unsigned shapes of [types.ts], an
    operation before [sig] is added. *)
Record UnsignedOperation : Type := {
  u_verificationMethods : gmap string string;
  u_rotationKeys : list string;
  u_alsoKnownAs : list string;
  u_services : gmap string Service;
  u_prev : option string;
}.

Record UnsignedCreateOpV1 : Type := {
  u_signingKey : string;
  u_recoveryKey : string;
  u_handle : string;
  u_service : string;
}.

Record UnsignedTombstone : Type := {
  u_tomb_prev : string;
}.

(** The objects [addSignature] is applied to: [fields_of] are the own
    properties that [cbor.encode(object)] sees, [with_sig] is
    [{ ...object, sig }], and [signed_op] reads the result as an
    operation.  The two laws say that [sig] is the only field added. *)
Class Signable (T Signed : Type) : Type := {
  fields_of : T -> list (string * Value);
  with_sig : T -> string -> Signed;
  signed_op : Signed -> CompatibleOpOrTombstone;
  with_sig_sig : forall object s, sig (signed_op (with_sig object s)) = s;
  with_sig_opData :
    forall object s,
      opData (signed_op (with_sig object s)) = VObject (fields_of object);
}.

#[export] Instance signable_operation : Signable UnsignedOperation Operation := {|
  fields_of o :=
    [("type", VString "plc_operation");
     ("verificationMethods",
       VObject (map_to_list (VString <$> u_verificationMethods o)));
     ("rotationKeys", VArray (VString <$> u_rotationKeys o));
     ("alsoKnownAs", VArray (VString <$> u_alsoKnownAs o));
     ("services", VObject (map_to_list (value_of_service <$> u_services o)));
     ("prev", value_of_prev (u_prev o))];
  with_sig o s :=
    {| verificationMethods := u_verificationMethods o;
       rotationKeys := u_rotationKeys o;
       alsoKnownAs := u_alsoKnownAs o;
       services := u_services o;
       op_prev := u_prev o;
       op_sig := s |};
  signed_op o := Compatible (PlcOperation o);
  with_sig_sig _ _ := eq_refl;
  with_sig_opData _ _ := eq_refl;
|}.

#[export] Instance signable_create : Signable UnsignedCreateOpV1 CreateOpV1 := {|
  fields_of c :=
    [("type", VString "create");
     ("signingKey", VString (u_signingKey c));
     ("recoveryKey", VString (u_recoveryKey c));
     ("handle", VString (u_handle c));
     ("service", VString (u_service c));
     ("prev", VNull)];
  with_sig c s :=
    {| signingKey := u_signingKey c;
       recoveryKey := u_recoveryKey c;
       handle := u_handle c;
       service := u_service c;
       create_sig := s |};
  signed_op c := Compatible (Create c);
  with_sig_sig _ _ := eq_refl;
  with_sig_opData _ _ := eq_refl;
|}.

#[export] Instance signable_tombstone : Signable UnsignedTombstone Tombstone := {|
  fields_of t :=
    [("type", VString "plc_tombstone"); ("prev", VString (u_tomb_prev t))];
  with_sig t s := {| tomb_prev := u_tomb_prev t; tomb_sig := s |};
  signed_op t := PlcTombstone t;
  with_sig_sig _ _ := eq_refl;
  with_sig_opData _ _ := eq_refl;
|}.

(** What the authoring functions import besides the validator's
    runtime: [key.sign], [toBase64Url], and the two ways they print a
    CID, [prev.toString()] on a CID that is passed in and
    [CID.create(0x71, bytes).toString()] in [createUpdateOp].  Nothing
    is assumed about the printed text. *)
Class Authoring (Cid PrivateKey : Type) : Type := {
  sign : PrivateKey -> list byte -> list byte;
  toBase64Url : list byte -> string;
  prev_toString : Cid -> string;
  created_toString : list byte -> string;
}.

Section Authoring_functions.

Context `{RT : Runtime Cid} `{AU : Authoring Cid PrivateKey}.

Definition addSignature `{SG : Signable T Signed} (object : T)
    (key : PrivateKey) : Signed :=
  let data := cbor_encode (VObject (fields_of object)) in
  let sig := sign key data in
  with_sig object (toBase64Url sig).

Definition signOperation (op : UnsignedOperation) (signingKey : PrivateKey)
    : Operation :=
  addSignature op signingKey.

Definition deprecatedSignCreate (op : UnsignedCreateOpV1)
    (signingKey : PrivateKey) : CreateOpV1 :=
  addSignature op signingKey.





(** [const { sig: _, ...normalized } = normalizeOp(lastOp)] *)
Definition withoutSig (o : Operation) : UnsignedOperation :=
  {| u_verificationMethods := verificationMethods o;
     u_rotationKeys := rotationKeys o;
     u_alsoKnownAs := alsoKnownAs o;
     u_services := services o;
     u_prev := op_prev o |}.

(** [createUpdateOp]: whatever [prev] the callback leaves is overwritten
    by the printed CID of [lastOp]. *)
Definition createUpdateOp (lastOp : CompatibleOp) (signer : PrivateKey)
    (fn : UnsignedOperation -> UnsignedOperation) : Operation :=
  let prev := created_toString (cbor_encode (value_of_op lastOp)) in
  let normalized := withoutSig (normalizeOp lastOp) in
  let unsigned := fn normalized in
  addSignature
    {| u_verificationMethods := u_verificationMethods unsigned;
       u_rotationKeys := u_rotationKeys unsigned;
       u_alsoKnownAs := u_alsoKnownAs unsigned;
       u_services := u_services unsigned;
       u_prev := Some prev |}
    signer.

(** [Partial<{signingKey, handle, pds, rotationKeys}>]: [None] is a
    property that is absent. *)
Record UpdateOpts : Type := {
  upd_signingKey : option string;
  upd_handle : option string;
  upd_pds : option string;
  upd_rotationKeys : option (list string);
}.

(** [if (opts.x)] on an optional string: absent and empty are falsy. *)
Definition given (o : option string) : option string :=
  match o with
  | Some s => if JS.truthy s then Some s else None
  | None => None
  end.

(** The callback that [createAtprotoUpdateOp] hands to
    [createUpdateOp]. *)
Definition atprotoUpdate (opts : UpdateOpts) (normalized : UnsignedOperation)
    : UnsignedOperation :=
  let verificationMethods' :=
    match given (upd_signingKey opts) with
    | Some signingKey =>
        <[ "atproto" := signingKey ]> (u_verificationMethods normalized)
    | None => u_verificationMethods normalized
    end in
  let alsoKnownAs' :=
    match given (upd_handle opts) with
    | Some handle =>
        let formatted := ensureAtprotoPrefix handle in
        let handleI :=
          JS.findIndex (fun h => JS.startsWith h "at://")
            (u_alsoKnownAs normalized) in
        if handleI <? 0 then formatted :: u_alsoKnownAs normalized
        else
          (JS.slice (u_alsoKnownAs normalized) 0 (Some handleI)
             ++ [formatted]
             ++ JS.slice (u_alsoKnownAs normalized) (handleI + 1) None)%list
    | None => u_alsoKnownAs normalized
    end in
  let services' :=
    match given (upd_pds opts) with
    | Some pds =>
        <[ "atproto_pds" :=
             {| svc_type := "AtprotoPersonalDataServer";
                endpoint := ensureHttpPrefix pds |} ]> (u_services normalized)
    | None => u_services normalized
    end in
  let rotationKeys' :=
    match upd_rotationKeys opts with
    | Some keys => keys
    | None => u_rotationKeys normalized
    end in
  {| u_verificationMethods := verificationMethods';
     u_rotationKeys := rotationKeys';
     u_alsoKnownAs := alsoKnownAs';
     u_services := services';
     u_prev := u_prev normalized |}.

Definition createAtprotoUpdateOp (lastOp : CompatibleOp) (signer : PrivateKey)
    (opts : UpdateOpts) : Operation :=
  createUpdateOp lastOp signer (atprotoUpdate opts).

Definition no_update : UpdateOpts :=
  {| upd_signingKey := None; upd_handle := None; upd_pds := None;
     upd_rotationKeys := None |}.

Definition updateAtprotoKeyOp (lastOp : CompatibleOp) (signer : PrivateKey)
    (signingKey : string) : Operation :=
  createAtprotoUpdateOp lastOp signer
    {| upd_signingKey := Some signingKey; upd_handle := None; upd_pds := None;
       upd_rotationKeys := None |}.

Definition updateHandleOp (lastOp : CompatibleOp) (signer : PrivateKey)
    (handle : string) : Operation :=
  createAtprotoUpdateOp lastOp signer
    {| upd_signingKey := None; upd_handle := Some handle; upd_pds := None;
       upd_rotationKeys := None |}.

Definition updatePdsOp (lastOp : CompatibleOp) (signer : PrivateKey)
    (pds : string) : Operation :=
  createAtprotoUpdateOp lastOp signer
    {| upd_signingKey := None; upd_handle := None; upd_pds := Some pds;
       upd_rotationKeys := None |}.

Definition updateRotationKeysOp (lastOp : CompatibleOp) (signer : PrivateKey)
    (rotationKeys : list string) : Operation :=
  createAtprotoUpdateOp lastOp signer
    {| upd_signingKey := None; upd_handle := None; upd_pds := None;
       upd_rotationKeys := Some rotationKeys |}.

Definition tombstoneOp (prev : Cid) (key : PrivateKey) : Tombstone :=
  addSignature {| u_tomb_prev := prev_toString prev |} key.

End Authoring_functions.

(** ** The JSON-lines wire format: the export serializer and the importer *)

(** [Date.parse] and [Date.prototype.toJSON], as the importer and the
    export route use them on [created_at]. *)
Class Dates : Type := {
  parse_ms : string -> JS.number;
  toJSON : Z -> string;
}.

Module Wire.

#[export] Instance byte_eq_decision : EqDecision byte := Byte.byte_eq_dec.

(** The double-quote character, and text as the bytes [TextEncoder]
    gives for it. *)
Definition quote : string := String "034"%char EmptyString.

Definition encode_text (s : string) : list byte := list_byte_of_string s.

Definition decode_text (bytes : list byte) : string := string_of_list_byte bytes.

(** [equals] of [@std/bytes] *)
Fixpoint equals (a b : list byte) : bool :=
  match a, b with
  | [], [] => true
  | x :: a', y :: b' => Byte.eqb x y && equals a' b'
  | _, _ => false
  end.

(** [data.subarray(begin, end)]: the index rules of [slice]. *)
Definition subarray (data : list byte) (begin : Z) (end_ : option Z) : list byte :=
  JS.slice data begin end_.

(** [data.indexOf(needle)] *)
Definition indexOf (data : list byte) (needle : byte) : Z :=
  JS.findIndex (Byte.eqb needle) data.

(** [data.lastIndexOf(needle)]: the last index that holds [needle], [-1]
    when there is none. *)
Fixpoint lastIndexOf_from (data : list byte) (needle : byte) (i found : Z) : Z :=
  match data with
  | [] => found
  | b :: data' =>
      lastIndexOf_from data' needle (i + 1) (if Byte.eqb b needle then i else found)
  end.

Definition lastIndexOf (data : list byte) (needle : byte) : Z :=
  lastIndexOf_from data needle 0 (-1).

Definition byteLength (data : list byte) : Z := Z.of_nat (length data).

(** The helpers of the importer. [None] is a failed [assert]. *)
Definition expectl (data needle : list byte) : option (list byte) :=
  if equals (subarray data 0 (Some (byteLength needle))) needle
  then Some (subarray data (byteLength needle) None)
  else None.

Definition splitl (data : list byte) (needle : byte)
    : option (list byte * list byte) :=
  let needleIndex := indexOf data needle in
  if needleIndex =? -1 then None
  else Some (subarray data 0 (Some needleIndex),
             subarray data (needleIndex + 1) None).

Definition splitr (data : list byte) (needle : byte)
    : option (list byte * list byte) :=
  let needleIndex := lastIndexOf data needle in
  if needleIndex =? -1 then None
  else Some (subarray data (needleIndex + 1) None,
             subarray data 0 (Some (needleIndex + 1))).

Definition expectr (data needle : list byte) : option (list byte) :=
  if equals (subarray data (-1 * byteLength needle) None) needle
  then Some (subarray data 0 (Some (-1 * byteLength needle)))
  else None.

Definition boolr (data needle_true needle_false : list byte)
    : option (Z * list byte) :=
  if equals (subarray data (-1 * byteLength needle_true) None) needle_true
  then Some (1, subarray data 0 (Some (-1 * byteLength needle_false)))
  else
    if equals (subarray data (-1 * byteLength needle_false) None) needle_false
    then Some (0, subarray data 0 (Some (-1 * byteLength needle_false)))
    else None.

(** The templates of the importer. *)
Definition t_didplc : list byte :=
  encode_text ("{" +:+ quote +:+ "did" +:+ quote +:+ ":" +:+ quote +:+ "did:plc:").
Definition t_op : list byte :=
  encode_text ("," +:+ quote +:+ "operation" +:+ quote +:+ ":").
Definition t_end : list byte := encode_text (quote +:+ "}").
Definition t_createdAt : list byte :=
  encode_text ("," +:+ quote +:+ "createdAt" +:+ quote +:+ ":" +:+ quote).
Definition t_notnull : list byte :=
  encode_text (quote +:+ "," +:+ quote +:+ "nullified" +:+ quote +:+ ":false").
Definition t_null : list byte :=
  encode_text (quote +:+ "," +:+ quote +:+ "nullified" +:+ quote +:+ ":true").
Definition t_cid : list byte :=
  encode_text ("," +:+ quote +:+ "cid" +:+ quote +:+ ":" +:+ quote).

(** The templates of the export route. *)
Definition tmpl_did_first : list byte := t_didplc.
Definition tmpl_did : list byte := x0a :: t_didplc.
Definition tmpl_op : list byte :=
  encode_text (quote +:+ "," +:+ quote +:+ "operation" +:+ quote +:+ ":").
Definition tmpl_cid : list byte := t_cid.
Definition tmpl_nullified : list byte :=
  encode_text (quote +:+ "," +:+ quote +:+ "nullified" +:+ quote +:+ ":").
Definition tmpl_createdAt : list byte := t_createdAt.
Definition tmpl_end : list byte := t_end.
Definition tmpl_true : list byte := encode_text "true".
Definition tmpl_false : list byte := encode_text "false".

(** A row of the table [records], and a row as the importer pushes it:
    [[cid, did, operation, nullified, created_at]]. *)
Record StoredRow : Type := {
  st_cid : list byte;
  st_did : list byte;
  st_operation : list byte;
  st_nullified : Z;
  st_created_at : Z;
}.

Record ImportedRow : Type := {
  row_cid : list byte;
  row_did : list byte;
  row_operation : list byte;
  row_nullified : Z;
  row_created_at : JS.number;
}.

Section With_dates.

Context `{D : Dates}.

(** [encode(value, first)] of the export route: the chunks of one
    line. *)
Definition encode (value : StoredRow) (first : bool) : list (list byte) :=
  [ if first then tmpl_did_first else tmpl_did;
    st_did value;
    tmpl_op;
    st_operation value;
    tmpl_cid;
    st_cid value;
    tmpl_nullified;
    if negb (st_nullified value =? 0) then tmpl_true else tmpl_false;
    tmpl_createdAt;
    encode_text (toJSON (st_created_at value));
    tmpl_end ].

(** The body of the importer's loop over the lines of a page, up to the
    row it pushes (the check against [after_cid] apart). *)
Definition parseLine (line : list byte) : option ImportedRow :=
  line ← expectl line t_didplc;
  '(did, line) ← splitl line x22;
  line ← expectl line t_op;
  line ← expectr line t_end;
  '(createdAt, line) ← splitr line x22;
  let created_at := parse_ms (decode_text createdAt) in
  line ← expectr line t_createdAt;
  '(nullified, line) ← boolr line t_null t_notnull;
  '(cid, line) ← splitr line x22;
  operation ← expectr line t_cid;
  Some {| row_cid := cid;
          row_did := did;
          row_operation := operation;
          row_nullified := nullified;
          row_created_at := created_at |}.

(** The buffers that the export route pushes for a result set, over all
    the pulls of the response: [first] is cleared after the first
    row. *)
Fixpoint exportChunks (first : bool) (rows : list StoredRow)
    : list (list byte) :=
  match rows with
  | [] => []
  | value :: rows' => (encode value first ++ exportChunks false rows')%list
  end.

End With_dates.

End Wire.

(** ** Cutting the response stream into lines (the importer's [readStream]) *)

Module Stream.

(** An [ArrayBuffer] is the list of its bytes; a [Uint8Array] over it
    that starts at offset 0 is given by its length.  [None] is a
    [RangeError]. *)
Definition newArrayBuffer (byteLength : nat) : list byte :=
  replicate byteLength x00.

(** [new Uint8Array(buffer, 0, length)] *)
Definition newView (buffer : list byte) (len : nat) : option nat :=
  if (length buffer <? len)%nat then None else Some len.

(** What is read through a view. *)
Definition contents (buffer : list byte) (view : nat) : list byte :=
  take view buffer.

(** [view.set(source, offset)]: the buffer after the write. *)
Definition set (buffer : list byte) (view : nat) (source : list byte)
    (offset : nat) : option (list byte) :=
  if (view <? offset + length source)%nat then None
  else Some (take offset buffer ++ source
               ++ drop (offset + length source) buffer)%list.

(** [value.subarray(start, end)] with indices of the loop. *)
Definition subarray (value : list byte) (start : nat) (end_ : option nat)
    : list byte :=
  JS.slice value (Z.of_nat start) (Z.of_nat <$> end_).

(** The [for] loop over one chunk: [rest] is what is left of [value]
    from index [i] on.  Returns the lines yielded, and [start] and
    [prev] after the loop. *)
Fixpoint scan (prevBuf value rest : list byte) (i start : nat)
    (prev : option nat) : list (list byte) * (nat * option nat) :=
  match rest with
  | [] => ([], (start, prev))
  | b :: rest' =>
      if Byte.eqb b x0a then
        let line :=
          match prev with
          | Some view =>
              (contents prevBuf view ++ subarray value start (Some i))%list
          | None => subarray value start (Some i)
          end in
        let '(lines, final) := scan prevBuf value rest' (S i) (S i) None in
        (line :: lines, final)
      else scan prevBuf value rest' (S i) start prev
  end.

(** The end of the loop body: the bytes after the last newline are
    appended to [prev], in a buffer that is doubled when it is too
    small. *)
Definition keepTail (prevBuf : list byte) (prev : option nat)
    (value : list byte) (start : nat) : option (list byte * option nat) :=
  let keep := (length value - start)%nat in
  if (keep =? 0)%nat then Some (prevBuf, prev)
  else
    let lastPrevLength := from_option id 0%nat prev in
    let lastPrev := prev in
    prevBuf' ←
      (if (length prevBuf <? lastPrevLength + keep)%nat then
         let fresh := newArrayBuffer ((lastPrevLength + keep) * 2) in
         match lastPrev with
         | Some view =>
             target ← newView fresh view;
             set fresh target (contents prevBuf view) 0
         | None => Some fresh
         end
       else Some prevBuf);
    view ← newView prevBuf' (lastPrevLength + keep);
    written ← set prevBuf' view (subarray value start None) lastPrevLength;
    Some (written, Some view).

(** The generator, run over the chunks that [reader.read()] delivers
    before [done]; the result is the list of lines it yields. *)
Fixpoint readLoop (prevBuf : list byte) (prev : option nat)
    (chunks : list (list byte)) : option (list (list byte)) :=
  match chunks with
  | [] =>
      Some match prev with
           | Some view => [contents prevBuf view]
           | None => []
           end
  | value :: chunks' =>
      let '(lines, (start, prev1)) := scan prevBuf value value 0 0 prev in
      '(prevBuf', prev') ← keepTail prevBuf prev1 value start;
      later ← readLoop prevBuf' prev' chunks';
      Some (lines ++ later)%list
  end.

Definition readStream (chunks : list (list byte)) : option (list (list byte)) :=
  readLoop (newArrayBuffer 100) None chunks.

(** Splitting at newlines, as a specification: the complete lines of
    [data] after [pending], and what follows the last newline. *)
Fixpoint split_lines (pending data : list byte)
    : list (list byte) * list byte :=
  match data with
  | [] => ([], pending)
  | b :: data' =>
      if Byte.eqb b x0a then
        let '(lines, remainder) := split_lines [] data' in
        (pending :: lines, remainder)
      else split_lines (pending ++ [b]) data'
  end.

(** The lines yielded in the end: an unterminated last line counts when
    it is not empty. *)
Definition with_remainder (split : list (list byte) * list byte)
    : list (list byte) :=
  (split.1 ++ match split.2 with
              | [] => []
              | _ :: _ => [split.2]
              end)%list.

Definition lines_of (data : list byte) : list (list byte) :=
  with_remainder (split_lines [] data).

(** The partial line held in [prev], and what makes [prev] a view of
    [prevBuf]. *)
Definition pending (prevBuf : list byte) (prev : option nat) : list byte :=
  match prev with
  | Some view => contents prevBuf view
  | None => []
  end.

Definition valid_view (prevBuf : list byte) (prev : option nat) : Prop :=
  forall view, prev = Some view -> (0 < view <= length prevBuf)%nat.

End Stream.

(** ** Serving an export: the [pull] of the response stream *)

Module Serve.

Import Wire.

Section With_dates.

Context `{D : Dates}.

(** What one [pull] leaves behind: the flag [first] and the rows that
    the iterator has still to deliver. *)
Record Cursor : Type := {
  first : bool;
  pending_rows : list StoredRow;
}.

(** The [for] loop over the buffers of one row. *)
Definition push_all (bufs : list (list byte)) (written : Z)
    (chunks : list (list byte)) : Z * list (list byte) :=
  fold_left (fun '(written, chunks) buf =>
               (written + byteLength buf, chunks ++ [buf])%list)
            bufs (written, chunks).

(** The [while (written < 1_000 * 500)] loop: rows are encoded until the
    budget is reached or the iterator is done, in which case [close] is
    set. *)
Fixpoint fill (written : Z) (chunks : list (list byte)) (first : bool)
    (rows : list StoredRow) : Z * list (list byte) * bool * Cursor :=
  if written <? 1000 * 500 then
    match rows with
    | [] => (written, chunks, true, {| first := first; pending_rows := [] |})
    | value :: rows' =>
        let '(written', chunks') := push_all (encode value first) written chunks in
        fill written' chunks' false rows'
    end
  else (written, chunks, false, {| first := first; pending_rows := rows |}).

(** [output.set(buffer, index)] for every chunk in turn. *)
Fixpoint write_all (output : list byte) (chunks : list (list byte))
    (index : nat) : option (list byte) :=
  match chunks with
  | [] => Some output
  | buffer :: chunks' =>
      output' ← Stream.set output (length output) buffer index;
      write_all output' chunks' (index + length buffer)
  end.

(** One call of [pull]. [request] is the region of the BYOB request's
    view when there is one.  The result is what the consumer receives
    (the filled part of the view after [respond(written)], or the buffer
    that is enqueued), whether the stream is closed, and the cursor;
    [None] is an exception, which errors the stream. *)
Definition pull (request : option (list byte)) (cursor : Cursor)
    : option (option (list byte) * bool * Cursor) :=
  let '(written, chunks, close, cursor') :=
    fill 0 [] (first cursor) (pending_rows cursor) in
  if written =? 0 then Some (None, close, cursor')
  else
    let view :=
      match request with
      | Some region =>
          if written <=? byteLength region then Some region else None
      | None => None
      end in
    let output :=
      match view with
      | Some region => region
      | None => Stream.newArrayBuffer (Z.to_nat written)
      end in
    filled ← write_all output chunks 0;
    Some (Some match view with
               | Some _ => take (Z.to_nat written) filled
               | None => filled
               end,
          close, cursor').

Definition received_bytes (received : option (list byte)) : list byte :=
  match received with
  | Some bytes => bytes
  | None => []
  end.

(** The body of the response: what the consumer receives over the pulls
    that answer [requests], and whether the stream was closed. *)
Fixpoint body (requests : list (option (list byte))) (cursor : Cursor)
    : option (list (list byte) * bool) :=
  match requests with
  | [] => Some ([], false)
  | request :: requests' =>
      '(received, close, cursor') ← pull request cursor;
      let now := match received with
                 | Some bytes => [bytes]
                 | None => []
                 end in
      if close : bool then Some (now, true)
      else
        '(later, closed) ← body requests' cursor';
        Some ((now ++ later)%list, closed)
  end.

End With_dates.

End Serve.

(** ** The importer's loop over the lines of a page *)

Module Importer.

Import Wire.

Section With_dates.

Context `{D : Dates}.

(** The variables that outlive a page: [after], [after_cid], and the
    transactions committed to the table so far, oldest first. *)
Record State : Type := {
  after : option JS.number;
  after_cid : option (list byte);
  committed : list (list ImportedRow);
}.

(** [commitTx(rows)]: one transaction, none when there is no row. *)
Definition commitTx (rows : list ImportedRow) (st : State) : State :=
  match rows with
  | [] => st
  | _ :: _ =>
      {| after := after st; after_cid := after_cid st;
         committed := (committed st ++ [rows])%list |}
  end.

(** [after_cid && equals(cid, after_cid)] *)
Definition seen (st : State) (cid : list byte) : bool :=
  match after_cid st with
  | Some last => equals cid last
  | None => false
  end.

(** The body of [for await (let line of readStream(...))], on the state
    and the rows gathered so far. [None] is a failed [assert]. *)
Definition importLine (acc : State * list ImportedRow) (line : list byte)
    : option (State * list ImportedRow) :=
  let '(st, rows) := acc in
  line ← expectl line t_didplc;
  '(did, line) ← splitl line x22;
  line ← expectl line t_op;
  line ← expectr line t_end;
  '(createdAt, line) ← splitr line x22;
  let created_at := parse_ms (decode_text createdAt) in
  line ← expectr line t_createdAt;
  '(nullified, line) ← boolr line t_null t_notnull;
  '(cid, line) ← splitr line x22;
  if seen st cid then Some (st, rows)
  else
    operation ← expectr line t_cid;
    let rows := (rows ++ [ {| row_cid := cid;
                              row_did := did;
                              row_operation := operation;
                              row_nullified := nullified;
                              row_created_at := created_at |} ])%list in
    let st := {| after := Some created_at; after_cid := Some cid;
                 committed := committed st |} in
    if (500 <? length rows)%nat then Some (commitTx rows st, [])
    else Some (st, rows).

Fixpoint importLines (acc : State * list ImportedRow)
    (lines : list (list byte)) : option (State * list ImportedRow) :=
  match lines with
  | [] => Some acc
  | line :: lines' =>
      acc' ← importLine acc line;
      importLines acc' lines'
  end.

(** One turn of the [while (1)] loop once the page is downloaded: the
    state after it, and whether it sleeps before the next turn. *)
Definition importPage (st : State) (lines : list (list byte))
    : option (State * bool) :=
  '(st', rows) ← importLines (st, []) lines;
  Some (commitTx rows st', (length rows =? 0)%nat).

End With_dates.

(** What the check against [after_cid] lets through, as a
    specification: a row is dropped when its [cid] is that of the row
    kept last. *)
Fixpoint fresh_rows (last : option (list byte)) (parsed : list ImportedRow)
    : list ImportedRow :=
  match parsed with
  | [] => []
  | r :: parsed' =>
      if bool_decide (last = Some (row_cid r)) then fresh_rows last parsed'
      else r :: fresh_rows (Some (row_cid r)) parsed'
  end.

(** The [cid] kept last after [kept] rows. *)
Definition last_cid (start : option (list byte)) (kept : list ImportedRow)
    : option (list byte) :=
  match last kept with
  | Some r => Some (row_cid r)
  | None => start
  end.

(** The [after] that goes with it. *)
Definition last_date (start : option JS.number) (kept : list ImportedRow)
    : option JS.number :=
  match last kept with
  | Some r => Some (row_created_at r)
  | None => start
  end.

(** What the loop body does with a row it keeps, as a specification. *)
Definition pushed (st : State) (rows : list ImportedRow) (r : ImportedRow)
    : State * list ImportedRow :=
  let st' := {| after := Some (row_created_at r);
                after_cid := Some (row_cid r);
                committed := committed st |} in
  if (500 <? length (rows ++ [r])%list)%nat
  then (commitTx (rows ++ [r])%list st', [])
  else (st', (rows ++ [r])%list).

End Importer.

(** ** Collecting the links of a record ([walkObject] of the indexer) *)

Module Walk.

(** A decoded record. [JAtom] is any value that is neither [null], a
    string, an array nor an object (a number, a boolean, [undefined],
    also the hole of a sparse array); the properties of an object are
    its own enumerable ones in the order of [for ... in]. *)
#[local] Unset Elimination Schemes.
Inductive Json : Type :=
| JNull
| JAtom
| JString (s : string)
| JArray (items : list Json)
| JObject (props : list (string * Json)).
#[local] Set Elimination Schemes.

(** An element of [path]: a key, or the number [0] that stands for any
    array position. *)
Inductive Step : Type :=
| Key (key : string)
| Zero.

(** The tuple that is yielded. *)
Record Link : Type := {
  link_path : string;
  link_indices : option string;
  link_did : string;
  link_collection : string;
  link_rkey : string;
}.

(** [JSON.stringify] on a path and on indices, and
    [decodeURIComponent], where [None] is a [URIError]. *)
Class Host : Type := {
  stringify_path : list Step -> string;
  stringify_indices : list nat -> string;
  decodeURIComponent : string -> option string;
}.

(** The regular expression [atURI]:
    [^at:\/\/([^\/#?]+)\/([^\/#?]+)\/([^\/#?]+)$]. *)
Definition in_class (c : ascii) : bool :=
  negb (Ascii.eqb c "/" || Ascii.eqb c "#" || Ascii.eqb c "?").

(** The characters of a literal, one by one. *)
Fixpoint literal (p s : string) : option string :=
  match p with
  | EmptyString => Some s
  | String a p' =>
      match s with
      | String b s' => if Ascii.eqb a b then literal p' s' else None
      | EmptyString => None
      end
  end.

(** The longest run of characters of the class, and what follows it. *)
Fixpoint run (s : string) : string * string :=
  match s with
  | EmptyString => (EmptyString, EmptyString)
  | String c s' =>
      if in_class c then let '(a, rest) := run s' in (String c a, rest)
      else (EmptyString, s)
  end.

(** A group [([^\/#?]+)]: what follows a run never starts with a
    character of the class, and no character of the class is a [/], so
    only the longest run can be followed by the rest of the pattern. *)
Definition group (s : string) : option (string * string) :=
  let '(a, rest) := run s in
  if JS.truthy a then Some (a, rest) else None.

Definition atURI (s : string) : option (string * string * string) :=
  rest ← literal "at://" s;
  '(m1, rest) ← group rest;
  rest ← literal "/" rest;
  '(m2, rest) ← group rest;
  rest ← literal "/" rest;
  '(m3, rest) ← group rest;
  if JS.truthy rest then None else Some (m1, m2, m3).

(** What a generator has done when it stops: the tuples yielded, and
    whether it stopped on an exception. *)
Record Trace : Type := {
  yields : list Link;
  thrown : bool;
}.

Definition finished : Trace := {| yields := []; thrown := false |}.

(** [yield* first] and then [second]. *)
Definition and_then (first second : Trace) : Trace :=
  if thrown first then first
  else {| yields := (yields first ++ yields second)%list;
          thrown := thrown second |}.

Section With_host.

Context `{HOST : Host}.

(** The [yield] of a string that matches. *)
Definition yield_link (path : list Step) (indices : list nat)
    (m1 m2 m3 : string) : Trace :=
  let path_json := stringify_path path in
  let indices_json :=
    match indices with
    | [] => None
    | _ :: _ => Some (stringify_indices indices)
    end in
  match decodeURIComponent m1 with
  | None => {| yields := []; thrown := true |}
  | Some did =>
      match decodeURIComponent m2 with
      | None => {| yields := []; thrown := true |}
      | Some collection =>
          match decodeURIComponent m3 with
          | None => {| yields := []; thrown := true |}
          | Some rkey =>
              {| yields := [ {| link_path := path_json;
                                link_indices := indices_json;
                                link_did := did;
                                link_collection := collection;
                                link_rkey := rkey |} ];
                 thrown := false |}
          end
      end
  end.

Section Loops.

Variable walk : Json -> list Step -> list nat -> Trace.

(** [for (let i = 0; i < obj.length; i++)], from index [i] on. *)
Fixpoint walkItems (items : list Json) (i : nat) (path : list Step)
    (indices : list nat) : Trace :=
  match items with
  | [] => finished
  | item :: items' =>
      and_then (walk item (path ++ [Zero])%list (indices ++ [i])%list)
          (walkItems items' (S i) path indices)
  end.

(** [for (const key in obj)] over the own properties. *)
Fixpoint walkProps (props : list (string * Json)) (path : list Step)
    (indices : list nat) : Trace :=
  match props with
  | [] => finished
  | (key, value) :: props' =>
      and_then (walk value (path ++ [Key key])%list indices)
          (walkProps props' path indices)
  end.

End Loops.

Fixpoint walkObject (obj : Json) (path : list Step) (indices : list nat)
    : Trace :=
  match obj with
  | JArray items => walkItems walkObject items 0 path indices
  | JObject props => walkProps walkObject props path indices
  | JString s =>
      match atURI s with
      | Some (m1, m2, m3) => yield_link path indices m1 m2 m3
      | None => finished
      end
  | JNull | JAtom => finished
  end.

End With_host.

(** Reading a record at an address: the keys of [steps] select
    properties, and each [Zero] takes the next of [indices] as an array
    position. *)
Fixpoint property (key : string) (props : list (string * Json)) : option Json :=
  match props with
  | [] => None
  | (k, value) :: props' =>
      if String.eqb k key then Some value else property key props'
  end.

Fixpoint locate (obj : Json) (steps : list Step) (indices : list nat)
    : option Json :=
  match steps with
  | [] =>
      match indices with
      | [] => Some obj
      | _ :: _ => None
      end
  | Key key :: steps' =>
      match obj with
      | JObject props =>
          child ← property key props;
          locate child steps' indices
      | _ => None
      end
  | Zero :: steps' =>
      match obj, indices with
      | JArray items, i :: indices' =>
          child ← items !! i;
          locate child steps' indices'
      | _, _ => None
      end
  end.

Section Addresses.

Context `{HOST : Host}.

(** [link] is the tuple of the string [uri] found at [path] and
    [indices]. *)
Definition link_at (path : list Step) (indices : list nat) (uri : string)
    (link : Link) : Prop :=
  exists m1 m2 m3,
    atURI uri = Some (m1, m2, m3)
    /\ link_path link = stringify_path path
    /\ link_indices link
       = match indices with
         | [] => None
         | _ :: _ => Some (stringify_indices indices)
         end
    /\ decodeURIComponent m1 = Some (link_did link)
    /\ decodeURIComponent m2 = Some (link_collection link)
    /\ decodeURIComponent m3 = Some (link_rkey link).

End Addresses.

(** No object holds a key twice, as it is in JavaScript. *)
Fixpoint unique_keys (obj : Json) : bool :=
  match obj with
  | JArray items => forallb unique_keys items
  | JObject props =>
      bool_decide (NoDup props.*1)
      && forallb (fun kv => unique_keys kv.2) props
  | _ => true
  end.

(** A string in which every character is of the class. *)
Fixpoint plain (s : string) : bool :=
  match s with
  | EmptyString => true
  | String c s' => in_class c && plain s'
  end.

(** What follows a run: nothing, or a character outside the class. *)
Definition stops (rest : string) : Prop :=
  match rest with
  | EmptyString => True
  | String c _ => in_class c = false
  end.

End Walk.

(** ** More of the runtime to evaluate on *)

Module Samples.

Import Fixture.

(** A private key is named by its did-key, and its signature is that
    name, which is what the verifier of [Fixture.runtime] accepts. *)
#[export] Instance authoring : Authoring string string := {|
  sign := fun key _ => list_byte_of_string key;
  toBase64Url := string_of_list_byte;
  prev_toString := fun c => c;
  created_toString := fun bytes => "b" +:+ base32 (digest bytes);
|}.

(** [n] in decimal, on [width] digits. *)
Fixpoint decimal (width : nat) (n : Z) : string :=
  match width with
  | O => ""
  | S width' =>
      decimal width' (n / 10)
        +:+ String (ascii_of_nat (48 + Z.to_nat (n mod 10))) ""
  end.

(** Milliseconds since the epoch to [YYYY-MM-DDTHH:mm:ss.sssZ], for the
    years 0 to 9999. *)
Definition print_date (ms : Z) : string :=
  let days := ms / 86400000 in
  let rest := ms mod 86400000 in
  let z := days + 719468 in
  let era := z / 146097 in
  let doe := z - era * 146097 in
  let yoe := (doe - doe / 1460 + doe / 36524 - doe / 146096) / 365 in
  let doy := doe - (365 * yoe + yoe / 4 - yoe / 100) in
  let mp := (5 * doy + 2) / 153 in
  let d := doy - (153 * mp + 2) / 5 + 1 in
  let m := if mp <? 10 then mp + 3 else mp - 9 in
  let y := yoe + era * 400 + (if m <=? 2 then 1 else 0) in
  if (y <? 0) || (9999 <? y) then "null"
  else
    decimal 4 y +:+ "-" +:+ decimal 2 m +:+ "-" +:+ decimal 2 d +:+ "T"
      +:+ decimal 2 (rest / 3600000) +:+ ":"
      +:+ decimal 2 (rest / 60000 mod 60) +:+ ":"
      +:+ decimal 2 (rest / 1000 mod 60) +:+ "."
      +:+ decimal 3 (rest mod 1000) +:+ "Z".

#[export] Instance dates : Dates := {|
  parse_ms := parse_date;
  toJSON := print_date;
|}.

(** [H]: an operation that declares no rotation keys. *)
Definition H : IndexedOperation :=
  {| operation := plc_op [] "https://pds.example.com" None KS;
     cid := "bafyH";
     createdAt := "2024-01-01T00:00:00.000Z" |}.

(** A fork from [G] by the recovery key with a timestamp that does not
    parse. *)
Definition B_undated : IndexedOperation := B "yesterday".

(** A stored row; the operation text holds quotes. *)
Definition row (nullified : Z) : Wire.StoredRow :=
  {| Wire.st_cid := Wire.encode_text "bafyA";
     Wire.st_did := Wire.encode_text "tsuqxmjlla3zzbhlv4eiaxoo";
     Wire.st_operation :=
       Wire.encode_text
         ("{" +:+ Wire.quote +:+ "type" +:+ Wire.quote +:+ ":"
              +:+ Wire.quote +:+ "plc_tombstone" +:+ Wire.quote +:+ "}");
     Wire.st_nullified := nullified;
     Wire.st_created_at := 1704153600000 |}.

(** An operation before it is signed, and options of an update. *)
Definition unsigned : UnsignedOperation :=
  {| u_verificationMethods := {[ "atproto" := KS ]};
     u_rotationKeys := [KR; KS];
     u_alsoKnownAs := ["https://alice.example.com"; "at://alice.example.com";
                       "at://old.example.com"];
     u_services := ∅;
     u_prev := None |}.

Definition rename (handle : string) : UpdateOpts :=
  {| upd_signingKey := None;
     upd_handle := Some handle;
     upd_pds := Some "";
     upd_rotationKeys := None |}.

(** A second stored row, and the state of an importer whose table
    ends with the first. *)
Definition row2 : Wire.StoredRow :=
  {| Wire.st_cid := Wire.encode_text "bafyB";
     Wire.st_did := Wire.encode_text "tsuqxmjlla3zzbhlv4eiaxoo";
     Wire.st_operation := Wire.encode_text "{}";
     Wire.st_nullified := 0;
     Wire.st_created_at := 1704240000000 |}.

Definition imported (r : Wire.StoredRow) : Wire.ImportedRow :=
  {| Wire.row_cid := Wire.st_cid r;
     Wire.row_did := Wire.st_did r;
     Wire.row_operation := Wire.st_operation r;
     Wire.row_nullified := Wire.st_nullified r;
     Wire.row_created_at := JS.Num (Wire.st_created_at r) |}.

Definition resumed : Importer.State :=
  {| Importer.after := Some (JS.Num 1704153600000);
     Importer.after_cid := Some (Wire.encode_text "bafyA");
     Importer.committed := [] |}.

(** A host for [walkObject]: keys are printed between quotes without
    escapes, and a [%] makes [decodeURIComponent] throw. *)
Fixpoint show_nat (fuel n : nat) : string :=
  match fuel with
  | O => ""
  | S fuel' =>
      (if (n <? 10)%nat then "" else show_nat fuel' (n / 10))
        +:+ String (ascii_of_nat (48 + n mod 10)) ""
  end.

Definition show_step (step : Walk.Step) : string :=
  match step with
  | Walk.Key key => Wire.quote +:+ key +:+ Wire.quote
  | Walk.Zero => "0"
  end.

#[export] Instance host : Walk.Host := {|
  Walk.stringify_path := fun path =>
    "[" +:+ String.concat "," (show_step <$> path) +:+ "]";
  Walk.stringify_indices := fun indices =>
    "[" +:+ String.concat "," ((fun i => show_nat (S i) i) <$> indices) +:+ "]";
  Walk.decodeURIComponent := fun s =>
    match String.index 0 "%" s with
    | Some _ => None
    | None => Some s
    end;
|}.

(** A record with a link under a key and one in an array. *)
Definition post : Walk.Json :=
  Walk.JObject
    [("subject",
      Walk.JObject
        [("uri", Walk.JString "at://did:plc:abc/app.bsky.feed.post/3k")]);
     ("tags",
      Walk.JArray
        [Walk.JAtom;
         Walk.JString "at://alice.example.com/app.bsky.graph.list/xyz";
         Walk.JString "at://alice.example.com/app.bsky.graph.list"])].

Definition list_link : Walk.Link :=
  {| Walk.link_path := Walk.stringify_path [Walk.Key "tags"; Walk.Zero];
     Walk.link_indices := Some (Walk.stringify_indices [1%nat]);
     Walk.link_did := "alice.example.com";
     Walk.link_collection := "app.bsky.graph.list";
     Walk.link_rkey := "xyz" |}.

Ltac no_such_byte :=
  lazymatch goal with
  | |- ?P => apply (@bool_decide_unpack P _); vm_compute; exact I
  end.

End Samples.

(** * Properties *)

(** ** Facts about the JavaScript built-ins *)

Section Doubles.

(** An integer of magnitude up to 2^53 is subtracted exactly. *)
Lemma round_binary64_exact (z : Z) :
  Z.abs z <= 2 ^ 53 -> JS.round_binary64 z = z.
Proof.
  intros Hz. unfold JS.round_binary64.
  destruct (Z.abs z <? 2 ^ 53) eqn:Hsmall; [reflexivity|].
  apply Z.ltb_ge in Hsmall.
  assert (Z.abs z = 2 ^ 53) as Habs by lia. rewrite Habs.
  change (Z.log2 (2 ^ 53) - 52) with 1.
  change (2 ^ 53 / 2 ^ 1) with (2 ^ 52).
  change (2 ^ 53 mod 2 ^ 1) with 0.
  change (2 ^ 1 / 2) with 1. cbn [Z.ltb Z.compare Z.even].
  change (Z.even (2 ^ 52)) with true. cbv iota.
  change (2 ^ 52 * 2 ^ 1) with (2 ^ 53). rewrite <- Habs.
  rewrite Z.mul_comm. apply Z.abs_sgn.
Qed.

(** Past 2^53 the rounded value keeps its sign and stays past 2^53. *)
Lemma round_binary64_large (z : Z) :
  2 ^ 53 <= Z.abs z ->
  (0 < z -> 2 ^ 53 <= JS.round_binary64 z)
  /\ (z < 0 -> JS.round_binary64 z <= - 2 ^ 53).
Proof.
  intros Hz. unfold JS.round_binary64.
  destruct (Z.abs z <? 2 ^ 53) eqn:Hsmall; [apply Z.ltb_lt in Hsmall; lia|].
  set (m := Z.abs z) in *.
  assert (53 <= Z.log2 m) as Hlog.
  { change 53 with (Z.log2 (2 ^ 53)). apply Z.log2_le_mono. assumption. }
  set (e := Z.log2 m - 52).
  assert (2 ^ 1 <= 2 ^ e) as Hulp by (apply Z.pow_le_mono_r; lia).
  change (2 ^ 1) with 2 in Hulp.
  assert (2 ^ 52 <= m / 2 ^ e) as Hq.
  { apply Z.div_le_lower_bound; [lia|].
    rewrite <- Z.pow_add_r by lia.
    replace (e + 52) with (Z.log2 m) by (unfold e; lia).
    apply Z.log2_spec. lia. }
  set (q := m / 2 ^ e) in *.
  set (q' := if m mod 2 ^ e <? 2 ^ e / 2 then q
             else if 2 ^ e / 2 <? m mod 2 ^ e then q + 1
                  else if Z.even q then q else q + 1).
  assert (q <= q') as Hq'.
  { unfold q'. repeat case_match; lia. }
  assert (2 ^ 53 <= q' * 2 ^ e) as Hbig.
  { change (2 ^ 53) with (2 ^ 52 * 2).
    apply Z.mul_le_mono_nonneg; lia. }
  split; intros Hsign.
  - rewrite Z.sgn_pos by assumption. lia.
  - rewrite Z.sgn_neg by assumption. lia.
Qed.

(** Rounding does not move a difference across a bound below 2^53. *)
Lemma gt_sub (x y bound : Z) :
  0 <= bound < 2 ^ 53 ->
  JS.gt (JS.sub (JS.Num x) (JS.Num y)) bound = (bound <? x - y).
Proof.
  intros Hbound. cbn [JS.sub JS.gt].
  destruct (Z_le_gt_dec (Z.abs (x - y)) (2 ^ 53)) as [Hsmall|Hlarge].
  - rewrite round_binary64_exact by assumption. reflexivity.
  - destruct (round_binary64_large (x - y)) as [Hpos Hneg]; [lia|].
    destruct (Z_lt_le_dec 0 (x - y)) as [Hsign|Hsign].
    + specialize (Hpos Hsign).
      transitivity true; [apply Z.ltb_lt|symmetry; apply Z.ltb_lt]; lia.
    + assert (x - y < 0) as Hlt by lia. specialize (Hneg Hlt).
      transitivity false; [apply Z.ltb_ge|symmetry; apply Z.ltb_ge]; lia.
Qed.

(** The two ends of the range of time values: the difference is odd,
    lies between two doubles, and goes to the even one. *)
Lemma sub_time_range :
  JS.sub (JS.Num 8640000000000000) (JS.Num (-8639999999999999))
  = JS.Num 17280000000000000.
Proof. vm_compute. reflexivity. Qed.

End Doubles.

Section Builtins.

Context {A : Type}.

Lemma findIndex_from_shift (p : A -> bool) (l : list A) (i : Z) :
  JS.findIndex_from p l i =
    if JS.findIndex_from p l 0 <? 0 then -1 else i + JS.findIndex_from p l 0.
Proof.
  revert i. induction l as [|x l IH]; intros i; simpl; [reflexivity|].
  destruct (p x); [simpl; f_equal; lia|].
  rewrite (IH (i + 1)), (IH (0 + 1)).
  destruct (JS.findIndex_from p l 0 <? 0) eqn:E; [reflexivity|].
  apply Z.ltb_ge in E.
  destruct (0 + 1 + JS.findIndex_from p l 0 <? 0) eqn:E'; [apply Z.ltb_lt in E'; lia|].
  lia.
Qed.

(** [findIndex] is stdpp's [list_find], with [-1] for [None]. *)
Lemma findIndex_list_find (p : A -> bool) (l : list A) :
  JS.findIndex p l =
    from_option (fun ix => Z.of_nat ix.1) (-1) (list_find (fun x => p x = true) l).
Proof.
  unfold JS.findIndex. induction l as [|x l IH]; [reflexivity|].
  simpl. destruct (p x) eqn:Hp.
  - rewrite decide_True by reflexivity. reflexivity.
  - rewrite decide_False by discriminate.
    rewrite findIndex_from_shift, IH.
    destruct (list_find _ l) as [[n y]|]; simpl; [|reflexivity].
    destruct (Z.of_nat n <? 0) eqn:E; [apply Z.ltb_lt in E; lia|]. lia.
Qed.

Lemma findIndex_none (p : A -> bool) (l : list A) :
  (forall x, x ∈ l -> p x = false) -> JS.findIndex p l = -1.
Proof.
  intros H. rewrite findIndex_list_find.
  destruct (list_find _ l) as [[n y]|] eqn:E; [|reflexivity].
  apply list_find_Some in E as (Hl & Hp & _).
  rewrite (H y) in Hp; [discriminate|]. eapply list_elem_of_lookup_2, Hl.
Qed.

Lemma findIndex_first (p : A -> bool) (l : list A) (n : nat) (x : A) :
  l !! n = Some x -> p x = true ->
  (forall j y, l !! j = Some y -> (j < n)%nat -> p y = false) ->
  JS.findIndex p l = Z.of_nat n.
Proof.
  intros Hl Hp Hfirst. rewrite findIndex_list_find.
  assert (list_find (fun x => p x = true) l = Some (n, x)) as ->; [|reflexivity].
  apply list_find_Some. split_and!; [assumption..|].
  intros j y Hj Hlt. rewrite (Hfirst j y Hj Hlt). discriminate.
Qed.

Lemma slice_take (l : list A) (n : nat) :
  JS.slice l 0 (Some (Z.of_nat n)) = take n l.
Proof.
  unfold JS.slice, JS.relative_index.
  change (0 <? 0) with false. cbv iota.
  replace (Z.of_nat n <? 0) with false by (symmetry; apply Z.ltb_ge; lia).
  replace (Z.min 0 (Z.of_nat (length l))) with 0 by lia.
  rewrite Z.sub_0_r. change (Z.to_nat 0) with 0%nat. rewrite drop_0.
  destruct (decide (n <= length l)%nat).
  - rewrite Z.min_l by lia. rewrite Nat2Z.id. reflexivity.
  - rewrite Z.min_r by lia. rewrite Nat2Z.id.
    rewrite !take_ge by lia. reflexivity.
Qed.

Lemma slice_drop (l : list A) (n : nat) :
  JS.slice l (Z.of_nat n) None = drop n l.
Proof.
  unfold JS.slice, JS.relative_index.
  destruct (Z.of_nat n <? 0) eqn:E; [apply Z.ltb_lt in E; lia|].
  destruct (decide (n <= length l)%nat).
  - rewrite Z.min_l by lia. rewrite Nat2Z.id.
    apply take_ge. rewrite length_drop. lia.
  - rewrite Z.min_r by lia. rewrite Z.sub_diag.
    rewrite (drop_ge l n) by lia. reflexivity.
Qed.

Lemma at_last (l : list A) : JS.at_ l (-1) = last l.
Proof.
  unfold JS.at_. change (-1 <? 0) with true. cbv iota.
  destruct l as [|x l]; [reflexivity|].
  assert (Z.of_nat (length (x :: l)) = Z.of_nat (length l) + 1) as Hlen
    by (rewrite length_cons; lia).
  rewrite last_lookup, Hlen.
  destruct (_ || _) eqn:E.
  - apply orb_true_iff in E as [E|E];
      [apply Z.ltb_lt in E|apply Z.leb_le in E]; lia.
  - f_equal. rewrite length_cons. lia.
Qed.

End Builtins.

(** ** Signature verification *)

Section Signatures.

Context `{RT : Runtime Cid}.

Lemma firstValidKey_Some (keys : list string) (sb db : list byte) (k : string) :
  firstValidKey keys sb db = Some k <->
  exists n, first_at (fun k => verifySigWithDidKey k sb db) keys n k.
Proof.
  unfold first_at. revert k. induction keys as [|x keys IH]; intros k; simpl.
  - split; [discriminate|]. intros (n & Hn & _). destruct n; discriminate.
  - destruct (verifySigWithDidKey x sb db) eqn:Hx.
    + split.
      * intros [= <-]. exists 0%nat. split_and!; [reflexivity|assumption|].
        intros j y _ Hj. lia.
      * intros (n & Hn & Hk & Hfirst). destruct n as [|n].
        -- simpl in Hn. congruence.
        -- specialize (Hfirst 0%nat x eq_refl ltac:(lia)). congruence.
    + rewrite IH. split.
      * intros (n & Hn & Hk & Hfirst). exists (S n). split_and!; [assumption..|].
        intros [|j] y Hj Hlt; simpl in Hj.
        -- congruence.
        -- apply (Hfirst j y Hj). lia.
      * intros (n & Hn & Hk & Hfirst). destruct n as [|n].
        -- simpl in Hn. congruence.
        -- exists n. split_and!; [assumption..|].
           intros j y Hj Hlt. apply (Hfirst (S j) y Hj). lia.
Qed.

Lemma firstValidKey_None (keys : list string) (sb db : list byte) :
  firstValidKey keys sb db = None <->
  forall k, k ∈ keys -> verifySigWithDidKey k sb db = false.
Proof.
  induction keys as [|x keys IH]; simpl.
  - split; [|reflexivity]. intros _ k Hk. inversion Hk.
  - destruct (verifySigWithDidKey x sb db) eqn:Hx.
    + split; [discriminate|]. intros H. rewrite H in Hx; [discriminate|left].
    + rewrite IH. split.
      * intros H k Hk. inversion Hk; subst; auto.
      * intros H k Hk. apply H. right. assumption.
Qed.

Lemma assureValidSig_Ok (keys : list string) (op : CompatibleOpOrTombstone)
    (k : string) :
  assureValidSig keys op = Ok k <->
  JS.endsWith (sig op) "=" = false
  /\ exists n, first_at (fun k => verifies k op) keys n k.
Proof.
  unfold assureValidSig, verifies.
  destruct (JS.endsWith (sig op) "="); [split; [discriminate|intros [? _]; discriminate]|].
  rewrite <- firstValidKey_Some.
  destruct (firstValidKey keys _ _) as [k'|]; split.
  - intros [= <-]. auto.
  - intros [_ [= <-]]. reflexivity.
  - discriminate.
  - intros [_ ?]. discriminate.
Qed.

Lemma assureValidSig_Throw (keys : list string) (op : CompatibleOpOrTombstone)
    (e : Exception) :
  assureValidSig keys op = Throw e -> e = Plc (InvalidSignatureError op).
Proof.
  unfold assureValidSig.
  destruct (JS.endsWith (sig op) "="); [congruence|].
  destruct (firstValidKey keys _ _); [discriminate|congruence].
Qed.

Lemma assureValidSig_none (keys : list string) (op : CompatibleOpOrTombstone) :
  (forall k, k ∈ keys -> verifies k op = false) ->
  assureValidSig keys op = Throw (Plc (InvalidSignatureError op)).
Proof.
  intros H. unfold assureValidSig.
  destruct (JS.endsWith (sig op) "="); [reflexivity|].
  apply firstValidKey_None in H. unfold verifies in H. rewrite H. reflexivity.
Qed.

Lemma assureValidSig_elem (keys : list string) (op : CompatibleOpOrTombstone)
    (k : string) :
  assureValidSig keys op = Ok k -> k ∈ keys.
Proof.
  intros (_ & n & Hn & _)%assureValidSig_Ok. eapply list_elem_of_lookup_2, Hn.
Qed.

(** Where [indexOf] finds a key that is in the list. *)
Lemma indexOf_elem (keys : list string) (k : string) :
  k ∈ keys ->
  exists n,
    list_find (fun k' => k' = k) keys = Some (n, k)
    /\ JS.indexOf keys k = Z.of_nat n.
Proof.
  intros Hk.
  destruct (list_find_elem_of (fun k' => k' = k) keys k Hk eq_refl)
    as [[n k'] Hfind].
  pose proof Hfind as (Hn & -> & Hfirst)%list_find_Some.
  exists n. split; [assumption|].
  unfold JS.indexOf. apply (findIndex_first _ _ n k); [assumption|apply String.eqb_refl|].
  intros j y Hj Hlt. apply String.eqb_neq. intros Heq.
  apply (Hfirst j y Hj Hlt). congruence.
Qed.

End Signatures.

(** ** The step validator computes the cases of the specification *)

Section Step.

Context `{RT : Runtime Cid}.

Lemma refers_to_nonempty (c : string) (ops : list IndexedOperation) (i : nat)
    (head : IndexedOperation) :
  refers_to c ops i head -> (length ops =? 0)%nat = false.
Proof.
  intros (Hi & _). apply lookup_lt_Some in Hi. apply Nat.eqb_neq. lia.
Qed.

Lemma parsePrev_Some (s : string) (c : Cid) :
  s <> "" -> CID_fromString s = Some c -> parsePrev (Some s) = Ok (Some c).
Proof.
  intros Hs Hc. unfold parsePrev. destruct s; [congruence|]. simpl.
  rewrite Hc. reflexivity.
Qed.

Lemma findIndex_refers_to (c : string) (ops : list IndexedOperation) (i : nat)
    (head : IndexedOperation) :
  refers_to c ops i head ->
  JS.findIndex (fun op => String.eqb c (cid op)) ops = Z.of_nat i.
Proof.
  intros (Hi & Hc & Hfirst).
  apply (findIndex_first _ _ i head); [assumption|apply String.eqb_eq; congruence|].
  intros j y Hj Hlt. apply String.eqb_neq. intros Heq.
  apply (Hfirst j y Hj Hlt). congruence.
Qed.

Lemma last_take_lookup (ops : list IndexedOperation) (i : nat)
    (head : IndexedOperation) :
  ops !! i = Some head -> last (take (S i) ops) = Some head.
Proof.
  intros Hi. pose proof (lookup_lt_Some _ _ _ Hi).
  rewrite last_lookup, length_take, Nat.min_l by lia. simpl.
  rewrite lookup_take_lt by lia. assumption.
Qed.

Lemma assureValidNextOp_located (did : string) (ops : list IndexedOperation)
    (proposed : IndexedOperation) (s : string) (c : Cid) (i : nat)
    (head : IndexedOperation) :
  prev (operation proposed) = Some s -> s <> "" ->
  CID_fromString s = Some c ->
  refers_to (CID_toString c) ops i head ->
  assureValidNextOp did ops proposed = spec_cases_DEF ops proposed c i head.
Proof.
  intros Hprev Hs Hc Href. unfold assureValidNextOp, spec_cases_DEF.
  rewrite (refers_to_nonempty _ _ _ _ Href), Hprev, (parsePrev_Some s c Hs Hc).
  cbn [bind]. rewrite (findIndex_refers_to _ _ _ _ Href).
  replace (Z.of_nat i <? 0) with false by (symmetry; apply Z.ltb_ge; lia).
  replace (Z.of_nat i + 1) with (Z.of_nat (S i)) by lia.
  rewrite slice_take, slice_drop, at_last.
  destruct Href as (Hi & _). rewrite (last_take_lookup _ _ _ Hi).
  destruct (operation head) as [h|t]; [|reflexivity].
  destruct (drop (S i) ops) as [|firstNullified rest]; [reflexivity|].
  cbn [lookup list_lookup].
  destruct (assureValidSig (rotationKeys (normalizeOp h)) (operation firstNullified))
    as [signer|e] eqn:Hsig; [|reflexivity].
  cbn [bind].
  destruct (indexOf_elem _ _ (assureValidSig_elem _ _ _ Hsig)) as (n & -> & ->).
  rewrite slice_take. cbn [from_option fst].
  destruct (assureValidSig (take n _) (operation proposed)); [|reflexivity].
  reflexivity.
Qed.

End Step.

(** ** Malformed signatures *)

Section Padding.

Lemma endsWith_cons (a b : ascii) (s : string) :
  JS.endsWith (String a (String b s)) "=" = JS.endsWith (String b s) "=".
Proof.
  unfold JS.endsWith. cbn [String.length].
  change (String.length "=") with 1%nat.
  replace (S (S (String.length s)) - 1)%nat with (S (String.length s)) by lia.
  replace (S (String.length s) - 1)%nat with (String.length s) by lia.
  reflexivity.
Qed.

(** [s.endsWith("=")] holds exactly of the strings whose last character
    is [=]. *)
Lemma endsWith_pad (s : string) :
  JS.endsWith s "=" = true <-> exists s', s = s' +:+ "=".
Proof.
  split.
  - induction s as [|a s IH]; [discriminate|].
    destruct s as [|b s].
    + unfold JS.endsWith. simpl. destruct (Ascii.eqb_spec a "="%char); [|discriminate].
      intros _. exists "". subst. reflexivity.
    + rewrite endsWith_cons. intros [s' Hs']%IH. exists (String a s').
      simpl. rewrite Hs'. reflexivity.
  - intros [s' ->]. induction s' as [|a s' IH]; [reflexivity|].
    change (String a s' +:+ "=") with (String a (s' +:+ "=")).
    destruct (s' +:+ "=") as [|b t] eqn:E; [destruct s'; discriminate|].
    rewrite endsWith_cons. exact IH.
Qed.

End Padding.

Section Claims_sig.

Context `{RT : Runtime Cid}.

(** C7. For every list of allowed did-keys, the empty list included, and
    every operation whose [sig] ends with the character [=],
    [assureValidSig] throws [InvalidSignatureError] for that operation.
    Nothing of the runtime enters the result: neither the base64url
    decoder nor the signature check is consulted, so it does not matter
    whether some key would have verified. *)
Theorem C7_padded_sig_rejected (allowedDidKeys : list string)
    (op : CompatibleOpOrTombstone) (body : string) :
  sig op = body +:+ "=" ->
  assureValidSig allowedDidKeys op = Throw (Plc (InvalidSignatureError op))
  /\ (forall k, k ∈ allowedDidKeys -> verifies k op = true ->
       assureValidSig allowedDidKeys op <> Ok k).
Proof.
  intros Hsig.
  assert (JS.endsWith (sig op) "=" = true) as Hpad
    by (apply endsWith_pad; eauto).
  assert (assureValidSig allowedDidKeys op = Throw (Plc (InvalidSignatureError op)))
    as Hthrow by (unfold assureValidSig; rewrite Hpad; reflexivity).
  split; [assumption|]. intros k _ _. rewrite Hthrow. discriminate.
Qed.

End Claims_sig.

(** ** Normalisation of legacy operations *)

Section Prefixes.

Lemma append_cons (a : ascii) (s r : string) :
  String a s +:+ r = String a (s +:+ r).
Proof. reflexivity. Qed.

Lemma startsWith_prefix (s p : string) :
  JS.startsWith s p = true <-> exists r, s = p +:+ r.
Proof.
  unfold JS.startsWith. revert s. induction p as [|a p IH]; intros s.
  - split; [intros _; exists s; reflexivity|]. intros _. destruct s; reflexivity.
  - destruct s as [|b s]; [split; [discriminate|intros [r Hr]; discriminate]|].
    cbn [String.prefix]. destruct (ascii_dec a b) as [->|Hne].
    + rewrite IH. split; intros [r Hr]; exists r;
        rewrite append_cons in *; congruence.
    + split; [discriminate|]. intros [r Hr]. rewrite append_cons in Hr.
      congruence.
Qed.

Lemma startsWith_not_prefix (s p : string) :
  JS.startsWith s p = false <-> forall r, s <> p +:+ r.
Proof.
  rewrite <- not_true_iff_false, startsWith_prefix. split.
  - intros H r Hr. apply H. eauto.
  - intros H [r Hr]. exact (H r Hr).
Qed.

Lemma replace_cons (pat : string) (b : ascii) (s : string) :
  String.prefix pat (String b s) = false ->
  JS.replace (String b s) pat "" = String b (JS.replace s pat "").
Proof.
  intros Hpre. unfold JS.replace. cbn [String.index]. rewrite Hpre.
  destruct (String.index 0 pat s) as [m|]; [|reflexivity].
  cbn [String.substring String.length Nat.add Nat.sub String.append].
  reflexivity.
Qed.

(** [replace] with an empty replacement removes the first occurrence of
    the pattern and nothing else. *)
Lemma replace_remove_first (pat s : string) :
  pat <> "" -> JS.replace s pat "" = remove_first pat s.
Proof.
  intros Hpat. induction s as [|b s IH].
  - destruct pat; [congruence|reflexivity].
  - cbn [remove_first]. destruct (String.prefix pat (String b s)) eqn:Hpre.
    + unfold JS.replace. cbn [String.index]. rewrite Hpre. reflexivity.
    + rewrite replace_cons by assumption. rewrite IH. reflexivity.
Qed.

End Prefixes.

Section Claims_normalize.

Context `{RT : Runtime Cid}.

(** C8. [normalizeOp] maps every v1 [create] operation to a
    [plc_operation] with [verificationMethods = {atproto: signingKey}],
    [rotationKeys = [recoveryKey, signingKey]] in that order,
    [alsoKnownAs = [ensureAtprotoPrefix(handle)]],
    [services.atproto_pds = {type: AtprotoPersonalDataServer, endpoint:
    ensureHttpPrefix(service)}], and [prev] and [sig] unchanged.
    [ensureHttpPrefix] returns its argument unchanged if it starts with
    [http://] or [https://] and prepends [https://] otherwise.
    [ensureAtprotoPrefix] returns its argument unchanged if it starts
    with [at://]; otherwise it removes the first occurrence of [http://],
    then the first occurrence of [https://], wherever they are in the
    string, and prepends [at://]. *)
Theorem C8_normalize_create (c : CreateOpV1) :
  normalizeOp (Create c) =
    {| verificationMethods := {[ "atproto" := signingKey c ]};
       rotationKeys := [recoveryKey c; signingKey c];
       alsoKnownAs := [ensureAtprotoPrefix (handle c)];
       services :=
         {[ "atproto_pds" :=
              {| svc_type := "AtprotoPersonalDataServer";
                 endpoint := ensureHttpPrefix (service c) |} ]};
       op_prev := prev (Create c);
       op_sig := sig (Create c) |}
  /\ (forall r, ensureHttpPrefix ("http://" +:+ r) = "http://" +:+ r)
  /\ (forall r, ensureHttpPrefix ("https://" +:+ r) = "https://" +:+ r)
  /\ (forall s,
        (forall r, s <> "http://" +:+ r) -> (forall r, s <> "https://" +:+ r) ->
        ensureHttpPrefix s = "https://" +:+ s)
  /\ (forall r, ensureAtprotoPrefix ("at://" +:+ r) = "at://" +:+ r)
  /\ (forall s,
        (forall r, s <> "at://" +:+ r) ->
        ensureAtprotoPrefix s =
          "at://" +:+ remove_first "https://" (remove_first "http://" s)).
Proof.
  split_and!.
  - reflexivity.
  - intros r. unfold ensureHttpPrefix.
    rewrite (proj2 (startsWith_prefix _ "http://")) by eauto. reflexivity.
  - intros r. unfold ensureHttpPrefix.
    rewrite (proj2 (startsWith_prefix _ "https://")) by eauto.
    rewrite orb_true_r. reflexivity.
  - intros s H1%startsWith_not_prefix H2%startsWith_not_prefix.
    unfold ensureHttpPrefix. rewrite H1, H2. reflexivity.
  - intros r. unfold ensureAtprotoPrefix.
    rewrite (proj2 (startsWith_prefix _ "at://")) by eauto. reflexivity.
  - intros s H%startsWith_not_prefix. unfold ensureAtprotoPrefix. rewrite H.
    rewrite !replace_remove_first by discriminate. reflexivity.
Qed.

End Claims_normalize.

(** ** Locating the referenced ancestor *)

Section Claims_prev.

Context `{RT : Runtime Cid}.

Lemma nonempty_length (ops : list IndexedOperation) :
  ops <> [] -> (length ops =? 0)%nat = false.
Proof. destruct ops; [congruence|reflexivity]. Qed.

Lemma step_falsy_prev (did : string) (ops : list IndexedOperation)
    (proposed : IndexedOperation) :
  ops <> [] ->
  prev (operation proposed) = None \/ prev (operation proposed) = Some "" ->
  assureValidNextOp did ops proposed = Throw (Plc MisorderedOperationError).
Proof.
  intros Hne Hprev. unfold assureValidNextOp.
  rewrite (nonempty_length _ Hne). destruct Hprev as [-> | ->]; reflexivity.
Qed.

Lemma step_unparseable_prev (did : string) (ops : list IndexedOperation)
    (proposed : IndexedOperation) (s : string) :
  ops <> [] -> prev (operation proposed) = Some s -> s <> "" ->
  CID_fromString s = None ->
  assureValidNextOp did ops proposed = Throw (CidSyntaxError s).
Proof.
  intros Hne Hprev Hs Hc. unfold assureValidNextOp.
  rewrite (nonempty_length _ Hne), Hprev. unfold parsePrev.
  destruct s; [congruence|]. cbn [JS.truthy]. rewrite Hc. reflexivity.
Qed.

Lemma step_unmatched_prev (did : string) (ops : list IndexedOperation)
    (proposed : IndexedOperation) (s : string) (c : Cid) :
  ops <> [] -> prev (operation proposed) = Some s ->
  CID_fromString s = Some c ->
  (forall op, op ∈ ops -> cid op <> CID_toString c) ->
  assureValidNextOp did ops proposed = Throw (Plc MisorderedOperationError).
Proof.
  intros Hne Hprev Hc Hnone. unfold assureValidNextOp.
  rewrite (nonempty_length _ Hne), Hprev. unfold parsePrev.
  destruct (JS.truthy s); [|reflexivity]. rewrite Hc. cbn [bind].
  rewrite findIndex_none; [reflexivity|].
  intros op Hop. apply String.eqb_neq. intros Heq. apply (Hnone op Hop). congruence.
Qed.

(** What a successful step returns, in terms of the first matching
    index. *)
Lemma step_located_result (did : string) (ops : list IndexedOperation)
    (proposed : IndexedOperation) (s : string) (c : Cid) (i : nat)
    (head : IndexedOperation) (r : StepResult) :
  prev (operation proposed) = Some s -> s <> "" ->
  CID_fromString s = Some c ->
  refers_to (CID_toString c) ops i head ->
  assureValidNextOp did ops proposed = Ok r ->
  res_ops r = (take (S i) ops ++ [proposed])%list
  /\ res_nullified r = cid <$> drop (S i) ops
  /\ res_prev r = Some c.
Proof.
  intros Hprev Hs Hc Href.
  rewrite (assureValidNextOp_located did ops proposed s c i head) by assumption.
  unfold spec_cases_DEF. destruct (operation head) as [h|t]; [|discriminate].
  destruct (drop (S i) ops) as [|fn rest] eqn:Hdrop.
  - destruct (assureValidSig _ _); [|discriminate]. cbn [bind]. intros [= <-].
    cbn [res_ops res_nullified res_prev]. split_and!; [|reflexivity..].
    rewrite <- (take_drop (S i) ops) at 1. rewrite Hdrop, app_nil_r. reflexivity.
  - destruct (assureValidSig _ (operation fn)); [|discriminate]. cbn [bind].
    destruct (assureValidSig _ (operation proposed)); [|discriminate]. cbn [bind].
    destruct (JS.gt _ _); [discriminate|]. intros [= <-].
    split_and!; reflexivity.
Qed.

(** C10. For a non-empty confirmed history and a proposed operation
    whose [prev] is a non-empty string: if the string does not parse as a
    CID, the step throws the syntax error of [CID.fromString], which is
    none of the five typed validation errors; the
    [MisorderedOperationError] for a [prev] that matches no confirmed
    operation is reached when the string parses, because the code parses
    [prev] before it searches the history. *)
Theorem C10_prev_parsed_before_search (did : string)
    (ops : list IndexedOperation) (proposed : IndexedOperation) (s : string) :
  ops <> [] -> prev (operation proposed) = Some s -> s <> "" ->
  (CID_fromString s = None ->
     assureValidNextOp did ops proposed = Throw (CidSyntaxError s)
     /\ forall e, assureValidNextOp did ops proposed <> Throw (Plc e))
  /\ (forall c, CID_fromString s = Some c ->
        (forall op, op ∈ ops -> cid op <> CID_toString c) ->
        assureValidNextOp did ops proposed = Throw (Plc MisorderedOperationError)).
Proof.
  intros Hne Hprev Hs. split.
  - intros Hc. rewrite (step_unparseable_prev did ops proposed s) by assumption.
    split; [reflexivity|discriminate].
  - intros c Hc Hnone. eapply step_unmatched_prev; eassumption.
Qed.

(** C9, as the code has it. For every non-empty confirmed history, the
    step throws [MisorderedOperationError] when the proposed operation's
    [prev] is [null] (or the empty string), and also when [prev] parses
    as a CID and no confirmed operation has a [cid] equal to the string
    form of that CID; when a match exists the first matching index [i]
    is used: a successful step keeps [ops[0..=i]] and reports
    [ops[i+1..]] as nullified. *)
Theorem C9_prev_lookup (did : string) (ops : list IndexedOperation)
    (proposed : IndexedOperation) :
  ops <> [] ->
  (prev (operation proposed) = None \/ prev (operation proposed) = Some "" ->
     assureValidNextOp did ops proposed = Throw (Plc MisorderedOperationError))
  /\ (forall s c,
        prev (operation proposed) = Some s -> CID_fromString s = Some c ->
        (forall op, op ∈ ops -> cid op <> CID_toString c) ->
        assureValidNextOp did ops proposed = Throw (Plc MisorderedOperationError))
  /\ (forall s c i head r,
        prev (operation proposed) = Some s -> s <> "" ->
        CID_fromString s = Some c ->
        refers_to (CID_toString c) ops i head ->
        assureValidNextOp did ops proposed = Ok r ->
        res_ops r = (take (S i) ops ++ [proposed])%list
        /\ res_nullified r = cid <$> drop (S i) ops
        /\ res_prev r = Some c).
Proof.
  intros Hne. split_and!.
  - apply step_falsy_prev. assumption.
  - intros s c. apply step_unmatched_prev. assumption.
  - intros s c i head r. apply step_located_result.
Qed.

End Claims_prev.

(** ** Inversion of a successful step, and the log driver *)

Section Driver.

Context `{RT : Runtime Cid}.

Lemma findIndex_found (c : string) (ops : list IndexedOperation) :
  (JS.findIndex (fun op => String.eqb c (cid op)) ops <? 0) = false ->
  exists i head, refers_to c ops i head.
Proof.
  rewrite findIndex_list_find.
  destruct (list_find _ ops) as [[i head]|] eqn:Hfind; [|discriminate].
  intros _. apply list_find_Some in Hfind as (Hi & Hc & Hfirst).
  exists i, head. split_and!; [assumption|symmetry; apply String.eqb_eq, Hc|].
  intros j y Hj Hlt Heq. apply (Hfirst j y Hj Hlt). apply String.eqb_eq. congruence.
Qed.

(** A step on a non-empty history succeeds only past every gate of
    Cases B to D. *)
Lemma step_Ok_inv (did : string) (ops : list IndexedOperation)
    (proposed : IndexedOperation) (r : StepResult) :
  ops <> [] -> assureValidNextOp did ops proposed = Ok r ->
  exists s c i head h,
    prev (operation proposed) = Some s /\ s <> ""
    /\ CID_fromString s = Some c
    /\ refers_to (CID_toString c) ops i head
    /\ operation head = Compatible h.
Proof.
  intros Hne Hok. pose proof Hok as Hok'. unfold assureValidNextOp in Hok.
  rewrite (nonempty_length _ Hne) in Hok.
  destruct (prev (operation proposed)) as [s|] eqn:Hprev; [|discriminate].
  unfold parsePrev in Hok. destruct s as [|a s]; [discriminate|].
  cbn [JS.truthy] in Hok.
  destruct (CID_fromString (String a s)) as [c|] eqn:Hc; [|discriminate].
  cbn [bind] in Hok.
  destruct (JS.findIndex _ ops <? 0) eqn:Hfind; [discriminate|].
  destruct (findIndex_found _ _ Hfind) as (i & head & Href).
  rewrite (assureValidNextOp_located did ops proposed (String a s) c i head)
    in Hok' by (assumption || discriminate).
  unfold spec_cases_DEF in Hok'.
  destruct (operation head) as [h|t] eqn:Hhead; [|discriminate].
  exists (String a s), c, i, head, h.
  split; [reflexivity|]. split; [discriminate|]. split; [assumption|].
  split; assumption.
Qed.

Lemma validateLoop_app (did : string) (history log rest : list IndexedOperation) :
  validateLoop did history (log ++ rest) =
    let* history' := validateLoop did history log in
    validateLoop did history' rest.
Proof.
  revert history. induction log as [|op log IH]; intros history; [reflexivity|].
  simpl. destruct (assureValidNextOp did history op); [|reflexivity].
  cbn [bind]. apply IH.
Qed.

(** The loop of the driver is the left fold of the specification. *)
Lemma validateLoop_fold (did : string) (history ops : list IndexedOperation) :
  validateLoop did history ops =
    fold_left
      (fun acc op =>
         let* history := acc in
         let* r := assureValidNextOp did history op in
         Ok (res_ops r))
      ops (Ok history).
Proof.
  revert history. induction ops as [|op ops IH]; intros history; [reflexivity|].
  simpl. destruct (assureValidNextOp did history op) as [r|e]; cbn [bind].
  - apply IH.
  - clear IH. induction ops as [|op' ops IH]; [reflexivity|]. exact IH.
Qed.

(** On a history that ends in a tombstone, a step succeeds only by
    displacing that tombstone. *)
Lemma tombstone_only_displaced (did : string) (ops : list IndexedOperation)
    (proposed t : IndexedOperation) (r : StepResult) :
  last ops = Some t -> is_tombstone (operation t) = true ->
  assureValidNextOp did ops proposed = Ok r ->
  cid t ∈ res_nullified r.
Proof.
  intros Hlast Htomb Hok.
  assert (ops <> []) as Hne by (intros ->; discriminate Hlast).
  destruct (step_Ok_inv did ops proposed r Hne Hok)
    as (s & c & i & head & h & Hprev & Hs & Hc & Href & Hhead).
  destruct (step_located_result did ops proposed s c i head r)
    as (_ & -> & _); try assumption.
  apply list_elem_of_fmap. exists t. split; [reflexivity|].
  rewrite last_lookup in Hlast. destruct Href as (Hi & _).
  pose proof (lookup_lt_Some _ _ _ Hi) as Hlt.
  destruct (decide (i = pred (length ops))) as [->|Hneq].
  - rewrite Hi in Hlast. injection Hlast as ->. rewrite Hhead in Htomb. discriminate.
  - apply list_elem_of_lookup. exists (pred (length ops) - S i)%nat.
    rewrite lookup_drop. rewrite <- Hlast. f_equal. lia.
Qed.

End Driver.

Section Claims_tombstone.

Context `{RT : Runtime Cid}.

Lemma step_ends (did : string) (ops : list IndexedOperation)
    (proposed : IndexedOperation) (r : StepResult) :
  assureValidNextOp did ops proposed = Ok r -> last (res_ops r) = Some proposed.
Proof.
  intros Hok. destruct ops as [|g0 ops'] eqn:Hops.
  - unfold assureValidNextOp in Hok. cbn [length Nat.eqb] in Hok.
    destruct (assureValidCreationOp did (operation proposed)); [|discriminate].
    cbn [bind] in Hok. injection Hok as <-. reflexivity.
  - rewrite <- Hops in *.
    assert (ops <> []) as Hne by (rewrite Hops; discriminate).
    destruct (step_Ok_inv did ops proposed r Hne Hok)
      as (s & c & i & head & h & Hprev & Hs & Hc & Href & Hhead).
    destruct (step_located_result did ops proposed s c i head r)
      as (-> & _ & _); try assumption.
    apply last_snoc.
Qed.

Lemma validateLoop_ends (did : string)
    (history log final : list IndexedOperation) (op : IndexedOperation) :
  validateLoop did history log = Ok final -> last log = Some op ->
  last final = Some op.
Proof.
  intros Hok Hlast. apply last_Some in Hlast as [front ->].
  rewrite validateLoop_app in Hok.
  destruct (validateLoop did history front) as [mid|e]; [|discriminate].
  cbn [bind validateLoop] in Hok.
  destruct (assureValidNextOp did mid op) as [r|e] eqn:Hstep; [|discriminate].
  cbn [bind] in Hok. injection Hok as <-. eapply step_ends, Hstep.
Qed.

(** C3, as the code has it. For every confirmed history and proposed
    operation such that the confirmed operation referenced by
    [proposed.prev] (the head of the retained prefix) is a
    [plc_tombstone], the step throws [MisorderedOperationError];
    consequently, whenever a log has been validated up to that history,
    no extension of the log by that operation validates, whatever
    follows it.  On a history that ends in a tombstone a step succeeds
    only by nullifying that tombstone; so an extension of a log that
    ends in a tombstone validates only if the log itself validates to a
    history ending in that tombstone and the first operation of the
    extension nullifies it. *)
Theorem C3_tombstone_is_final (did : string) :
  (forall (ops : list IndexedOperation) (proposed : IndexedOperation)
          (s : string) (c : Cid) (i : nat) (head : IndexedOperation)
          (t : Tombstone),
     prev (operation proposed) = Some s -> s <> "" ->
     CID_fromString s = Some c ->
     refers_to (CID_toString c) ops i head ->
     operation head = PlcTombstone t ->
     assureValidNextOp did ops proposed = Throw (Plc MisorderedOperationError)
     /\ (forall log rest,
           validateLoop did [] log = Ok ops ->
           validateOperationLog did (log ++ proposed :: rest)
             = Throw (Plc MisorderedOperationError)))
  /\ (forall (history : list IndexedOperation) (t next : IndexedOperation)
             (r : StepResult),
        last history = Some t -> is_tombstone (operation t) = true ->
        assureValidNextOp did history next = Ok r ->
        cid t ∈ res_nullified r)
  /\ (forall (log rest : list IndexedOperation) (t next : IndexedOperation),
        last log = Some t -> is_tombstone (operation t) = true ->
        is_Ok (validateOperationLog did (log ++ next :: rest)) ->
        exists history r,
          validateLoop did [] log = Ok history
          /\ last history = Some t
          /\ assureValidNextOp did history next = Ok r
          /\ cid t ∈ res_nullified r).
Proof.
  split_and!.
  - intros ops proposed s c i head t Hprev Hs Hc Href Hhead.
    assert (assureValidNextOp did ops proposed
            = Throw (Plc MisorderedOperationError)) as Hstep.
    { rewrite (assureValidNextOp_located did ops proposed s c i head)
        by assumption.
      unfold spec_cases_DEF. rewrite Hhead. reflexivity. }
    split; [assumption|]. intros log rest Hlog.
    unfold validateOperationLog. rewrite validateLoop_app, Hlog. cbn [bind].
    simpl. rewrite Hstep. reflexivity.
  - intros history t next r Hlast Htomb Hok.
    eapply tombstone_only_displaced; eassumption.
  - intros log rest t next Hlast Htomb [result Hok].
    unfold validateOperationLog in Hok. rewrite validateLoop_app in Hok.
    destruct (validateLoop did [] log) as [history|e] eqn:Hlog; [|discriminate].
    cbn [bind validateLoop] in Hok.
    destruct (assureValidNextOp did history next) as [r|e] eqn:Hstep;
      [|discriminate].
    pose proof (validateLoop_ends did [] log history t Hlog Hlast) as Hends.
    exists history, r. split_and!; try reflexivity; try assumption.
    eapply tombstone_only_displaced; eassumption.
Qed.

End Claims_tombstone.

(** ** Nullification *)

Section Claims_nullification.

Context `{RT : Runtime Cid}.

(** The step on a fork: the ancestor at index [i] is not the last
    confirmed operation, so [ops[i+1]] is the first nullified one. *)
Lemma step_fork (did : string) (ops : list IndexedOperation)
    (proposed : IndexedOperation) (s : string) (c : Cid) (i : nat)
    (head : IndexedOperation) (h : CompatibleOp)
    (first_nullified : IndexedOperation) :
  prev (operation proposed) = Some s -> s <> "" ->
  CID_fromString s = Some c ->
  refers_to (CID_toString c) ops i head ->
  operation head = Compatible h ->
  ops !! S i = Some first_nullified ->
  assureValidNextOp did ops proposed =
    let allowed_keys := rotationKeys (normalizeOp h) in
    let* disputed_signer :=
      assureValidSig allowed_keys (operation first_nullified) in
    let* _ :=
      assureValidSig
        (JS.slice allowed_keys 0 (Some (JS.indexOf allowed_keys disputed_signer)))
        (operation proposed) in
    let delta :=
      JS.sub (Date_parse (createdAt proposed))
        (Date_parse (createdAt first_nullified)) in
    if JS.gt delta (72 * 3600 * 1000) then Throw (Plc (LateRecoveryError delta))
    else
      Ok {| res_nullified := cid <$> drop (S i) ops;
            res_prev := Some c;
            res_ops := take (S i) ops ++ [proposed] |}.
Proof.
  intros Hprev Hs Hc Href Hhead Hnext.
  rewrite (assureValidNextOp_located did ops proposed s c i head) by assumption.
  unfold spec_cases_DEF. rewrite Hhead, (drop_S _ _ _ Hnext). cbv zeta.
  destruct (assureValidSig _ (operation first_nullified)) as [signer|e] eqn:Hsig;
    [|reflexivity].
  cbn [bind].
  destruct (indexOf_elem _ _ (assureValidSig_elem _ _ _ Hsig)) as (n & -> & ->).
  rewrite slice_take. reflexivity.
Qed.

(** C1. For a non-empty confirmed history and a proposed operation
    whose [prev] matches [confirmed[i].cid] with [i < length - 1], the
    step first verifies the signature of [first_nullified = confirmed[i+1]]
    under the rotation keys of the head to find the disputed signer; it
    takes [power_index] as the first index of that did-key in the
    rotation-key list (the lowest index among duplicates); it accepts
    the proposed operation only if a key of [allowed_keys[0..power_index)]
    verifies its signature; and if that prefix is empty or none of its
    keys verifies, it throws [InvalidSignatureError] for the proposed
    operation. *)
Theorem C1_fork_needs_more_powerful_key (did : string)
    (ops : list IndexedOperation) (proposed : IndexedOperation) (s : string)
    (c : Cid) (i : nat) (head : IndexedOperation) (h : CompatibleOp)
    (first_nullified : IndexedOperation) :
  prev (operation proposed) = Some s -> s <> "" ->
  CID_fromString s = Some c ->
  refers_to (CID_toString c) ops i head ->
  operation head = Compatible h ->
  ops !! S i = Some first_nullified ->
  let allowed_keys := rotationKeys (normalizeOp h) in
  (forall e,
     assureValidSig allowed_keys (operation first_nullified) = Throw e ->
     assureValidNextOp did ops proposed = Throw e)
  /\ (forall disputed_signer,
        assureValidSig allowed_keys (operation first_nullified)
          = Ok disputed_signer ->
        exists power_index : nat,
          JS.indexOf allowed_keys disputed_signer = Z.of_nat power_index
          /\ allowed_keys !! power_index = Some disputed_signer
          /\ (forall j k, allowed_keys !! j = Some k -> (j < power_index)%nat ->
                k <> disputed_signer)
          /\ (forall r,
                assureValidNextOp did ops proposed = Ok r ->
                exists j k,
                  (j < power_index)%nat /\ allowed_keys !! j = Some k
                  /\ verifies k (operation proposed) = true)
          /\ ((forall j k, (j < power_index)%nat -> allowed_keys !! j = Some k ->
                 verifies k (operation proposed) = false) ->
              assureValidNextOp did ops proposed
                = Throw (Plc (InvalidSignatureError (operation proposed))))
          /\ (power_index = 0%nat ->
              assureValidNextOp did ops proposed
                = Throw (Plc (InvalidSignatureError (operation proposed))))).
Proof.
  intros Hprev Hs Hc Href Hhead Hnext allowed_keys.
  rewrite (step_fork did ops proposed s c i head h first_nullified) by assumption.
  cbv zeta. fold allowed_keys. split.
  - intros e ->. reflexivity.
  - intros signer Hsig. rewrite Hsig. cbn [bind].
    destruct (indexOf_elem _ _ (assureValidSig_elem _ _ _ Hsig))
      as (n & (Hn & _ & Hfirst)%list_find_Some & Hidx).
    exists n. rewrite Hidx, slice_take.
    assert ((forall j k, (j < n)%nat -> allowed_keys !! j = Some k ->
               verifies k (operation proposed) = false) ->
            assureValidSig (take n allowed_keys) (operation proposed)
              = Throw (Plc (InvalidSignatureError (operation proposed))))
      as Hnone.
    { intros Hall. apply assureValidSig_none. intros k Hk.
      apply list_elem_of_lookup in Hk as [j Hj].
      apply lookup_take_Some in Hj as [Hj Hlt]. exact (Hall j k Hlt Hj). }
    split_and!; [reflexivity|assumption|exact Hfirst| | |].
    + intros r Hok.
      destruct (assureValidSig (take n allowed_keys) (operation proposed))
        as [k|e] eqn:Hmore; [|discriminate].
      apply assureValidSig_Ok in Hmore as (_ & j & Hj & Hk & _).
      apply lookup_take_Some in Hj as [Hj Hlt]. exists j, k. auto.
    + intros Hall. rewrite (Hnone Hall). reflexivity.
    + intros ->. rewrite Hnone; [reflexivity|]. intros j k Hlt. lia.
Qed.

(** C2. Whenever the step performs a nullification (both signature
    checks of the fork pass), it throws [LateRecoveryError(delta)] if and
    only if [delta = Date.parse(proposed.createdAt) -
    Date.parse(first_nullified.createdAt)] is strictly greater than
    [72 * 3600 * 1000] milliseconds, [first_nullified] being the first
    displaced operation [confirmed[i+1]]; otherwise it succeeds.  A
    delta of exactly 72 hours is accepted, and so is any negative
    delta.  The subtraction is that of doubles: [delta] is the double
    nearest to the difference of the two time values, which is the
    difference itself up to 2^53 in magnitude, and rounding never moves
    it across the window. *)
Theorem C2_recovery_window (did : string) (ops : list IndexedOperation)
    (proposed : IndexedOperation) (s : string) (c : Cid) (i : nat)
    (head : IndexedOperation) (h : CompatibleOp)
    (first_nullified : IndexedOperation) (disputed_signer k : string) :
  prev (operation proposed) = Some s -> s <> "" ->
  CID_fromString s = Some c ->
  refers_to (CID_toString c) ops i head ->
  operation head = Compatible h ->
  ops !! S i = Some first_nullified ->
  let allowed_keys := rotationKeys (normalizeOp h) in
  assureValidSig allowed_keys (operation first_nullified) = Ok disputed_signer ->
  assureValidSig
    (JS.slice allowed_keys 0 (Some (JS.indexOf allowed_keys disputed_signer)))
    (operation proposed) = Ok k ->
  let delta :=
    JS.sub (Date_parse (createdAt proposed))
      (Date_parse (createdAt first_nullified)) in
  (forall d,
     assureValidNextOp did ops proposed = Throw (Plc (LateRecoveryError d))
     <-> d = delta /\ JS.gt delta (72 * 3600 * 1000) = true)
  /\ (JS.gt delta (72 * 3600 * 1000) = false ->
      assureValidNextOp did ops proposed =
        Ok {| res_nullified := cid <$> drop (S i) ops;
              res_prev := Some c;
              res_ops := take (S i) ops ++ [proposed] |})
  /\ (forall tp tn,
        Date_parse (createdAt proposed) = JS.Num tp ->
        Date_parse (createdAt first_nullified) = JS.Num tn ->
        delta = JS.Num (JS.round_binary64 (tp - tn))
        /\ (Z.abs (tp - tn) <= 2 ^ 53 -> delta = JS.Num (tp - tn))
        /\ (72 * 3600 * 1000 < tp - tn ->
            assureValidNextOp did ops proposed
              = Throw (Plc (LateRecoveryError delta)))
        /\ (tp - tn <= 72 * 3600 * 1000 ->
            is_Ok (assureValidNextOp did ops proposed))).
Proof.
  intros Hprev Hs Hc Href Hhead Hnext allowed_keys Hsig Hmore delta.
  rewrite (step_fork did ops proposed s c i head h first_nullified) by assumption.
  cbv zeta. fold allowed_keys. rewrite Hsig. cbn [bind]. rewrite Hmore.
  cbn [bind]. fold delta. split_and!.
  - intros d. destruct (JS.gt delta (72 * 3600 * 1000)); split.
    + intros [= <-]. auto.
    + intros [-> _]. reflexivity.
    + discriminate.
    + intros [_ ?]. discriminate.
  - intros ->. reflexivity.
  - intros tp tn Hp Hn.
    assert (JS.gt delta (72 * 3600 * 1000) = (72 * 3600 * 1000 <? tp - tn))
      as Hgt.
    { unfold delta. rewrite Hp, Hn. apply gt_sub. split; [lia|reflexivity]. }
    rewrite Hgt. split_and!.
    + unfold delta. rewrite Hp, Hn. reflexivity.
    + intros Hexact. unfold delta. rewrite Hp, Hn. cbn [JS.sub].
      rewrite round_binary64_exact by assumption. reflexivity.
    + intros Hlate. apply Z.ltb_lt in Hlate. rewrite Hlate. reflexivity.
    + intros Hin. apply Z.ltb_ge in Hin. rewrite Hin. eexists. reflexivity.
Qed.

End Claims_nullification.

(** ** Genesis *)

Section Claims_genesis.

Context `{RT : Runtime Cid}.

Lemma assureValidCreationOp_Ok (did : string) (op : CompatibleOpOrTombstone)
    (d : DocumentData) :
  assureValidCreationOp did op = Ok d ->
  exists g, op = Compatible g /\ prev op = None /\ didForCreateOp g = did.
Proof.
  unfold assureValidCreationOp. destruct op as [g|t]; [|discriminate].
  destruct (assureValidSig _ _); [|discriminate]. cbn [bind].
  destruct (String.eqb_spec (didForCreateOp g) did) as [Hdid|Hdid];
    [|discriminate].
  cbn [negb]. destruct (prev g) eqn:Hprev; [discriminate|].
  intros _. exists g. auto.
Qed.

Lemma substring_prefix (n : nat) (s : string) :
  exists rest,
    s = String.substring 0 n s +:+ rest
    /\ String.length (String.substring 0 n s) = Nat.min n (String.length s).
Proof.
  revert n. induction s as [|a s IH]; intros n.
  - exists "". destruct n; split; reflexivity.
  - destruct n as [|n].
    + exists (String a s). split; reflexivity.
    + destruct (IH n) as (rest & Hs & Hlen). exists rest.
      cbn [String.substring String.length Nat.min]. rewrite append_cons.
      split; [f_equal; exact Hs|f_equal; exact Hlen].
Qed.

(** C4, as the code has it. [didForCreateOp] returns [did:plc:] followed
    by the first 24 characters of the base32 text of the SHA-256 digest
    of the CBOR encoding of the genesis operation, the object that is
    encoded having its [sig] field.  On the empty history the step
    first refuses a tombstone ([MisorderedOperationError]), then checks
    the signature under the operation's own rotation keys and lets the
    error of that check through, whatever the DID; only for a genesis
    that has passed both does it throw [GenesisHashError] carrying the
    derived DID whenever the derived DID differs from the DID the log is
    indexed under.  With a different DID the step never succeeds. *)
Theorem C4_genesis_binding (did : string) :
  (forall g : CompatibleOp,
     let hashB32 :=
       toBase32 (toSha256 (cbor_encode (VObject (fields_of_op g)))) in
     (exists truncated rest,
        hashB32 = truncated +:+ rest
        /\ String.length truncated = Nat.min 24 (String.length hashB32)
        /\ didForCreateOp g = "did:plc:" +:+ truncated)
     /\ ("sig", VString (sig g)) ∈ fields_of_op g)
  /\ (forall (proposed : IndexedOperation) (g : CompatibleOp) (k : string),
        operation proposed = Compatible g ->
        assureValidSig (rotationKeys (normalizeOp g)) g = Ok k ->
        didForCreateOp g <> did ->
        assureValidNextOp did [] proposed
          = Throw (Plc (GenesisHashError (didForCreateOp g))))
  /\ (forall (proposed : IndexedOperation) (g : CompatibleOp) (e : Exception),
        operation proposed = Compatible g ->
        assureValidSig (rotationKeys (normalizeOp g)) g = Throw e ->
        assureValidNextOp did [] proposed = Throw e)
  /\ (forall (proposed : IndexedOperation) (t : Tombstone),
        operation proposed = PlcTombstone t ->
        assureValidNextOp did [] proposed = Throw (Plc MisorderedOperationError))
  /\ (forall (proposed : IndexedOperation) (g : CompatibleOp),
        operation proposed = Compatible g ->
        didForCreateOp g <> did ->
        ~ is_Ok (assureValidNextOp did [] proposed)).
Proof.
  split_and!.
  - intros g hashB32. split.
    + destruct (substring_prefix 24 hashB32) as (rest & Hs & Hlen).
      exists (String.substring 0 24 hashB32), rest. split_and!; try assumption.
      reflexivity.
    + destruct g as [o|cr]; simpl; repeat (try (left; fail); right).
  - intros proposed g k Hop Hsig Hdid.
    unfold assureValidNextOp, assureValidCreationOp.
    cbn [length Nat.eqb]. rewrite Hop, Hsig. cbn [bind].
    destruct (String.eqb_spec (didForCreateOp g) did); [congruence|reflexivity].
  - intros proposed g e Hop Hsig.
    unfold assureValidNextOp, assureValidCreationOp.
    cbn [length Nat.eqb]. rewrite Hop, Hsig. reflexivity.
  - intros proposed t Hop.
    unfold assureValidNextOp, assureValidCreationOp.
    cbn [length Nat.eqb]. rewrite Hop. reflexivity.
  - intros proposed g Hop Hdid [r Hok].
    unfold assureValidNextOp in Hok. cbn [length Nat.eqb] in Hok.
    destruct (assureValidCreationOp did (operation proposed)) as [d|e] eqn:Hcre;
      [|discriminate].
    apply assureValidCreationOp_Ok in Hcre as (g' & Hg' & _ & Hd).
    rewrite Hop in Hg'. injection Hg' as <-. contradiction.
Qed.

End Claims_genesis.

(** ** Chain continuity *)

Section Claims_chain.

Context `{RT : Runtime Cid}.

Lemma linked_singleton (op : IndexedOperation) :
  prev (operation op) = None -> linked [op].
Proof.
  intros Hprev. split.
  - intros g [= <-]. assumption.
  - intros i a b _ Hb. destruct i; discriminate.
Qed.

Lemma linked_fork (history : list IndexedOperation) (i : nat)
    (head proposed : IndexedOperation) :
  linked history -> history !! i = Some head ->
  prev (operation proposed) = Some (cid head) ->
  linked (take (S i) history ++ [proposed]).
Proof.
  intros [Hfirst Hnext] Hi Hprev.
  pose proof (lookup_lt_Some _ _ _ Hi) as Hlt.
  assert (length (take (S i) history) = S i) as Hlen
    by (rewrite length_take; lia).
  split.
  - intros g Hg. rewrite lookup_app_l in Hg by lia.
    rewrite lookup_take_lt in Hg by lia. auto.
  - intros j a b Ha Hb.
    destruct (decide (S j < S i)%nat) as [Hin|Hout].
    + rewrite lookup_app_l in Ha, Hb by lia.
      rewrite lookup_take_lt in Ha, Hb by lia. eauto.
    + destruct (decide (j = i)) as [->|Hneq].
      * rewrite lookup_app_l in Ha by lia. rewrite lookup_take_lt in Ha by lia.
        rewrite lookup_app_r in Hb by lia. rewrite Hlen, Nat.sub_diag in Hb.
        injection Hb as <-. congruence.
      * rewrite lookup_app_r in Hb by lia. rewrite Hlen in Hb.
        destruct (S j - S i)%nat as [|m] eqn:Hm; [lia|discriminate].
Qed.

(** A successful step keeps the history linked, when CID strings are
    canonical. *)
Lemma step_linked (did : string) (history : list IndexedOperation)
    (proposed : IndexedOperation) (r : StepResult) :
  canonical_cid_strings ->
  linked history -> assureValidNextOp did history proposed = Ok r ->
  linked (res_ops r).
Proof.
  intros Hcanon Hlinked Hok. destruct history as [|g0 history'] eqn:Hhist.
  - unfold assureValidNextOp in Hok. cbn [length Nat.eqb] in Hok.
    destruct (assureValidCreationOp did (operation proposed)) as [d|e] eqn:Hcre;
      [|discriminate].
    cbn [bind] in Hok. injection Hok as <-.
    apply assureValidCreationOp_Ok in Hcre as (g & _ & Hprev & _).
    apply linked_singleton. assumption.
  - rewrite <- Hhist in *.
    assert (history <> []) as Hne by (rewrite Hhist; discriminate).
    destruct (step_Ok_inv did history proposed r Hne Hok)
      as (s & c & i & head & h & Hprev & Hs & Hc & Href & Hhead).
    destruct (step_located_result did history proposed s c i head r)
      as (-> & _ & _); try assumption.
    destruct Href as (Hi & Hcid & _).
    apply (linked_fork history i head proposed); [assumption..|].
    rewrite Hprev, Hcid, (Hcanon s c Hc). reflexivity.
Qed.

Lemma validateLoop_linked (did : string) (history log final : list IndexedOperation) :
  canonical_cid_strings ->
  linked history -> validateLoop did history log = Ok final -> linked final.
Proof.
  intros Hcanon. revert history. induction log as [|op log IH]; intros history Hl Hok.
  - injection Hok as <-. assumption.
  - simpl in Hok.
    destruct (assureValidNextOp did history op) as [r|e] eqn:Hstep; [|discriminate].
    cbn [bind] in Hok. apply (IH (res_ops r)); [|assumption].
    eapply step_linked; eassumption.
Qed.

(** C5. Chain continuity. For every step on a confirmed history in
    which [history[0].operation.prev] is [null] and
    [history[i].operation.prev] is [history[i-1].cid] for all [i >= 1],
    the [ops] returned on success have the same property; hence the
    final history of every accepted log is linearly linked by [prev],
    [ops[i].operation.prev] being the string form of [ops[i-1].cid].
    The string form of a CID is taken to be unique, as the step compares
    the re-printed [prev] with the stored [cid]. *)
Theorem C5_chain_continuity :
  canonical_cid_strings ->
  (forall did history proposed r,
     linked history -> assureValidNextOp did history proposed = Ok r ->
     linked (res_ops r))
  /\ (forall did log history,
        validateLoop did [] log = Ok history ->
        linked history
        /\ forall i a b,
             history !! i = Some a -> history !! S i = Some b ->
             prev (operation b) = Some (cid a)).
Proof.
  intros Hcanon. split.
  - intros did history proposed r. apply step_linked. assumption.
  - intros did log history Hok.
    assert (linked history) as Hl.
    { apply (validateLoop_linked did [] log history Hcanon); [|assumption].
      split; intros; discriminate. }
    split; [assumption|]. apply Hl.
Qed.

End Claims_chain.

(** ** The log driver *)

Section Claims_driver.

Context `{RT : Runtime Cid}.

(** C6. [validateOperationLog] folds the step validator left to right
    from the empty history, keeping the [ops] of each result; on
    success it returns [null] exactly when the last operation of the
    final history is a [plc_tombstone], and otherwise the document whose
    [verificationMethods], [rotationKeys], [alsoKnownAs] and [services]
    are those of [normalizeOp] of that last operation and whose [did] is
    the argument. *)
Theorem C6_log_driver (did : string) (ops : list IndexedOperation) :
  validateOperationLog did ops =
    (let* history := fold_step did ops in
     match last history with
     | None => Throw TypeError
     | Some lastOp => Ok (opToData did (operation lastOp))
     end)
  /\ (forall result,
        validateOperationLog did ops = Ok result ->
        exists history lastOp,
          fold_step did ops = Ok history
          /\ last history = Some lastOp
          /\ (result = None <-> is_tombstone (operation lastOp) = true)
          /\ (forall cop,
                operation lastOp = Compatible cop ->
                result =
                  Some {| doc_did := did;
                          doc_verificationMethods :=
                            verificationMethods (normalizeOp cop);
                          doc_rotationKeys := rotationKeys (normalizeOp cop);
                          doc_alsoKnownAs := alsoKnownAs (normalizeOp cop);
                          doc_services := services (normalizeOp cop) |})).
Proof.
  assert (validateOperationLog did ops =
    (let* history := fold_step did ops in
     match last history with
     | None => Throw TypeError
     | Some lastOp => Ok (opToData did (operation lastOp))
     end)) as Heq.
  { unfold validateOperationLog, fold_step. rewrite validateLoop_fold.
    destruct (fold_left _ ops (Ok [])) as [history|e]; [|reflexivity].
    cbn [bind]. rewrite at_last. reflexivity. }
  split; [assumption|]. intros result. rewrite Heq.
  destruct (fold_step did ops) as [history|e]; [|discriminate]. cbn [bind].
  destruct (last history) as [lastOp|] eqn:Hlast; [|discriminate]. intros [= <-].
  exists history, lastOp. split_and!; [reflexivity|assumption| |].
  - destruct (operation lastOp); simpl; split; (reflexivity || discriminate).
  - intros cop ->. reflexivity.
Qed.

End Claims_driver.

(** * The validator at work on concrete logs *)

Section Scenarios.

Import Fixture.

Lemma runtime_canonical : canonical_cid_strings (RT := runtime).
Proof.
  intros s c. cbn [CID_fromString CID_toString runtime]. unfold cid_of_string.
  destruct (_ && _); [|discriminate]. intros [= <-]. reflexivity.
Qed.

Lemma refers_to_G (rest : list IndexedOperation) :
  refers_to "bafyG" (G :: rest) 0 G.
Proof.
  split; [reflexivity|]. split; [reflexivity|]. intros j y _ Hlt. lia.
Qed.

(** S1: a linear extension yields the document of the last operation. *)
Example S1_linear_extension :
  validateOperationLog did [G; A]
  = Ok (opToData did (operation A)).
Proof. vm_compute. reflexivity. Qed.

(** S3: recovery within the window displaces [A]. *)
Example S3_recovery_within_window :
  assureValidNextOp did [G; A] (B "2024-01-03T00:00:00.000Z")
  = Ok {| res_nullified := ["bafyA"];
          res_prev := Some "bafyG";
          res_ops := [G; B "2024-01-03T00:00:00.000Z"] |}.
Proof. vm_compute. reflexivity. Qed.

(** The boundary: exactly 72 hours after [A] is still in the window. *)
Example recovery_at_72h :
  is_Ok (assureValidNextOp did [G; A] (B "2024-01-05T00:00:00.000Z")).
Proof. eexists. vm_compute. reflexivity. Qed.

(** A fork dated before the operation it displaces is accepted. *)
Example recovery_negative_delta :
  is_Ok (assureValidNextOp did [G; A] (B "2023-12-25T00:00:00.000Z")).
Proof. eexists. vm_compute. reflexivity. Qed.

(** S7: a legacy genesis normalises to the v2 shape. *)
Example S7_legacy_genesis :
  rotationKeys (normalizeOp (Create V1)) = [KR; KS]
  /\ alsoKnownAs (normalizeOp (Create V1)) = ["at://alice.example.com"]
  /\ endpoint <$> services (normalizeOp (Create V1)) !! "atproto_pds"
     = Some "https://pds.example.com".
Proof. vm_compute. auto. Qed.

(** The prefix is cut out wherever it first occurs, and both schemes
    are removed when both occur. *)
Example ensureAtprotoPrefix_samples :
  ensureAtprotoPrefix "https://alice.example.com" = "at://alice.example.com"
  /\ ensureAtprotoPrefix "at://alice.example.com" = "at://alice.example.com"
  /\ ensureAtprotoPrefix "xhttp://yhttp://z" = "at://xyhttp://z"
  /\ ensureAtprotoPrefix "http://https://z" = "at://z".
Proof. vm_compute. auto. Qed.

(** C1, scenario S5: [A_R] was signed by the most powerful key, so no
    key can displace it. *)
Lemma C1_witness :
  assureValidNextOp did [G; A_R] B_S
  = Throw (Plc (InvalidSignatureError (operation B_S))).
Proof.
  destruct (C1_fork_needs_more_powerful_key did [G; A_R] B_S "bafyG" "bafyG"
              0%nat G (plc_op [KR; KS] "https://pds.example.com" None KS) A_R)
    as [_ Hsigner];
    [reflexivity|discriminate|reflexivity|apply refers_to_G|reflexivity
    |reflexivity|].
  destruct (Hsigner KR) as (n & Hidx & _ & _ & _ & _ & Hzero);
    [vm_compute; reflexivity|].
  apply Hzero. vm_compute in Hidx. destruct n; [reflexivity|discriminate].
Defined.

(** C2, scenario S4: one millisecond past the window. *)
Lemma C2_witness :
  assureValidNextOp did [G; A] (B "2024-01-05T00:00:00.001Z")
  = Throw (Plc (LateRecoveryError (JS.Num (72 * 3600 * 1000 + 1)))).
Proof.
  destruct (C2_recovery_window did [G; A] (B "2024-01-05T00:00:00.001Z")
              "bafyG" "bafyG" 0%nat G
              (plc_op [KR; KS] "https://pds.example.com" None KS) A KS KR)
    as (_ & _ & Hnum);
    [reflexivity|discriminate|reflexivity|apply refers_to_G|reflexivity
    |reflexivity|vm_compute; reflexivity|vm_compute; reflexivity|].
  destruct (Hnum 1704412800001 1704153600000) as (_ & _ & Hlate & _);
    [vm_compute; reflexivity|vm_compute; reflexivity|].
  rewrite Hlate by reflexivity. vm_compute. reflexivity.
Defined.

(** C3, scenarios S6 and S3: nothing extends a tombstone, and the
    recovery that goes past it nullifies it. *)
Lemma C3_witness :
  (assureValidNextOp did [G; T] (X "bafyT") = Throw (Plc MisorderedOperationError)
   /\ validateOperationLog did ([G; T] ++ [X "bafyT"; A])
      = Throw (Plc MisorderedOperationError))
  /\ exists history r,
       validateLoop did [] [G; T] = Ok history
       /\ last history = Some T
       /\ assureValidNextOp did history (B "2024-01-03T00:00:00.000Z") = Ok r
       /\ cid T ∈ res_nullified r.
Proof.
  destruct (C3_tombstone_is_final did) as (Hnamed & _ & Hforced). split.
  - destruct (Hnamed [G; T] (X "bafyT") "bafyT" "bafyT" 1%nat T
                {| tomb_prev := "bafyG"; tomb_sig := KS |})
      as [Hstep Hlog];
      [reflexivity|discriminate|reflexivity| |reflexivity|].
    + split; [reflexivity|]. split; [reflexivity|].
      intros j y Hy Hlt. destruct j; [|lia]. injection Hy as <-. discriminate.
    + split; [exact Hstep|]. apply Hlog. vm_compute. reflexivity.
  - apply (Hforced [G; T] [] T (B "2024-01-03T00:00:00.000Z"));
      [reflexivity|reflexivity|].
    eexists. vm_compute. reflexivity.
Defined.

(** C4, scenario S2: the log is indexed under another DID. *)
Lemma C4_witness :
  assureValidNextOp "did:plc:aaaaaaaaaaaaaaaaaaaaaaaa" [] G
  = Throw (Plc (GenesisHashError did)).
Proof.
  assert (didForCreateOp (plc_op [KR; KS] "https://pds.example.com" None KS) = did)
    as Hdid by (vm_compute; reflexivity).
  destruct (C4_genesis_binding "did:plc:aaaaaaaaaaaaaaaaaaaaaaaa")
    as (_ & Hhash & _).
  rewrite <- Hdid.
  apply (Hhash G (plc_op [KR; KS] "https://pds.example.com" None KS) KS);
    [reflexivity|vm_compute; reflexivity|rewrite Hdid; discriminate].
Defined.

(** C5: the history left by a recovery is linked. *)
Lemma C5_witness :
  linked [G; B "2024-01-03T00:00:00.000Z"].
Proof.
  destruct (C5_chain_continuity runtime_canonical) as [_ Hlog].
  apply (Hlog did [G; A; B "2024-01-03T00:00:00.000Z"]).
  vm_compute. reflexivity.
Defined.

(** C7: a padded signature is refused whatever the keys are. *)
Lemma C7_witness :
  assureValidSig [] (operation P) = Throw (Plc (InvalidSignatureError (operation P)))
  /\ assureValidSig ["c2lnbmF0dXJl="] (operation P)
     = Throw (Plc (InvalidSignatureError (operation P))).
Proof.
  split.
  - apply (C7_padded_sig_rejected [] (operation P) "c2lnbmF0dXJl"). reflexivity.
  - apply (C7_padded_sig_rejected ["c2lnbmF0dXJl="] (operation P) "c2lnbmF0dXJl").
    reflexivity.
Defined.

(** C9: a second operation without [prev] is misordered. *)
Lemma C9_witness :
  assureValidNextOp did [G] G = Throw (Plc MisorderedOperationError).
Proof.
  destruct (C9_prev_lookup did [G] G) as (Hnull & _); [discriminate|].
  apply Hnull. left. reflexivity.
Defined.

(** C10: a [prev] that is not a CID string. *)
Lemma C10_witness :
  assureValidNextOp did [G] (X "x") = Throw (CidSyntaxError "x").
Proof.
  destruct (C10_prev_parsed_before_search did [G] (X "x") "x")
    as (Hbad & _); [discriminate|reflexivity|discriminate|].
  apply Hbad. reflexivity.
Defined.

(** C9 as stated fails: [prev = "x"] matches no confirmed [cid], yet the
    step throws the syntax error of the CID parser, not
    [MisorderedOperationError]. *)
Lemma C9_counterexample :
  [G] <> []
  /\ Forall (fun op => Some (cid op) <> prev (operation (X "x"))) [G]
  /\ assureValidNextOp did [G] (X "x") = Throw (CidSyntaxError "x")
  /\ ~ (forall (d : string) (ops : list IndexedOperation)
          (proposed : IndexedOperation),
          ops <> [] ->
          Forall (fun op => Some (cid op) <> prev (operation proposed)) ops ->
          assureValidNextOp d ops proposed = Throw (Plc MisorderedOperationError)).
Proof.
  assert (Forall (fun op => Some (cid op) <> prev (operation (X "x"))) [G])
    as Hnone by (repeat constructor; discriminate).
  split_and!; [discriminate|exact Hnone|reflexivity|].
  intros Hclaim. specialize (Hclaim did [G] (X "x") ltac:(discriminate) Hnone).
  vm_compute in Hclaim. discriminate.
Qed.

(** C4 as stated fails: the genesis [F] hashes to another DID than the
    one the log is indexed under, yet the step throws
    [InvalidSignatureError], because the signature is checked before
    the DID. *)
Lemma C4_counterexample :
  (exists g,
     operation F = Compatible g
     /\ didForCreateOp g <> "did:plc:aaaaaaaaaaaaaaaaaaaaaaaa")
  /\ assureValidNextOp "did:plc:aaaaaaaaaaaaaaaaaaaaaaaa" [] F
     = Throw (Plc (InvalidSignatureError (operation F)))
  /\ ~ (forall (d : string) (proposed : IndexedOperation) (g : CompatibleOp),
          operation proposed = Compatible g ->
          didForCreateOp g <> d ->
          assureValidNextOp d [] proposed
            = Throw (Plc (GenesisHashError (didForCreateOp g)))).
Proof.
  set (f := plc_op [KR; KS] "https://pds.example.com" None "did:key:zMallory").
  assert (String.eqb (didForCreateOp f) "did:plc:aaaaaaaaaaaaaaaaaaaaaaaa"
          = false) as Hneq by (vm_compute; reflexivity).
  apply String.eqb_neq in Hneq.
  assert (assureValidNextOp "did:plc:aaaaaaaaaaaaaaaaaaaaaaaa" [] F
          = Throw (Plc (InvalidSignatureError (operation F)))) as Hrun
    by (vm_compute; reflexivity).
  split_and!.
  - exists f. split; [reflexivity|exact Hneq].
  - exact Hrun.
  - intros Hclaim.
    specialize (Hclaim "did:plc:aaaaaaaaaaaaaaaaaaaaaaaa" F f eq_refl Hneq).
    rewrite Hrun in Hclaim. discriminate.
Qed.

(** C3 as stated fails: the log [G; T] ends in a tombstone and
    validates, yet its extension by a recovery [B] that forks from [G]
    validates too, the tombstone being nullified. *)
Lemma C3_counterexample :
  validateLoop did [] [G; T] = Ok [G; T]
  /\ last [G; T] = Some T
  /\ is_tombstone (operation T) = true
  /\ validateOperationLog did ([G; T] ++ [B "2024-01-03T00:00:00.000Z"])
     = Ok (opToData did (operation (B "2024-01-03T00:00:00.000Z")))
  /\ ~ (forall (d : string) (pre ext history : list IndexedOperation)
          (t : IndexedOperation),
          validateLoop d [] pre = Ok history ->
          last pre = Some t -> last history = Some t ->
          is_tombstone (operation t) = true ->
          ext <> [] ->
          ~ is_Ok (validateOperationLog d (pre ++ ext))).
Proof.
  split_and!; [vm_compute; reflexivity|reflexivity|reflexivity
              |vm_compute; reflexivity|].
  intros Hclaim.
  apply (Hclaim did [G; T] [B "2024-01-03T00:00:00.000Z"] [G; T] T);
    [vm_compute; reflexivity|reflexivity|reflexivity|reflexivity|discriminate|].
  eexists. vm_compute. reflexivity.
Qed.

End Scenarios.

(** * Further properties of the validator *)

Section Step_results.

Context `{RT : Runtime Cid}.

Lemma step_genesis_Ok (did : string) (proposed : IndexedOperation)
    (r : StepResult) :
  assureValidNextOp did [] proposed = Ok r ->
  r = {| res_nullified := []; res_prev := None; res_ops := [proposed] |}
  /\ bound_genesis did proposed [proposed].
Proof.
  unfold assureValidNextOp. cbn [length Nat.eqb].
  unfold assureValidCreationOp.
  destruct (operation proposed) as [cg|t] eqn:Hop; [|discriminate].
  destruct (assureValidSig _ _) as [k|e] eqn:Hsig; [|discriminate]. cbn [bind].
  destruct (String.eqb_spec (didForCreateOp cg) did) as [Hdid|Hdid];
    [|discriminate].
  cbn [negb]. destruct (prev cg) eqn:Hprev; [discriminate|]. cbn [bind].
  intros [= <-]. split; [reflexivity|].
  exists cg, []. rewrite Hop. split_and!; try reflexivity; try assumption.
  exists k. assumption.
Qed.

(** X1. Nothing is dropped silently: a successful step keeps a prefix of the
    confirmed operations, appends the proposed one, and reports exactly
    the remaining confirmed operations as nullified, in order. *)
Theorem step_partitions_history (did : string) (ops : list IndexedOperation)
    (proposed : IndexedOperation) (r : StepResult) :
  assureValidNextOp did ops proposed = Ok r ->
  exists kept displaced,
    ops = (kept ++ displaced)%list
    /\ res_ops r = (kept ++ [proposed])%list
    /\ res_nullified r = cid <$> displaced.
Proof.
  intros Hok. destruct ops as [|g0 ops'] eqn:Hops.
  - apply step_genesis_Ok in Hok as [-> _]. exists [], []. auto.
  - rewrite <- Hops in *.
    assert (ops <> []) as Hne by (rewrite Hops; discriminate).
    destruct (step_Ok_inv did ops proposed r Hne Hok)
      as (s & c & i & head & h & Hprev & Hs & Hc & Href & Hhead).
    destruct (step_located_result did ops proposed s c i head r)
      as (Hr & Hn & _); try assumption.
    exists (take (S i) ops), (drop (S i) ops).
    rewrite take_drop. auto.
Qed.

(** X2. A step that refers to the last confirmed operation is a plain
    extension: it succeeds exactly when the signature verifies under the
    rotation keys of that operation, displaces nothing, and never
    consults [createdAt]. *)
Theorem step_linear_extension (did : string) (ops : list IndexedOperation)
    (proposed : IndexedOperation) (s : string) (c : Cid) (i : nat)
    (head : IndexedOperation) (h : CompatibleOp) :
  prev (operation proposed) = Some s -> s <> "" ->
  CID_fromString s = Some c ->
  refers_to (CID_toString c) ops i head ->
  operation head = Compatible h ->
  S i = length ops ->
  assureValidNextOp did ops proposed =
    let* _ := assureValidSig (rotationKeys (normalizeOp h)) (operation proposed) in
    Ok {| res_nullified := [];
          res_prev := Some c;
          res_ops := ops ++ [proposed] |}.
Proof.
  intros Hprev Hs Hc Href Hhead Hlen.
  rewrite (assureValidNextOp_located did ops proposed s c i head) by assumption.
  unfold spec_cases_DEF. rewrite Hhead, drop_ge by lia. reflexivity.
Qed.

(** X3. The recovery window is skipped when a timestamp does not parse: a
    fork whose two signature checks pass is accepted whenever
    [Date.parse] gives [NaN] for either [createdAt]. *)
Theorem step_fork_unparseable_date (did : string) (ops : list IndexedOperation)
    (proposed : IndexedOperation) (s : string) (c : Cid) (i : nat)
    (head : IndexedOperation) (h : CompatibleOp)
    (first_nullified : IndexedOperation) (disputed_signer k : string) :
  prev (operation proposed) = Some s -> s <> "" ->
  CID_fromString s = Some c ->
  refers_to (CID_toString c) ops i head ->
  operation head = Compatible h ->
  ops !! S i = Some first_nullified ->
  assureValidSig (rotationKeys (normalizeOp h)) (operation first_nullified)
    = Ok disputed_signer ->
  assureValidSig
    (JS.slice (rotationKeys (normalizeOp h)) 0
       (Some (JS.indexOf (rotationKeys (normalizeOp h)) disputed_signer)))
    (operation proposed) = Ok k ->
  Date_parse (createdAt proposed) = JS.NaN
  \/ Date_parse (createdAt first_nullified) = JS.NaN ->
  assureValidNextOp did ops proposed =
    Ok {| res_nullified := cid <$> drop (S i) ops;
          res_prev := Some c;
          res_ops := take (S i) ops ++ [proposed] |}.
Proof.
  intros Hprev Hs Hc Href Hhead Hnext Hsig Hmore Hnan.
  rewrite (step_fork did ops proposed s c i head h first_nullified) by assumption.
  cbv zeta. rewrite Hsig. cbn [bind]. rewrite Hmore. cbn [bind].
  assert (JS.sub (Date_parse (createdAt proposed))
            (Date_parse (createdAt first_nullified)) = JS.NaN) as ->.
  { destruct Hnan as [-> | ->]; [reflexivity|].
    destruct (Date_parse (createdAt proposed)); reflexivity. }
  reflexivity.
Qed.

(** X4. An ancestor without rotation keys can never be built upon: every
    step that refers to it throws [InvalidSignatureError], for the first
    displaced operation on a fork and for the proposed one otherwise. *)
Theorem step_no_rotation_keys (did : string) (ops : list IndexedOperation)
    (proposed : IndexedOperation) (s : string) (c : Cid) (i : nat)
    (head : IndexedOperation) (h : CompatibleOp) :
  prev (operation proposed) = Some s -> s <> "" ->
  CID_fromString s = Some c ->
  refers_to (CID_toString c) ops i head ->
  operation head = Compatible h ->
  rotationKeys (normalizeOp h) = [] ->
  assureValidNextOp did ops proposed =
    Throw (Plc (InvalidSignatureError
                  (operation (default proposed (ops !! S i))))).
Proof.
  intros Hprev Hs Hc Href Hhead Hkeys.
  rewrite (assureValidNextOp_located did ops proposed s c i head) by assumption.
  unfold spec_cases_DEF. rewrite Hhead, Hkeys.
  destruct (ops !! S i) as [fn|] eqn:Hnext.
  - rewrite (drop_S _ _ _ Hnext). cbn [default].
    rewrite (assureValidSig_none [] (operation fn)); [reflexivity|].
    intros k Hk. inversion Hk.
  - rewrite drop_ge by (apply lookup_ge_None; assumption). cbn [default].
    rewrite (assureValidSig_none [] (operation proposed)); [reflexivity|].
    intros k Hk. inversion Hk.
Qed.

End Step_results.

Section Log_invariants.

Context `{RT : Runtime Cid}.

(** A key that verifies within a prefix of the key list verifies within
    the whole list, as the same first key. *)
Lemma assureValidSig_take (keys : list string) (n : nat)
    (op : CompatibleOpOrTombstone) (k : string) :
  assureValidSig (take n keys) op = Ok k -> assureValidSig keys op = Ok k.
Proof.
  rewrite !assureValidSig_Ok. intros (Hpad & j & Hj & Hk & Hfirst).
  split; [assumption|]. exists j.
  apply lookup_take_Some in Hj as [Hj Hlt]. split_and!; [assumption..|].
  intros m y Hm Hmj. apply (Hfirst m y); [|assumption].
  apply lookup_take_Some. split; [assumption|lia].
Qed.

(** What a successful step on a non-empty history has checked about the
    proposed operation. *)
Lemma step_Ok_authorised (did : string) (ops : list IndexedOperation)
    (proposed : IndexedOperation) (s : string) (c : Cid) (i : nat)
    (head : IndexedOperation) (h : CompatibleOp) (r : StepResult) :
  prev (operation proposed) = Some s -> s <> "" ->
  CID_fromString s = Some c ->
  refers_to (CID_toString c) ops i head ->
  operation head = Compatible h ->
  assureValidNextOp did ops proposed = Ok r ->
  is_Ok (assureValidSig (rotationKeys (normalizeOp h)) (operation proposed)).
Proof.
  intros Hprev Hs Hc Href Hhead.
  rewrite (assureValidNextOp_located did ops proposed s c i head) by assumption.
  unfold spec_cases_DEF. rewrite Hhead.
  destruct (drop (S i) ops) as [|fn rest].
  - destruct (assureValidSig _ (operation proposed)) as [k|e]; [|discriminate].
    intros _. eexists. reflexivity.
  - destruct (assureValidSig _ (operation fn)) as [signer|e]; [|discriminate].
    cbn [bind].
    destruct (assureValidSig (take _ _) (operation proposed)) as [k|e] eqn:Hmore;
      [|discriminate].
    intros _. exists k. eapply assureValidSig_take, Hmore.
Qed.

Lemma authorised_fork (history : list IndexedOperation) (i : nat)
    (head proposed : IndexedOperation) (h : CompatibleOp) :
  authorised history -> history !! i = Some head ->
  operation head = Compatible h ->
  is_Ok (assureValidSig (rotationKeys (normalizeOp h)) (operation proposed)) ->
  authorised (take (S i) history ++ [proposed]).
Proof.
  intros Hauth Hi Hhead Hsig j a b Ha Hb.
  pose proof (lookup_lt_Some _ _ _ Hi) as Hlt.
  assert (length (take (S i) history) = S i) as Hlen
    by (rewrite length_take; lia).
  destruct (decide (S j < S i)%nat) as [Hin|Hout].
  - rewrite lookup_app_l in Ha, Hb by lia.
    rewrite lookup_take_lt in Ha, Hb by lia. eauto.
  - destruct (decide (j = i)) as [->|Hneq].
    + rewrite lookup_app_l in Ha by lia. rewrite lookup_take_lt in Ha by lia.
      rewrite lookup_app_r in Hb by lia. rewrite Hlen, Nat.sub_diag in Hb.
      injection Hb as <-. exists h. split; congruence.
    + rewrite lookup_app_r in Hb by lia. rewrite Hlen in Hb.
      destruct (S j - S i)%nat as [|m] eqn:Hm; [lia|discriminate].
Qed.

Lemma step_authorised (did : string) (history : list IndexedOperation)
    (proposed : IndexedOperation) (r : StepResult) :
  authorised history -> assureValidNextOp did history proposed = Ok r ->
  authorised (res_ops r).
Proof.
  intros Hauth Hok. destruct history as [|g0 history'] eqn:Hhist.
  - apply step_genesis_Ok in Hok as [-> _]. intros [|j] a b Ha Hb; discriminate.
  - rewrite <- Hhist in *.
    assert (history <> []) as Hne by (rewrite Hhist; discriminate).
    destruct (step_Ok_inv did history proposed r Hne Hok)
      as (s & c & i & head & h & Hprev & Hs & Hc & Href & Hhead).
    destruct (step_located_result did history proposed s c i head r)
      as (-> & _ & _); try assumption.
    apply (authorised_fork history i head proposed h);
      [assumption|apply Href|assumption|].
    eapply step_Ok_authorised; eassumption.
Qed.

Lemma step_keeps_genesis (did : string) (g : IndexedOperation)
    (history : list IndexedOperation) (proposed : IndexedOperation)
    (r : StepResult) :
  bound_genesis did g history ->
  assureValidNextOp did history proposed = Ok r ->
  bound_genesis did g (res_ops r).
Proof.
  intros (cg & tail & -> & Hg) Hok.
  destruct (step_Ok_inv did (g :: tail) proposed r ltac:(discriminate) Hok)
    as (s & c & i & head & h & Hprev & Hs & Hc & Href & Hhead).
  destruct (step_located_result did (g :: tail) proposed s c i head r)
    as (-> & _ & _); try assumption.
  exists cg, (take i tail ++ [proposed])%list. split; [reflexivity|assumption].
Qed.

Lemma validateLoop_invariants (did : string) (g : IndexedOperation)
    (history log final : list IndexedOperation) :
  authorised history -> bound_genesis did g history ->
  validateLoop did history log = Ok final ->
  authorised final /\ bound_genesis did g final.
Proof.
  revert history. induction log as [|op log IH]; intros history Hauth Hgen Hok.
  - injection Hok as <-. auto.
  - simpl in Hok.
    destruct (assureValidNextOp did history op) as [r|e] eqn:Hstep; [|discriminate].
    cbn [bind] in Hok. apply (IH (res_ops r)); [| |assumption].
    + eapply step_authorised; eassumption.
    + eapply step_keeps_genesis; eassumption.
Qed.

Lemma accepted_log_genesis_aux (did : string) (g : IndexedOperation)
    (rest history : list IndexedOperation) :
  validateLoop did [] (g :: rest) = Ok history ->
  bound_genesis did g history.
Proof.
  simpl. destruct (assureValidNextOp did [] g) as [r|e] eqn:Hstep; [|discriminate].
  cbn [bind]. intros Hok. apply step_genesis_Ok in Hstep as [-> Hgen].
  apply (validateLoop_invariants did g [g] rest history); [|assumption..].
  intros [|j] a b Ha Hb; discriminate.
Qed.

(** X5. Genesis binding. The final history of every accepted log still
    starts with the first operation of the log, which is not a
    tombstone, has a null [prev], is signed by one of its own rotation
    keys and hashes to the DID the log was validated under; recoveries
    never displace it. *)
Theorem accepted_log_genesis (did : string) (g : IndexedOperation)
    (rest history : list IndexedOperation) :
  validateLoop did [] (g :: rest) = Ok history ->
  bound_genesis did g history.
Proof.
  intros Hok. destruct (accepted_log_genesis_aux did g rest history Hok)
    as (cg & tail & Hhist & Hrest).
  exists cg, tail. split; assumption.
Qed.

(** X6. Chain of authority. In the final history of every accepted log each
    operation after the first is signed by a rotation key of its
    immediate predecessor; in particular no operation but the last is a
    tombstone. *)
Theorem accepted_log_authorised (did : string)
    (log history : list IndexedOperation) :
  validateLoop did [] log = Ok history ->
  authorised history
  /\ forall i a,
       history !! i = Some a -> (S i < length history)%nat ->
       is_tombstone (operation a) = false.
Proof.
  intros Hok.
  assert (authorised history) as Hauth.
  { destruct log as [|g rest].
    - injection Hok as <-. intros [|j] a b Ha Hb; discriminate.
    - simpl in Hok.
      destruct (assureValidNextOp did [] g) as [r|e] eqn:Hstep; [|discriminate].
      cbn [bind] in Hok. apply step_genesis_Ok in Hstep as [-> Hgen].
      apply (validateLoop_invariants did g [g] rest history); [|assumption..].
      intros [|j] a b Ha Hb; discriminate. }
  split; [assumption|]. intros i a Ha Hlt.
  destruct (lookup_lt_is_Some_2 history (S i) Hlt) as [b Hb].
  destruct (Hauth i a b Ha Hb) as (h & -> & _). reflexivity.
Qed.

(** X7. The validator's own errors of a step on a non-empty history.
    When such a step throws a [PlcError], it is
    [MisorderedOperationError], [InvalidSignatureError] for the proposed
    operation or for a confirmed one, or [LateRecoveryError] with a
    finite delay above the window; never [GenesisHashError] nor
    [ImproperOperationError].  (Exceptions of the imported packages are
    not [PlcError]s; nothing is said about them.) *)
Theorem step_exceptions (did : string) (ops : list IndexedOperation)
    (proposed : IndexedOperation) (e : PlcError) :
  ops <> [] ->
  assureValidNextOp did ops proposed = Throw (Plc e) ->
  e = MisorderedOperationError
  \/ e = InvalidSignatureError (operation proposed)
  \/ (exists confirmed,
        confirmed ∈ ops /\ e = InvalidSignatureError (operation confirmed))
  \/ (exists ms,
        72 * 3600 * 1000 < ms /\ e = LateRecoveryError (JS.Num ms)).
Proof.
  intros Hne. unfold assureValidNextOp. rewrite (nonempty_length _ Hne).
  destruct (prev (operation proposed)) as [s|] eqn:Hprev;
    [|cbn; intros [= <-]; auto].
  unfold parsePrev. destruct (JS.truthy s) eqn:Hs; [|cbn; intros [= <-]; auto].
  destruct (CID_fromString s) as [c|] eqn:Hc; [|cbn; discriminate].
  cbn [bind].
  destruct (JS.findIndex _ ops <? 0) eqn:Hfind; [intros [= <-]; auto|].
  destruct (findIndex_found _ _ Hfind) as (i & head & Href).
  rewrite (findIndex_refers_to _ _ _ _ Href).
  replace (Z.of_nat i + 1) with (Z.of_nat (S i)) by lia.
  rewrite slice_take, slice_drop, at_last.
  rewrite (last_take_lookup _ _ _ (proj1 Href)).
  destruct (operation head) as [h|t]; [|intros [= <-]; auto].
  destruct (drop (S i) ops) as [|fn rest] eqn:Hdrop.
  - cbn [lookup list_lookup].
    destruct (assureValidSig _ (operation proposed)) as [k|e'] eqn:Hsig;
      [discriminate|].
    cbn [bind]. intros [= ->]. apply assureValidSig_Throw in Hsig.
    injection Hsig as ->. auto.
  - cbn [lookup list_lookup].
    assert (fn ∈ ops) as Hfn.
    { rewrite <- (take_drop (S i) ops), Hdrop. apply elem_of_app. right. left. }
    destruct (assureValidSig _ (operation fn)) as [signer|e'] eqn:Hsig.
    2:{ cbn [bind]. intros [= ->]. apply assureValidSig_Throw in Hsig.
        injection Hsig as ->. right. right. left. eauto. }
    cbn [bind].
    destruct (assureValidSig _ (operation proposed)) as [k|e'] eqn:Hmore.
    2:{ cbn [bind]. intros [= ->]. apply assureValidSig_Throw in Hmore.
        injection Hmore as ->. auto. }
    cbn [bind].
    destruct (JS.sub _ _) as [ms|] eqn:Hdelta; cbn [JS.gt].
    + rewrite andb_true_l. destruct (RECOVERY_WINDOW <? ms) eqn:Hlate;
        [|discriminate].
      intros [= <-]. apply Z.ltb_lt in Hlate. do 3 right. exists ms.
      split; [exact Hlate|reflexivity].
    + rewrite andb_false_r. discriminate.
Qed.

(** X8. Edge cases of the driver: an empty log throws a [TypeError]; a log
    that starts with a tombstone is misordered whatever follows; and a
    log of one operation never resolves to [null]. *)
Theorem validateOperationLog_edges (did : string) :
  validateOperationLog did [] = Throw TypeError
  /\ (forall g rest,
        is_tombstone (operation g) = true ->
        validateOperationLog did (g :: rest) = Throw (Plc MisorderedOperationError))
  /\ (forall g, validateOperationLog did [g] <> Ok None).
Proof.
  split_and!.
  - reflexivity.
  - intros g rest Hg. unfold validateOperationLog. simpl.
    unfold assureValidNextOp. cbn [length Nat.eqb]. unfold assureValidCreationOp.
    destruct (operation g); [discriminate|reflexivity].
  - intros g. unfold validateOperationLog. simpl.
    destruct (assureValidNextOp did [] g) as [r|e] eqn:Hstep; [|discriminate].
    apply step_genesis_Ok in Hstep as [-> (cg & tail & _ & Hop & _)].
    cbn [bind res_ops]. rewrite at_last. cbn [last]. rewrite Hop. discriminate.
Qed.

End Log_invariants.

(** ** URL prefixes *)

Section Prefix_idempotence.

(** X9. [ensureHttpPrefix] always returns a string that starts with
    [http://] or [https://], and applying it twice is applying it
    once. *)
Theorem ensureHttpPrefix_idempotent (str : string) :
  (JS.startsWith (ensureHttpPrefix str) "http://" = true
   \/ JS.startsWith (ensureHttpPrefix str) "https://" = true)
  /\ ensureHttpPrefix (ensureHttpPrefix str) = ensureHttpPrefix str.
Proof.
  assert (forall t,
            JS.startsWith t "http://" || JS.startsWith t "https://" = true ->
            ensureHttpPrefix t = t) as Hfix
    by (intros t Ht; unfold ensureHttpPrefix; rewrite Ht; reflexivity).
  assert (JS.startsWith (ensureHttpPrefix str) "http://"
          || JS.startsWith (ensureHttpPrefix str) "https://" = true) as Hout.
  { unfold ensureHttpPrefix.
    destruct (JS.startsWith str "http://" || JS.startsWith str "https://") eqn:H;
      [assumption|].
    apply orb_true_iff. right. apply startsWith_prefix. eauto. }
  split; [apply orb_true_iff, Hout|apply Hfix, Hout].
Qed.

Lemma ensureAtprotoPrefix_at (str : string) :
  JS.startsWith (ensureAtprotoPrefix str) "at://" = true.
Proof.
  unfold ensureAtprotoPrefix. destruct (JS.startsWith str "at://") eqn:H1;
    [assumption|]. apply startsWith_prefix. eauto.
Qed.

(** X10. [ensureAtprotoPrefix] always returns a string that starts with
    [at://], and applying it twice is applying it once. *)
Theorem ensureAtprotoPrefix_idempotent (str : string) :
  JS.startsWith (ensureAtprotoPrefix str) "at://" = true
  /\ ensureAtprotoPrefix (ensureAtprotoPrefix str) = ensureAtprotoPrefix str.
Proof.
  split; [apply ensureAtprotoPrefix_at|].
  unfold ensureAtprotoPrefix at 1. rewrite ensureAtprotoPrefix_at. reflexivity.
Qed.

End Prefix_idempotence.

(** * Building and signing operations *)

Section Authoring_properties.

Context `{RT : Runtime Cid} `{AU : Authoring Cid PrivateKey}.




(** X13. Changing the handle replaces, in place, the first [at://] entry of
    [alsoKnownAs] by the formatted handle, or puts the formatted handle
    in front when there is no such entry; either way the first [at://]
    entry of the result is the new handle. *)
Theorem atprotoUpdate_handle (opts : UpdateOpts)
    (normalized : UnsignedOperation) (handle : string) :
  upd_handle opts = Some handle -> handle <> "" ->
  let is_at := fun h : string => JS.startsWith h "at://" = true in
  let formatted := ensureAtprotoPrefix handle in
  let updated := u_alsoKnownAs (atprotoUpdate opts normalized) in
  updated =
    match list_find is_at (u_alsoKnownAs normalized) with
    | Some (i, _) => <[ i := formatted ]> (u_alsoKnownAs normalized)
    | None => formatted :: u_alsoKnownAs normalized
    end
  /\ exists i, list_find is_at updated = Some (i, formatted).
Proof.
  intros Hopt Hne is_at formatted updated.
  assert (is_at formatted) as Hat by apply ensureAtprotoPrefix_at.
  assert (updated =
    match list_find is_at (u_alsoKnownAs normalized) with
    | Some (i, _) => <[ i := formatted ]> (u_alsoKnownAs normalized)
    | None => formatted :: u_alsoKnownAs normalized
    end) as Hupd.
  { unfold updated, atprotoUpdate. cbn [u_alsoKnownAs]. rewrite Hopt.
    unfold given. destruct handle; [congruence|]. cbn [JS.truthy].
    rewrite findIndex_list_find. fold formatted.
    destruct (list_find _ (u_alsoKnownAs normalized)) as [[i old]|] eqn:Hfind;
      cbn [from_option fst]; [|reflexivity].
    replace (Z.of_nat i <? 0) with false by (symmetry; apply Z.ltb_ge; lia).
    replace (Z.of_nat i + 1) with (Z.of_nat (S i)) by lia.
    rewrite slice_take, slice_drop.
    apply list_find_Some in Hfind as (Hi & _).
    symmetry. apply insert_take_drop. eapply lookup_lt_Some, Hi. }
  split; [assumption|]. rewrite Hupd.
  destruct (list_find is_at (u_alsoKnownAs normalized)) as [[i old]|] eqn:Hfind.
  - exists i. apply list_find_Some in Hfind as (Hi & _ & Hfirst).
    apply list_find_Some. split_and!; [|assumption|].
    + apply list_lookup_insert_eq. eapply lookup_lt_Some, Hi.
    + intros j y Hj Hlt. rewrite list_lookup_insert_ne in Hj by lia. eauto.
  - exists 0%nat. apply list_find_Some. split_and!; [reflexivity|assumption|].
    intros j y _ Hlt. lia.
Qed.

(** X14. What [createAtprotoUpdateOp] leaves alone. Each of the four
    content fields of the new operation is that of the normalized last
    operation when its option is absent (for the three string options,
    also when it is the empty string); [rotationKeys], when given,
    replace the list as it is, even by the empty list; every
    verification method but [atproto] and every service but
    [atproto_pds] is kept.  [prev] and [sig] are never kept: [prev] is
    what [createUpdateOp] prints for the CID of the last operation,
    whatever the options, and [sig] is the signature over the new
    fields. *)
Theorem atprotoUpdate_frame (lastOp : CompatibleOp) (signer : PrivateKey)
    (opts : UpdateOpts) :
  let last := normalizeOp lastOp in
  let updated := createAtprotoUpdateOp lastOp signer opts in
  (given (upd_signingKey opts) = None ->
   verificationMethods updated = verificationMethods last)
  /\ (given (upd_handle opts) = None -> alsoKnownAs updated = alsoKnownAs last)
  /\ (given (upd_pds opts) = None -> services updated = services last)
  /\ (upd_rotationKeys opts = None -> rotationKeys updated = rotationKeys last)
  /\ (forall keys,
        upd_rotationKeys opts = Some keys -> rotationKeys updated = keys)
  /\ (forall name,
        name <> "atproto" ->
        verificationMethods updated !! name = verificationMethods last !! name)
  /\ (forall name,
        name <> "atproto_pds" ->
        services updated !! name = services last !! name)
  /\ op_prev updated
     = Some (created_toString (cbor_encode (value_of_op lastOp)))
  /\ op_sig updated
     = toBase64Url
         (sign signer
            (cbor_encode
               (VObject
                  (fields_of
                     {| u_verificationMethods := verificationMethods updated;
                        u_rotationKeys := rotationKeys updated;
                        u_alsoKnownAs := alsoKnownAs updated;
                        u_services := services updated;
                        u_prev := op_prev updated |})))).
Proof.
  intros last updated.
  unfold updated, createAtprotoUpdateOp, createUpdateOp, addSignature.
  cbn [with_sig signable_operation verificationMethods rotationKeys
       alsoKnownAs services op_prev op_sig].
  unfold atprotoUpdate.
  cbn [u_verificationMethods u_rotationKeys u_alsoKnownAs u_services u_prev
       withoutSig].
  fold last. split_and!.
  - intros ->. reflexivity.
  - intros ->. reflexivity.
  - intros ->. reflexivity.
  - intros ->. reflexivity.
  - intros keys ->. reflexivity.
  - intros name Hname. destruct (given (upd_signingKey opts)); [|reflexivity].
    apply lookup_insert_ne. congruence.
  - intros name Hname. destruct (given (upd_pds opts)); [|reflexivity].
    apply lookup_insert_ne. congruence.
  - reflexivity.
  - reflexivity.
Qed.

End Authoring_properties.

(** * The wire format *)

Section Slices.

Context {A : Type}.

Lemma slice_last (l : list A) (n : nat) :
  (0 < n)%nat ->
  JS.slice l (- Z.of_nat n) None = drop (length l - n) l.
Proof.
  intros Hn. unfold JS.slice, JS.relative_index.
  replace (- Z.of_nat n <? 0) with true by (symmetry; apply Z.ltb_lt; lia).
  replace (Z.to_nat (Z.max (Z.of_nat (length l) + - Z.of_nat n) 0))
    with (length l - n)%nat by lia.
  apply take_ge. rewrite length_drop. lia.
Qed.

Lemma slice_but_last (l : list A) (n : nat) :
  (0 < n)%nat ->
  JS.slice l 0 (Some (- Z.of_nat n)) = take (length l - n) l.
Proof.
  intros Hn. unfold JS.slice, JS.relative_index.
  change (0 <? 0) with false. cbv iota.
  replace (- Z.of_nat n <? 0) with true by (symmetry; apply Z.ltb_lt; lia).
  replace (Z.min 0 (Z.of_nat (length l))) with 0 by lia.
  rewrite Z.sub_0_r. change (Z.to_nat 0) with 0%nat. rewrite drop_0.
  f_equal. lia.
Qed.

End Slices.

Section Wire_helpers.

Import Wire.
#[local] Open Scope list_scope.

Lemma equals_eq (a b : list byte) : equals a b = true <-> a = b.
Proof.
  revert b. induction a as [|x a IH]; intros [|y b]; simpl;
    try (split; (reflexivity || discriminate)).
  rewrite andb_true_iff, IH. split.
  - intros [Hxy ->]. apply Byte.byte_dec_bl in Hxy. congruence.
  - intros [= -> ->]. split; [apply Byte.byte_dec_lb|]; reflexivity.
Qed.

Lemma equals_refl (a : list byte) : equals a a = true.
Proof. apply equals_eq. reflexivity. Qed.

Lemma eqb_other (x y : byte) : x <> y -> Byte.eqb x y = false.
Proof.
  intros Hne. destruct (Byte.eqb x y) eqn:E; [|reflexivity].
  apply Byte.byte_dec_bl in E. contradiction.
Qed.

Lemma indexOf_first (a b : list byte) (x : byte) :
  x ∉ a -> indexOf (a ++ x :: b) x = Z.of_nat (length a).
Proof.
  intros Ha. unfold indexOf.
  apply (findIndex_first _ _ (length a) x).
  - apply list_lookup_middle. reflexivity.
  - apply Byte.byte_dec_lb. reflexivity.
  - intros j y Hj Hlt. rewrite lookup_app_l in Hj by assumption.
    apply eqb_other. intros ->. apply Ha. eapply list_elem_of_lookup_2, Hj.
Qed.

Lemma indexOf_absent (data : list byte) (x : byte) :
  x ∉ data -> indexOf data x = -1.
Proof.
  intros Hx. unfold indexOf. apply findIndex_none.
  intros y Hy. apply eqb_other. intros ->. contradiction.
Qed.

Lemma lastIndexOf_from_absent (data : list byte) (x : byte) (i found : Z) :
  x ∉ data -> lastIndexOf_from data x i found = found.
Proof.
  revert i found. induction data as [|y data IH]; intros i found Hx;
    [reflexivity|].
  apply not_elem_of_cons in Hx as [Hne Hx]. simpl.
  rewrite eqb_other by congruence. apply IH. assumption.
Qed.

Lemma lastIndexOf_from_last (a b : list byte) (x : byte) (i found : Z) :
  x ∉ b ->
  lastIndexOf_from (a ++ x :: b) x i found = i + Z.of_nat (length a).
Proof.
  intros Hb. revert i found. induction a as [|y a IH]; intros i found.
  - simpl. rewrite Byte.byte_dec_lb by reflexivity.
    rewrite lastIndexOf_from_absent by assumption. lia.
  - simpl app. cbn [lastIndexOf_from]. rewrite IH. rewrite length_cons. lia.
Qed.

Lemma byte_elem_dec (x : byte) (data : list byte) : x ∈ data \/ x ∉ data.
Proof.
  induction data as [|y data [IH|IH]].
  - right. intros H. inversion H.
  - left. right. assumption.
  - destruct (Byte.byte_eq_dec x y) as [->|Hne].
    + left. left.
    + right. intros [->|H]%elem_of_cons; contradiction.
Qed.

(** A byte that occurs has a last occurrence. *)
Lemma last_occurrence (data : list byte) (x : byte) :
  x ∈ data -> exists a b, data = a ++ x :: b /\ x ∉ b.
Proof.
  induction data as [|y data IH]; intros Hx; [inversion Hx|].
  destruct (byte_elem_dec x data) as [Hin|Hout].
  - destruct (IH Hin) as (a & b & -> & Hb). exists (y :: a), b. auto.
  - apply elem_of_cons in Hx as [->|Hx]; [|contradiction].
    exists [], data. auto.
Qed.

(** X15. [expectl] strips exactly a leading [needle], and fails on any other
    data; [expectr] does the same at the end, for a non-empty needle. *)
Theorem expect_spec (data needle rest : list byte) :
  (expectl data needle = Some rest <-> data = needle ++ rest)
  /\ (needle <> [] ->
      (expectr data needle = Some rest <-> data = rest ++ needle)).
Proof.
  split.
  - unfold expectl, subarray, byteLength. rewrite slice_take, slice_drop.
    destruct (equals _ needle) eqn:E.
    + apply equals_eq in E. split.
      * intros [= <-]. rewrite <- E at 1. symmetry. apply take_drop.
      * intros ->. rewrite drop_app_length. reflexivity.
    + split; [discriminate|]. intros ->.
      rewrite take_app_length, equals_refl in E. discriminate.
  - intros Hne. unfold expectr, subarray, byteLength.
    assert (0 < length needle)%nat as Hlen
      by (destruct needle; [congruence|simpl; lia]).
    replace (-1 * Z.of_nat (length needle)) with (- Z.of_nat (length needle))
      by lia.
    rewrite slice_last, slice_but_last by assumption.
    destruct (equals _ needle) eqn:E.
    + apply equals_eq in E. split.
      * intros [= <-]. rewrite <- E at 2. symmetry. apply take_drop.
      * intros ->. rewrite length_app.
        replace (length rest + length needle - length needle)%nat
          with (length rest) by lia.
        rewrite take_app_length. reflexivity.
    + split; [discriminate|]. intros ->. rewrite length_app in E.
      replace (length rest + length needle - length needle)%nat
        with (length rest) in E by lia.
      rewrite drop_app_length, equals_refl in E. discriminate.
Qed.

Lemma drop_past_middle (a b : list byte) (x : byte) :
  drop (S (length a)) (a ++ x :: b) = b.
Proof. induction a as [|y a IH]; [reflexivity|exact IH]. Qed.

Lemma take_past_middle (a b : list byte) (x : byte) :
  take (S (length a)) (a ++ x :: b) = a ++ [x].
Proof.
  induction a as [|y a IH]; [reflexivity|]. simpl. f_equal. exact IH.
Qed.

Lemma splitl_first (a b : list byte) (x : byte) :
  x ∉ a -> splitl (a ++ x :: b) x = Some (a, b).
Proof.
  intros Ha. unfold splitl, subarray. rewrite indexOf_first by assumption.
  replace (Z.of_nat (length a) =? -1) with false
    by (symmetry; apply Z.eqb_neq; lia).
  replace (Z.of_nat (length a) + 1) with (Z.of_nat (S (length a))) by lia.
  rewrite slice_take, slice_drop, take_app_length, drop_past_middle.
  reflexivity.
Qed.

Lemma splitr_last (a b : list byte) (x : byte) :
  x ∉ b -> splitr (a ++ x :: b) x = Some (b, a ++ [x]).
Proof.
  intros Hb. unfold splitr, subarray, lastIndexOf.
  rewrite lastIndexOf_from_last by assumption.
  replace (0 + Z.of_nat (length a) =? -1) with false
    by (symmetry; apply Z.eqb_neq; lia).
  replace (0 + Z.of_nat (length a) + 1) with (Z.of_nat (S (length a))) by lia.
  rewrite slice_take, slice_drop, take_past_middle, drop_past_middle.
  reflexivity.
Qed.

(** X16. [splitl] cuts at the first occurrence of the needle and [splitr] at
    the last, the needle staying with the left part there; both fail
    exactly when the needle does not occur. *)
Theorem split_spec (data : list byte) (x : byte) :
  (forall a b,
     splitl data x = Some (a, b) <-> data = a ++ x :: b /\ x ∉ a)
  /\ (forall b a',
        splitr data x = Some (b, a')
        <-> exists a, a' = a ++ [x] /\ data = a ++ x :: b /\ x ∉ b)
  /\ (splitl data x = None <-> x ∉ data)
  /\ (splitr data x = None <-> x ∉ data).
Proof.
  assert (x ∉ data -> splitl data x = None) as HlNone.
  { intros Hx. unfold splitl. rewrite indexOf_absent by assumption. reflexivity. }
  assert (x ∉ data -> splitr data x = None) as HrNone.
  { intros Hx. unfold splitr, lastIndexOf.
    rewrite lastIndexOf_from_absent by assumption. reflexivity. }
  assert (x ∈ data -> exists a b, data = a ++ x :: b /\ x ∉ a) as Hfirst.
  { clear. induction data as [|y data IH]; intros Hx; [inversion Hx|].
    destruct (Byte.byte_eq_dec x y) as [->|Hne].
    - exists [], data. split; [reflexivity|]. intros H. inversion H.
    - apply elem_of_cons in Hx as [->|Hx]; [congruence|].
      destruct (IH Hx) as (a & b & -> & Ha). exists (y :: a), b.
      split; [reflexivity|]. intros [->|H]%elem_of_cons; contradiction. }
  split_and!.
  - intros a b. split.
    + intros Hs. destruct (byte_elem_dec x data) as [Hin|Hout];
        [|rewrite HlNone in Hs by assumption; discriminate].
      destruct (Hfirst Hin) as (a0 & b0 & -> & Ha0).
      rewrite splitl_first in Hs by assumption. injection Hs as <- <-. auto.
    + intros [-> Ha]. apply splitl_first. assumption.
  - intros b a'. split.
    + intros Hs. destruct (byte_elem_dec x data) as [Hin|Hout];
        [|rewrite HrNone in Hs by assumption; discriminate].
      destruct (last_occurrence data x Hin) as (a0 & b0 & -> & Hb0).
      rewrite splitr_last in Hs by assumption. injection Hs as <- <-. eauto.
    + intros (a & -> & -> & Hb). apply splitr_last. assumption.
  - split; [|assumption]. intros Hs Hin.
    destruct (Hfirst Hin) as (a0 & b0 & -> & Ha0).
    rewrite splitl_first in Hs by assumption. discriminate.
  - split; [|assumption]. intros Hs Hin.
    destruct (last_occurrence data x Hin) as (a0 & b0 & -> & Hb0).
    rewrite splitr_last in Hs by assumption. discriminate.
Qed.

End Wire_helpers.

Section Wire_round_trip.

Import Wire.
#[local] Open Scope list_scope.

Context `{D : Dates}.

Lemma expectl_app (needle rest : list byte) :
  expectl (needle ++ rest) needle = Some rest.
Proof.
  unfold expectl, subarray, byteLength.
  rewrite slice_take, slice_drop, take_app_length, drop_app_length, equals_refl.
  reflexivity.
Qed.

Lemma suffix_take_drop (rest suffix : list byte) :
  take (length (rest ++ suffix) - length suffix) (rest ++ suffix) = rest
  /\ drop (length (rest ++ suffix) - length suffix) (rest ++ suffix) = suffix.
Proof.
  rewrite length_app.
  replace (length rest + length suffix - length suffix)%nat with (length rest)
    by lia.
  rewrite take_app_length, drop_app_length. auto.
Qed.

Lemma expectr_app (rest needle : list byte) :
  needle <> [] -> expectr (rest ++ needle) needle = Some rest.
Proof.
  intros Hne. unfold expectr, subarray, byteLength.
  assert (0 < length needle)%nat as Hlen
    by (destruct needle; [congruence|simpl; lia]).
  replace (-1 * Z.of_nat (length needle)) with (- Z.of_nat (length needle))
    by lia.
  rewrite slice_last, slice_but_last by assumption.
  destruct (suffix_take_drop rest needle) as [-> ->].
  rewrite equals_refl. reflexivity.
Qed.

(** A template that ends with the quote, followed by text without
    quotes: [splitr] returns the text and leaves the template in
    place. *)
Lemma splitr_after (front template text : list byte) :
  template = take (length template - 1) template ++ [x22] ->
  x22 ∉ text ->
  splitr ((front ++ template) ++ text) x22 = Some (text, front ++ template).
Proof.
  intros Ht Htext. rewrite Ht at 1 2.
  rewrite (app_assoc front), <- (app_assoc (front ++ _) [x22] text).
  apply splitr_last. assumption.
Qed.

Lemma boolr_false (rest : list byte) :
  boolr (rest ++ t_notnull) t_null t_notnull = Some (0, rest).
Proof.
  unfold boolr, subarray.
  replace (-1 * byteLength t_null) with (- Z.of_nat 18) by reflexivity.
  replace (-1 * byteLength t_notnull) with (- Z.of_nat (length t_notnull))
    by reflexivity.
  rewrite !slice_last, slice_but_last by (simpl; lia).
  destruct (suffix_take_drop rest t_notnull) as [-> ->].
  rewrite drop_app_ge by (rewrite length_app; simpl; lia).
  replace (length (rest ++ t_notnull) - 18 - length rest)%nat with 1%nat
    by (rewrite length_app; simpl; lia).
  reflexivity.
Qed.

(** On [true] the code strips the length of the [false] template, one
    byte more than the template that matched. *)
Lemma boolr_true (rest : list byte) (b : byte) :
  boolr ((rest ++ [b]) ++ t_null) t_null t_notnull = Some (1, rest).
Proof.
  unfold boolr, subarray.
  replace (-1 * byteLength t_null) with (- Z.of_nat (length t_null))
    by reflexivity.
  replace (-1 * byteLength t_notnull) with (- Z.of_nat (length ([b] ++ t_null)))
    by reflexivity.
  rewrite slice_last, slice_but_last by (simpl; lia).
  destruct (suffix_take_drop (rest ++ [b]) t_null) as [_ ->].
  rewrite equals_refl. rewrite <- (app_assoc rest [b] t_null).
  destruct (suffix_take_drop rest ([b] ++ t_null)) as [-> _]. reflexivity.
Qed.

(** A line of the export format, read by the importer's loop body. *)
Lemma parseLine_shape (did operation cid date flag : list byte) (bit : Z)
    (kept : list byte) :
  x22 ∉ did -> x22 ∉ kept -> x22 ∉ date ->
  boolr (((operation ++ t_cid) ++ cid) ++ flag) t_null t_notnull
    = Some (bit, (operation ++ t_cid) ++ kept) ->
  parseLine
    (t_didplc ++ did ++ x22 :: t_op ++ operation ++ t_cid ++ cid ++ flag
       ++ t_createdAt ++ date ++ t_end)
  = Some {| row_cid := kept;
            row_did := did;
            row_operation := operation;
            row_nullified := bit;
            row_created_at := parse_ms (decode_text date) |}.
Proof.
  intros Hdid Hkept Hdate Hflag. unfold parseLine.
  rewrite expectl_app. cbn [mbind option_bind].
  rewrite splitl_first by assumption. cbn [mbind option_bind].
  rewrite expectl_app. cbn [mbind option_bind].
  rewrite !app_assoc. rewrite expectr_app by discriminate.
  cbn [mbind option_bind].
  rewrite splitr_after by (reflexivity || assumption).
  cbn [mbind option_bind].
  rewrite expectr_app by discriminate. cbn [mbind option_bind].
  rewrite Hflag. cbn [mbind option_bind].
  rewrite splitr_after by (reflexivity || assumption).
  cbn [mbind option_bind].
  rewrite expectr_app by discriminate. reflexivity.
Qed.

(** X17. Export, then import. For a row that is not nullified, whose
    [did], [cid] and printed date hold no double quote, the importer
    reads back from the exported line the stored [did], [cid] and
    [operation], whatever bytes the operation holds, and [nullified] as
    [0].  [created_at] is not read back as stored but as [Date.parse] of
    the date that [toJSON] printed: the stored number when the date
    prints and parses back, [NaN] when it is out of the range of
    dates. *)
Theorem parseLine_encode (row : StoredRow) :
  st_nullified row = 0 ->
  x22 ∉ st_did row -> x22 ∉ st_cid row ->
  x22 ∉ encode_text (toJSON (st_created_at row)) ->
  parseLine (concat (encode row true))
  = Some {| row_cid := st_cid row;
            row_did := st_did row;
            row_operation := st_operation row;
            row_nullified := 0;
            row_created_at := parse_ms (toJSON (st_created_at row)) |}.
Proof.
  intros Hlive Hdid Hcid Hdate.
  pose proof (parseLine_shape (st_did row) (st_operation row) (st_cid row)
                (encode_text (toJSON (st_created_at row))) t_notnull 0
                (st_cid row) Hdid Hcid Hdate (boolr_false _)) as Hshape.
  unfold decode_text in Hshape. unfold encode_text in Hshape.
  rewrite string_of_list_byte_of_string in Hshape.
  rewrite <- Hshape. f_equal. unfold encode, encode_text. rewrite Hlive.
  cbn [Z.eqb negb concat]. rewrite app_nil_r. reflexivity.
Qed.

(** X18. A nullified row does not survive the trip: the importer reads its
    [cid] without the last byte, because [boolr] strips the length of
    the [false] template where the [true] template matched. *)
Theorem parseLine_encode_nullified (row : StoredRow) (kept : list byte)
    (last_byte : byte) :
  st_nullified row <> 0 ->
  st_cid row = kept ++ [last_byte] ->
  x22 ∉ st_did row -> x22 ∉ kept ->
  x22 ∉ encode_text (toJSON (st_created_at row)) ->
  parseLine (concat (encode row true))
  = Some {| row_cid := kept;
            row_did := st_did row;
            row_operation := st_operation row;
            row_nullified := 1;
            row_created_at := parse_ms (toJSON (st_created_at row)) |}.
Proof.
  intros Hnull Hcid Hdid Hkept Hdate.
  pose proof (parseLine_shape (st_did row) (st_operation row) (st_cid row)
                (encode_text (toJSON (st_created_at row))) t_null 1
                kept Hdid Hkept Hdate) as Hshape.
  unfold decode_text in Hshape. unfold encode_text in Hshape.
  rewrite string_of_list_byte_of_string in Hshape.
  rewrite <- Hshape.
  - f_equal. unfold encode, encode_text.
    replace (st_nullified row =? 0) with false
      by (symmetry; apply Z.eqb_neq; assumption).
    cbn [negb concat]. rewrite app_nil_r. reflexivity.
  - rewrite Hcid, (app_assoc _ kept [last_byte]). apply boolr_true.
Qed.

End Wire_round_trip.

(** * Cutting the stream into lines *)

Section Stream_lines.

Import Stream.
#[local] Open Scope list_scope.

Lemma slice_range {A} (l : list A) (a b : nat) :
  (a <= b <= length l)%nat ->
  JS.slice l (Z.of_nat a) (Some (Z.of_nat b)) = take (b - a) (drop a l).
Proof.
  intros Hab. unfold JS.slice, JS.relative_index.
  replace (Z.of_nat a <? 0) with false by (symmetry; apply Z.ltb_ge; lia).
  replace (Z.of_nat b <? 0) with false by (symmetry; apply Z.ltb_ge; lia).
  rewrite !Z.min_l by lia. rewrite Nat2Z.id. f_equal. lia.
Qed.

Lemma split_lines_app (pending0 data1 data2 : list byte) :
  split_lines pending0 (data1 ++ data2) =
    ((split_lines pending0 data1).1
       ++ (split_lines (split_lines pending0 data1).2 data2).1,
     (split_lines (split_lines pending0 data1).2 data2).2).
Proof.
  revert pending0. induction data1 as [|b data1 IH]; intros pending0.
  - simpl. destruct (split_lines pending0 data2). reflexivity.
  - simpl. destruct (Byte.eqb b x0a).
    + rewrite (IH []). destruct (split_lines [] data1) as [ls r]. reflexivity.
    + apply IH.
Qed.

Lemma scan_spec (prevBuf value : list byte) :
  forall rest i start prev lines start' prev',
    drop i value = rest -> (start <= i <= length value)%nat ->
    scan prevBuf value rest i start prev = (lines, (start', prev')) ->
    split_lines (pending prevBuf prev ++ take (i - start) (drop start value)) rest
      = (lines, pending prevBuf prev' ++ drop start' value)
    /\ (start' <= length value)%nat
    /\ (prev' = prev \/ prev' = None).
Proof.
  induction rest as [|b rest IH]; intros i start prev lines start' prev' Hrest Hi.
  - simpl. intros [= <- <- <-].
    assert (i = length value) as ->.
    { apply (f_equal length) in Hrest. rewrite length_drop in Hrest.
      simpl in Hrest. lia. }
    rewrite take_ge by (rewrite length_drop; lia).
    split_and!; [reflexivity|lia|auto].
  - assert (value !! i = Some b) as Hb.
    { rewrite <- (Nat.add_0_r i), <- lookup_drop, Hrest. reflexivity. }
    assert (drop (S i) value = rest) as Hrest'.
    { rewrite (drop_S value b i Hb) in Hrest. congruence. }
    pose proof (lookup_lt_Some _ _ _ Hb) as Hlt.
    cbn [scan split_lines]. destruct (Byte.eqb b x0a).
    + destruct (scan prevBuf value rest (S i) (S i) None)
        as [lines0 [start0 prev0]] eqn:Hscan.
      intros [= <- <- <-].
      destruct (IH (S i) (S i) None lines0 start0 prev0 Hrest' ltac:(lia) Hscan)
        as (Hsplit & Hstart & Hprev).
      rewrite Nat.sub_diag, take_0 in Hsplit. cbn [pending app] in Hsplit.
      rewrite Hsplit. split_and!; [|assumption|right; tauto].
      f_equal. f_equal. unfold Stream.subarray. cbn [fmap option_fmap option_map].
      rewrite slice_range by lia. destruct prev; reflexivity.
    + intros Hscan.
      destruct (IH (S i) start prev lines start' prev' Hrest' ltac:(lia) Hscan)
        as (Hsplit & Hstart & Hprev).
      split_and!; [|assumption..]. rewrite <- Hsplit. f_equal.
      rewrite <- app_assoc. f_equal.
      replace (S i - start)%nat with (S (i - start)) by lia.
      symmetry. apply take_S_r. rewrite lookup_drop.
      replace (start + (i - start))%nat with i by lia. assumption.
Qed.

Lemma keepTail_spec (prevBuf : list byte) (prev : option nat)
    (value : list byte) (start : nat) :
  valid_view prevBuf prev -> (start <= length value)%nat ->
  exists prevBuf' prev',
    keepTail prevBuf prev value start = Some (prevBuf', prev')
    /\ pending prevBuf' prev' = pending prevBuf prev ++ drop start value
    /\ valid_view prevBuf' prev'.
Proof.
  intros Hvalid Hstart. unfold keepTail. cbv zeta.
  destruct (length value - start =? 0)%nat eqn:Hkeep.
  - apply Nat.eqb_eq in Hkeep. exists prevBuf, prev.
    rewrite drop_ge by lia. rewrite app_nil_r. auto.
  - apply Nat.eqb_neq in Hkeep.
    set (keep := (length value - start)%nat) in *.
    set (lp := from_option id 0%nat prev).
    assert (length (pending prevBuf prev) = lp) as Hlp.
    { unfold pending, lp, contents. destruct prev as [view|]; [|reflexivity].
      destruct (Hvalid view eq_refl). rewrite length_take. simpl. lia. }
    assert (length (Stream.subarray value start None) = keep) as Htail.
    { unfold Stream.subarray. cbn [fmap option_fmap option_map].
      rewrite slice_drop, length_drop. reflexivity. }
    assert (exists buf1,
      (if (length prevBuf <? lp + keep)%nat then
         match prev with
         | Some view =>
             target ← newView (newArrayBuffer ((lp + keep) * 2)) view;
             set (newArrayBuffer ((lp + keep) * 2)) target
               (contents prevBuf view) 0
         | None => Some (newArrayBuffer ((lp + keep) * 2))
         end
       else Some prevBuf) = Some buf1
      /\ take lp buf1 = pending prevBuf prev
      /\ (lp + keep <= length buf1)%nat) as (buf1 & -> & Hbuf1 & Hcap).
    { destruct (length prevBuf <? lp + keep)%nat eqn:Hgrow.
      - destruct prev as [view|].
        + destruct (Hvalid view eq_refl) as [Hpos Hle].
          change lp with view in *. unfold newView, newArrayBuffer.
          rewrite length_replicate.
          replace (((view + keep) * 2 <? view)%nat) with false
            by (symmetry; apply Nat.ltb_ge; lia).
          cbn [mbind option_bind]. unfold set, contents.
          rewrite length_take, Nat.min_l by lia.
          replace ((view <? 0 + view)%nat) with false
            by (symmetry; apply Nat.ltb_ge; lia).
          eexists. split; [reflexivity|]. rewrite take_0. cbn [app]. split.
          * rewrite take_app_length' by (rewrite length_take; lia).
            reflexivity.
          * rewrite length_app, length_take, length_drop, length_replicate. lia.
        + eexists. split; [reflexivity|]. change lp with 0%nat. split;
            [reflexivity|].
          unfold newArrayBuffer. rewrite length_replicate. lia.
      - apply Nat.ltb_ge in Hgrow. exists prevBuf.
        split; [reflexivity|]. split; [|assumption].
        unfold pending, lp, contents. destruct prev; reflexivity. }
    cbn [mbind option_bind]. unfold newView.
    replace ((length buf1 <? lp + keep)%nat) with false
      by (symmetry; apply Nat.ltb_ge; lia).
    cbn [mbind option_bind]. unfold set. rewrite Htail.
    replace ((lp + keep <? lp + keep)%nat) with false
      by (symmetry; apply Nat.ltb_ge; lia).
    cbn [mbind option_bind]. eexists _, _. split; [reflexivity|]. split.
    + unfold pending at 1. unfold contents. rewrite Hbuf1.
      rewrite app_assoc. rewrite take_app_length'.
      * unfold Stream.subarray. cbn [fmap option_fmap option_map].
        rewrite slice_drop. reflexivity.
      * rewrite length_app, Hlp, Htail. reflexivity.
    + intros view [= <-]. rewrite !length_app, length_take, length_drop, Htail.
      lia.
Qed.

Lemma readLoop_spec (chunks : list (list byte)) :
  forall prevBuf prev,
    valid_view prevBuf prev ->
    readLoop prevBuf prev chunks
      = Some (with_remainder (split_lines (pending prevBuf prev) (concat chunks))).
Proof.
  induction chunks as [|value chunks IH]; intros prevBuf prev Hvalid.
  - simpl. f_equal. unfold with_remainder, pending, contents. cbn [fst snd app].
    destruct prev as [view|]; [|reflexivity].
    destruct (Hvalid view eq_refl) as [Hpos Hle].
    destruct (take view prevBuf) eqn:E; [|reflexivity].
    apply (f_equal length) in E. rewrite length_take in E. simpl in E. lia.
  - cbn [readLoop concat].
    destruct (scan prevBuf value value 0 0 prev) as [lines [start prev1]] eqn:Hscan.
    destruct (scan_spec prevBuf value value 0 0 prev lines start prev1
                (drop_0 value) ltac:(lia) Hscan) as (Hsplit & Hstart & Hprev).
    rewrite Nat.sub_diag, take_0, app_nil_r in Hsplit.
    assert (valid_view prevBuf prev1) as Hvalid1.
    { destruct Hprev as [-> | ->]; [assumption|]. intros view [=]. }
    destruct (keepTail_spec prevBuf prev1 value start Hvalid1 Hstart)
      as (prevBuf' & prev' & -> & Hpend & Hvalid').
    cbn [mbind option_bind]. rewrite (IH prevBuf' prev' Hvalid').
    cbn [mbind option_bind]. f_equal.
    rewrite split_lines_app, Hsplit. cbn [fst snd]. rewrite Hpend.
    unfold with_remainder. cbn [fst snd]. rewrite app_assoc. reflexivity.
Qed.

(** X19. [readStream] yields the lines of the concatenated chunks: where the
    chunks are cut makes no difference, an empty line between two
    newlines is kept, and a last line without newline is yielded when it
    is not empty.  No write ever falls outside the buffer. *)
Theorem readStream_lines (chunks : list (list byte)) :
  readStream chunks = Some (lines_of (concat chunks)).
Proof.
  unfold readStream, lines_of.
  rewrite (readLoop_spec chunks (newArrayBuffer 100) None); [reflexivity|].
  intros view [=].
Qed.

End Stream_lines.

Section Export_stream.

Import Wire Stream.
#[local] Open Scope list_scope.

Context `{D : Dates}.

Lemma split_no_newline (pending0 segment : list byte) :
  x0a ∉ segment -> split_lines pending0 segment = ([], pending0 ++ segment).
Proof.
  revert pending0. induction segment as [|b segment IH]; intros pending0 Hseg.
  - rewrite app_nil_r. reflexivity.
  - apply not_elem_of_cons in Hseg as [Hb Hseg]. simpl.
    rewrite eqb_other by congruence. rewrite IH by assumption.
    rewrite <- app_assoc. reflexivity.
Qed.

Lemma encode_not_first (row : StoredRow) :
  concat (encode row false) = x0a :: concat (encode row true).
Proof. reflexivity. Qed.

Lemma exportChunks_rest (rows : list StoredRow) :
  concat (exportChunks false rows)
  = concat ((fun row => x0a :: concat (encode row true)) <$> rows).
Proof.
  induction rows as [|row rows IH]; [reflexivity|].
  cbn [exportChunks fmap list_fmap concat].
  rewrite concat_app, encode_not_first, IH. reflexivity.
Qed.

Lemma split_rows (rows : list StoredRow) :
  Forall (fun row => x0a ∉ concat (encode row true)) rows ->
  forall pending0,
    pending0 <> [] ->
    with_remainder
      (split_lines pending0
         (concat ((fun row => x0a :: concat (encode row true)) <$> rows)))
    = pending0 :: ((fun row => concat (encode row true)) <$> rows).
Proof.
  induction 1 as [|row rows Hrow _ IH]; intros pending0 Hp.
  - simpl. unfold with_remainder. cbn [fst snd app].
    destruct pending0; [congruence|reflexivity].
  - cbn [fmap list_fmap concat app split_lines].
    rewrite Byte.byte_dec_lb by reflexivity.
    rewrite split_lines_app, split_no_newline by assumption.
    cbn [fst snd app].
    specialize (IH (concat (encode row true)) ltac:(discriminate)).
    unfold with_remainder in *. cbn [fst snd] in *.
    destruct (split_lines _ _) as [ls rem]. cbn [fst snd app] in *.
    rewrite IH. reflexivity.
Qed.

(** X20. Export, then cut into lines. However the body of an export response
    is cut into chunks on its way, [readStream] yields one line per
    row, each being the row's encoding as a first row, provided no field
    holds a newline. *)
Theorem export_then_readStream (rows : list StoredRow)
    (chunks : list (list byte)) :
  concat chunks = concat (exportChunks true rows) ->
  Forall (fun row => x0a ∉ concat (encode row true)) rows ->
  readStream chunks = Some ((fun row => concat (encode row true)) <$> rows).
Proof.
  intros Hbody Hrows. unfold readStream.
  rewrite (readLoop_spec chunks (newArrayBuffer 100) None)
    by (intros view [=]).
  f_equal. rewrite Hbody. cbn [pending].
  destruct Hrows as [|row rows Hrow Hrows]; [reflexivity|].
  cbn [exportChunks]. rewrite concat_app, exportChunks_rest.
  rewrite split_lines_app, split_no_newline by assumption.
  cbn [fst snd app].
  pose proof (split_rows rows Hrows (concat (encode row true))
                ltac:(discriminate)) as Hsplit.
  unfold with_remainder in *. cbn [fst snd] in *.
  destruct (split_lines _ _) as [ls rem]. cbn [fst snd app] in *.
  exact Hsplit.
Qed.

End Export_stream.

(** * The surviving history *)

Section Replay.

Context `{RT : Runtime Cid}.

#[local] Open Scope list_scope.

Lemma step_Ok_appends (did : string) (ops : list IndexedOperation)
    (proposed : IndexedOperation) (r : StepResult) :
  assureValidNextOp did ops proposed = Ok r ->
  exists kept, res_ops r = (kept ++ [proposed])%list.
Proof.
  intros Hok. destruct ops as [|g0 ops'] eqn:Hops.
  - apply step_genesis_Ok in Hok as [-> _]. exists []. reflexivity.
  - rewrite <- Hops in *.
    assert (ops <> []) as Hne by (rewrite Hops; discriminate).
    destruct (step_Ok_inv did ops proposed r Hne Hok)
      as (s & c & i & head & h & Hprev & Hs & Hc & Href & Hhead).
    destruct (step_located_result did ops proposed s c i head r)
      as (Hr & _ & _); try assumption.
    eauto.
Qed.

Lemma validateLoop_last (did : string) (history log final : list IndexedOperation)
    (op : IndexedOperation) :
  validateLoop did history (log ++ [op]) = Ok final -> last final = Some op.
Proof.
  rewrite validateLoop_app.
  destruct (validateLoop did history log) as [mid|e]; [|discriminate].
  cbn [bind validateLoop].
  destruct (assureValidNextOp did mid op) as [r|e] eqn:Hstep; [|discriminate].
  cbn [bind]. intros [= <-].
  destruct (step_Ok_appends did mid op r Hstep) as [kept ->].
  apply last_snoc.
Qed.

(** X21. The document of an accepted log is that of its last operation: the
    log decides whether validation succeeds, the last operation alone
    decides what it resolves to. *)
Theorem accepted_log_document (did : string) (log : list IndexedOperation)
    (op : IndexedOperation) (result : option DocumentData) :
  validateOperationLog did (log ++ [op]) = Ok result ->
  result = opToData did (operation op).
Proof.
  unfold validateOperationLog.
  destruct (validateLoop did [] (log ++ [op])) as [final|e] eqn:Hloop;
    [|discriminate].
  cbn [bind]. rewrite at_last, (validateLoop_last did [] log final op Hloop).
  congruence.
Qed.

(** X22. The two ways to a document agree: what [assureValidCreationOp]
    returns for a genesis is what [opToData] derives from it. *)
Theorem creation_document (did : string) (op : CompatibleOpOrTombstone)
    (doc : DocumentData) :
  assureValidCreationOp did op = Ok doc -> opToData did op = Some doc.
Proof.
  unfold assureValidCreationOp, opToData. destruct op as [cop|t]; [|discriminate].
  destruct (assureValidSig _ _); [|discriminate]. cbn [bind].
  destruct (negb _); [discriminate|]. destruct (prev cop); [discriminate|].
  congruence.
Qed.

Lemma refers_to_agree (c : string) (l l' : list IndexedOperation) (i : nat)
    (a : IndexedOperation) :
  refers_to c l i a ->
  (forall j, (j <= i)%nat -> l' !! j = l !! j) ->
  refers_to c l' i a.
Proof.
  intros (Hi & Hc & Hfirst) Hsame. split_and!.
  - rewrite Hsame by lia. assumption.
  - assumption.
  - intros j y Hj Hlt. rewrite Hsame in Hj by lia. eauto.
Qed.

Lemma lookup_fork (ops : list IndexedOperation) (i j : nat)
    (proposed : IndexedOperation) :
  (i < length ops)%nat -> (j <= i)%nat ->
  (take (S i) ops ++ [proposed])%list !! j = ops !! j.
Proof.
  intros Hi Hj. rewrite lookup_app_l by (rewrite length_take; lia).
  apply lookup_take_lt. lia.
Qed.

Lemma step_chained (did : string) (history : list IndexedOperation)
    (proposed : IndexedOperation) (r : StepResult) :
  chained history -> assureValidNextOp did history proposed = Ok r ->
  chained (res_ops r).
Proof.
  intros Hch Hok. destruct history as [|g0 history'] eqn:Hhist.
  - apply step_genesis_Ok in Hok as [-> _]. intros [|j] a b Ha Hb; discriminate.
  - rewrite <- Hhist in *.
    assert (history <> []) as Hne by (rewrite Hhist; discriminate).
    destruct (step_Ok_inv did history proposed r Hne Hok)
      as (s & c & i & head & h & Hprev & Hs & Hc & Href & Hhead).
    destruct (step_located_result did history proposed s c i head r)
      as (-> & _ & _); try assumption.
    pose proof (lookup_lt_Some _ _ _ (proj1 Href)) as Hlt.
    intros j a b Ha Hb.
    assert (length (take (S i) history) = S i) as Hlen
      by (rewrite length_take; lia).
    destruct (decide (S j < S i)%nat) as [Hin|Hout].
    + rewrite lookup_fork in Ha, Hb by lia.
      destruct (Hch j a b Ha Hb) as (s' & c' & h' & H1 & H2 & H3 & H4 & H5 & H6).
      exists s', c', h'. split_and!; try assumption.
      apply (refers_to_agree _ history); [assumption|].
      intros k Hk. apply lookup_fork; lia.
    + destruct (decide (j = i)) as [->|Hneq].
      * rewrite lookup_fork in Ha by lia.
        rewrite lookup_app_r in Hb by lia. rewrite Hlen, Nat.sub_diag in Hb.
        injection Hb as <-.
        assert (a = head) as -> by (destruct Href as (Hi & _); congruence).
        exists s, c, h. split_and!; try assumption.
        -- apply (refers_to_agree _ history); [assumption|].
           intros k Hk. apply lookup_fork; lia.
        -- eapply step_Ok_authorised; eassumption.
      * rewrite lookup_app_r in Hb by lia. rewrite Hlen in Hb.
        destruct (S j - S i)%nat as [|m] eqn:Hm; [lia|discriminate].
Qed.

Lemma validateLoop_chained (did : string)
    (history log final : list IndexedOperation) :
  chained history -> validateLoop did history log = Ok final -> chained final.
Proof.
  revert history. induction log as [|op log IH]; intros history Hch Hok.
  - injection Hok as <-. assumption.
  - simpl in Hok.
    destruct (assureValidNextOp did history op) as [r|e] eqn:Hstep; [|discriminate].
    cbn [bind] in Hok. apply (IH (res_ops r)); [|assumption].
    eapply step_chained; eassumption.
Qed.

Lemma replay_from (did : string) (rest : list IndexedOperation) :
  forall confirmed,
    confirmed <> [] -> chained (confirmed ++ rest) ->
    validateLoop did confirmed rest = Ok (confirmed ++ rest)%list.
Proof.
  induction rest as [|b rest IH]; intros confirmed Hne Hch.
  - rewrite app_nil_r. reflexivity.
  - destruct (exists_last Hne) as (front & a & ->).
    assert (((front ++ [a]) ++ b :: rest) !! length front = Some a) as Ha.
    { rewrite <- app_assoc. apply list_lookup_middle. reflexivity. }
    assert (((front ++ [a]) ++ b :: rest) !! S (length front) = Some b) as Hb.
    { rewrite lookup_app_r by (rewrite length_app; simpl; lia).
      rewrite length_app. simpl.
      replace (S (length front) - (length front + 1))%nat with 0%nat by lia.
      reflexivity. }
    destruct (Hch _ a b Ha Hb) as (s & c & h & Hprev & Hs & Hc & Href & Hhead & Hsig).
    assert (refers_to (CID_toString c) (front ++ [a]) (length front) a) as Href'.
    { apply (refers_to_agree _ _ _ _ _ Href). intros j Hj.
      rewrite (lookup_app_l (front ++ [a])) by (rewrite length_app; simpl; lia).
      reflexivity. }
    cbn [validateLoop].
    rewrite (assureValidNextOp_located did (front ++ [a]) b s c (length front) a)
      by assumption.
    unfold spec_cases_DEF. rewrite Hhead.
    rewrite drop_ge by (rewrite length_app; simpl; lia).
    destruct Hsig as [k ->]. cbn [bind res_ops].
    rewrite (IH ((front ++ [a]) ++ [b])).
    + rewrite <- (app_assoc _ [b] rest). reflexivity.
    + intros Hnil. apply app_eq_nil in Hnil as [_ [=]].
    + rewrite <- (app_assoc _ [b] rest). assumption.
Qed.

(** X23. Validation is idempotent on what survives. The final history of an
    accepted log is itself an accepted log: validated again from the
    start it is confirmed operation by operation, nothing is nullified,
    and the same history comes out. *)
Theorem accepted_history_replays (did : string)
    (log history : list IndexedOperation) :
  validateLoop did [] log = Ok history ->
  validateLoop did [] history = Ok history.
Proof.
  intros Hok.
  assert (chained history) as Hch.
  { apply (validateLoop_chained did [] log history); [|assumption].
    intros [|j] a b Ha Hb; discriminate. }
  destruct log as [|g rest].
  - injection Hok as <-. reflexivity.
  - destruct (accepted_log_genesis_aux did g rest history Hok)
      as (cg & tail & -> & Hop & Hprev & Hdid & [k Hsig]).
    cbn [validateLoop]. unfold assureValidNextOp at 1. cbn [length Nat.eqb].
    unfold assureValidCreationOp. rewrite Hop. rewrite Hop in Hsig, Hprev.
    rewrite Hsig. cbn [bind]. rewrite Hdid, String.eqb_refl. cbn [negb].
    rewrite Hprev. cbn [bind res_ops].
    apply (replay_from did tail [g]); [discriminate|assumption].
Qed.

End Replay.

(** * The export response, pull by pull *)

Section Export_pulls.

Import Wire Serve.
#[local] Open Scope list_scope.

Context `{D : Dates}.

Lemma push_all_spec (bufs : list (list byte)) :
  forall written chunks,
    push_all bufs written chunks
    = (written + byteLength (concat bufs), chunks ++ bufs).
Proof.
  unfold push_all, byteLength.
  induction bufs as [|buf bufs IH]; intros written chunks; simpl.
  - rewrite Z.add_0_r, app_nil_r. reflexivity.
  - rewrite IH, length_app, <- app_assoc. f_equal. unfold byteLength. lia.
Qed.

Lemma fill_spec (rows : list StoredRow) :
  forall written chunks first0,
    written = byteLength (concat chunks) ->
    exists written' chunks' close cursor',
      fill written chunks first0 rows = (written', chunks', close, cursor')
      /\ written' = byteLength (concat chunks')
      /\ concat chunks'
           ++ concat (exportChunks (first cursor') (pending_rows cursor'))
         = concat chunks ++ concat (exportChunks first0 rows)
      /\ (close = true -> pending_rows cursor' = [])
      /\ (length (pending_rows cursor') <= length rows)%nat
      /\ (close = false -> written < 1000 * 500 ->
          (length (pending_rows cursor') < length rows)%nat).
Proof.
  induction rows as [|value rows IH]; intros written chunks first0 Hw.
  - cbn [fill]. destruct (written <? 1000 * 500) eqn:Hlt.
    + eexists _, _, _, _. split; [reflexivity|]. cbn [first pending_rows].
      split_and!; auto; discriminate.
    + eexists _, _, _, _. split; [reflexivity|]. cbn [first pending_rows].
      apply Z.ltb_ge in Hlt. split_and!; auto; try discriminate.
      intros _ Hcontra. lia.
  - cbn [fill]. destruct (written <? 1000 * 500) eqn:Hlt.
    + rewrite push_all_spec.
      destruct (IH (written + byteLength (concat (encode value first0)))
                   (chunks ++ encode value first0) false)
        as (w' & c' & close & cur & Hfill & Hw' & Hcat & Hclose & Hle & _).
      { subst written. unfold byteLength. rewrite concat_app, length_app. lia. }
      exists w', c', close, cur. split; [assumption|].
      split_and!; try assumption.
      * rewrite Hcat. cbn [exportChunks].
        rewrite !concat_app, <- app_assoc. reflexivity.
      * simpl. lia.
      * intros _ _. simpl. lia.
    + eexists _, _, _, _. split; [reflexivity|]. cbn [first pending_rows].
      apply Z.ltb_ge in Hlt. split_and!; auto; try discriminate.
      intros _ Hcontra. lia.
Qed.

Lemma write_all_spec (chunks : list (list byte)) :
  forall output index,
    (index + length (concat chunks) <= length output)%nat ->
    write_all output chunks index
    = Some (take index output ++ concat chunks
              ++ drop (index + length (concat chunks)) output).
Proof.
  induction chunks as [|buffer chunks IH]; intros output index Hfit.
  - simpl. rewrite Nat.add_0_r, take_drop. reflexivity.
  - simpl in Hfit. rewrite length_app in Hfit.
    cbn [write_all]. unfold Stream.set.
    destruct (length output <? index + length buffer)%nat eqn:Hlt;
      [apply Nat.ltb_lt in Hlt; lia|].
    cbn [mbind option_bind].
    set (output' := take index output ++ buffer
                      ++ drop (index + length buffer) output).
    assert (length output' = length output) as Hlen.
    { unfold output'. rewrite !length_app, length_take, length_drop. lia. }
    rewrite IH by lia. f_equal.
    assert (take (index + length buffer) output' = take index output ++ buffer)
      as ->.
    { unfold output'. rewrite app_assoc. apply take_app_length'.
      rewrite length_app, length_take. lia. }
    assert (drop (index + length buffer + length (concat chunks)) output'
            = drop (index + (length buffer + length (concat chunks))) output)
      as ->.
    { unfold output'. rewrite app_assoc.
      rewrite drop_app_ge by (rewrite length_app, length_take; lia).
      rewrite length_app, length_take, drop_drop. f_equal. lia. }
    simpl. rewrite length_app, <- !app_assoc. reflexivity.
Qed.

Lemma pull_spec (request : option (list byte)) (cursor : Cursor) :
  exists received close cursor',
    pull request cursor = Some (received, close, cursor')
    /\ received <> Some []
    /\ received_bytes received
         ++ concat (exportChunks (first cursor') (pending_rows cursor'))
       = concat (exportChunks (first cursor) (pending_rows cursor))
    /\ (close = true -> pending_rows cursor' = [])
    /\ (close = false ->
        (length (pending_rows cursor') < length (pending_rows cursor))%nat).
Proof.
  unfold pull.
  destruct (fill_spec (pending_rows cursor) 0 [] (first cursor) eq_refl)
    as (written & chunks & close & cursor' & -> & Hw & Hcat & Hclose & _ & Hlt).
  specialize (fun H => Hlt H ltac:(lia)). simpl in Hcat.
  destruct (written =? 0) eqn:Hzero.
  - apply Z.eqb_eq in Hzero. exists None, close, cursor'.
    split; [reflexivity|]. split; [discriminate|]. split; [|auto].
    rewrite <- Hcat. unfold byteLength in Hw.
    destruct (concat chunks); [reflexivity|simpl in Hw; lia].
  - apply Z.eqb_neq in Hzero. unfold byteLength in Hw.
    assert (Z.to_nat written = length (concat chunks)) as Hnat by lia.
    assert (concat chunks <> []) as Hne
      by (intros Hnil; rewrite Hnil in Hw; simpl in Hw; lia).
    destruct request as [region|];
      [destruct (written <=? byteLength region) eqn:Hfits|].
    + apply Z.leb_le in Hfits. unfold byteLength in Hfits.
      rewrite write_all_spec by (simpl; lia). cbn [mbind option_bind].
      eexists _, close, cursor'. split; [reflexivity|].
      rewrite take_0, Hnat. cbn [app]. rewrite take_app_length.
      split; [congruence|]. split; [exact Hcat|auto].
    + rewrite write_all_spec
        by (unfold Stream.newArrayBuffer; rewrite length_replicate; simpl; lia).
      cbn [mbind option_bind]. eexists _, close, cursor'.
      split; [reflexivity|].
      rewrite take_0, drop_ge
        by (unfold Stream.newArrayBuffer; rewrite length_replicate; simpl; lia).
      cbn [app]. rewrite app_nil_r.
      split; [congruence|]. split; [exact Hcat|auto].
    + rewrite write_all_spec
        by (unfold Stream.newArrayBuffer; rewrite length_replicate; simpl; lia).
      cbn [mbind option_bind]. eexists _, close, cursor'.
      split; [reflexivity|].
      rewrite take_0, drop_ge
        by (unfold Stream.newArrayBuffer; rewrite length_replicate; simpl; lia).
      cbn [app]. rewrite app_nil_r.
      split; [congruence|]. split; [exact Hcat|auto].
Qed.

(** X24. The export response delivers the rows and closes. From any point of
    the stream (at the start [first] is set and all rows are pending),
    whatever BYOB regions the pulls are answered with, once there are
    more pulls than pending rows the stream is closed, nothing
    delivered is empty, no write falls outside its buffer, and the bytes
    delivered are, end to end, the encodings of the pending rows, the
    first one without a leading newline when [first] is set. *)
Theorem export_body (requests : list (option (list byte))) :
  forall cursor : Cursor,
    (length (pending_rows cursor) < length requests)%nat ->
    exists delivered,
      body requests cursor = Some (delivered, true)
      /\ Forall (fun bytes => bytes <> []) delivered
      /\ concat delivered
         = concat (exportChunks (first cursor) (pending_rows cursor)).
Proof.
  induction requests as [|request requests IH]; intros cursor Hlen;
    [simpl in Hlen; lia|].
  destruct (pull_spec request cursor)
    as (received & close & cursor' & Hpull & Hne & Hcat & Hclose & Hlt).
  cbn [body]. rewrite Hpull. cbn [mbind option_bind].
  assert (Forall (fun bytes : list byte => bytes <> [])
            match received with Some bytes => [bytes] | None => [] end
          /\ concat match received with Some bytes => [bytes] | None => [] end
             = received_bytes received) as [Hall Hnow].
  { destruct received as [bytes|]; simpl.
    - rewrite app_nil_r. split; [|reflexivity].
      constructor; [congruence|constructor].
    - split; [constructor|reflexivity]. }
  destruct close.
  - eexists. split; [reflexivity|]. split; [assumption|].
    rewrite Hnow, <- Hcat, Hclose by reflexivity.
    simpl. rewrite app_nil_r. reflexivity.
  - specialize (Hlt eq_refl).
    destruct (IH cursor') as (later & -> & Hlater & Hcat').
    { simpl in Hlen. lia. }
    cbn [mbind option_bind]. eexists. split; [reflexivity|].
    split; [apply Forall_app; split; assumption|].
    rewrite concat_app, Hnow, Hcat'. exact Hcat.
Qed.

End Export_pulls.

(** * Importing a page *)

Section Import_page.

Import Wire Importer.
#[local] Open Scope list_scope.

Context `{D : Dates}.

Lemma seen_decide (st : State) (cid : list byte) :
  seen st cid = bool_decide (after_cid st = Some cid).
Proof.
  unfold seen. destruct (after_cid st) as [last|].
  - destruct (equals cid last) eqn:Heq.
    + apply equals_eq in Heq as ->. rewrite bool_decide_eq_true_2; reflexivity.
    + rewrite bool_decide_eq_false_2; [reflexivity|].
      intros [= ->]. rewrite equals_refl in Heq. discriminate.
  - rewrite bool_decide_eq_false_2; [reflexivity|discriminate].
Qed.

Lemma importLine_parsed (st : State) (rows : list ImportedRow)
    (line : list byte) (r : ImportedRow) :
  parseLine line = Some r ->
  importLine (st, rows) line
  = Some (if seen st (row_cid r) then (st, rows) else pushed st rows r).
Proof.
  unfold parseLine, importLine, pushed. intros Hparse.
  destruct (expectl line t_didplc) as [l1|]; [|discriminate].
  cbn [mbind option_bind] in *.
  destruct (splitl l1 x22) as [[did l2]|]; [|discriminate].
  cbn [mbind option_bind] in *.
  destruct (expectl l2 t_op) as [l3|]; [|discriminate].
  cbn [mbind option_bind] in *.
  destruct (expectr l3 t_end) as [l4|]; [|discriminate].
  cbn [mbind option_bind] in *.
  destruct (splitr l4 x22) as [[createdAt l5]|]; [|discriminate].
  cbn [mbind option_bind] in *.
  destruct (expectr l5 t_createdAt) as [l6|]; [|discriminate].
  cbn [mbind option_bind] in *.
  destruct (boolr l6 t_null t_notnull) as [[nullified l7]|]; [|discriminate].
  cbn [mbind option_bind] in *.
  destruct (splitr l7 x22) as [[cid l8]|]; [|discriminate].
  cbn [mbind option_bind] in *.
  destruct (expectr l8 t_cid) as [operation|]; [|discriminate].
  cbn [mbind option_bind] in *. injection Hparse as <-.
  cbn [row_cid row_created_at].
  destruct (seen st cid); [reflexivity|].
  destruct (500 <? _)%nat; reflexivity.
Qed.

Lemma last_cid_cons (start : option (list byte)) (r : ImportedRow)
    (kept : list ImportedRow) :
  last_cid start (r :: kept) = last_cid (Some (row_cid r)) kept.
Proof.
  unfold last_cid. rewrite last_cons. destruct (last kept); reflexivity.
Qed.

Lemma last_date_cons (start : option JS.number) (r : ImportedRow)
    (kept : list ImportedRow) :
  last_date start (r :: kept) = last_date (Some (row_created_at r)) kept.
Proof.
  unfold last_date. rewrite last_cons. destruct (last kept); reflexivity.
Qed.

Lemma importLines_spec (lines : list (list byte)) (parsed : list ImportedRow) :
  Forall2 (fun line r => parseLine line = Some r) lines parsed ->
  forall st rows,
    (length rows <= 500)%nat ->
    exists st' rows' full,
      importLines (st, rows) lines = Some (st', rows')
      /\ (length rows' <= 500)%nat
      /\ committed st' = committed st ++ full
      /\ Forall (fun batch => length batch = 501%nat) full
      /\ concat full ++ rows' = rows ++ fresh_rows (after_cid st) parsed
      /\ after_cid st'
         = last_cid (after_cid st) (fresh_rows (after_cid st) parsed)
      /\ after st' = last_date (after st) (fresh_rows (after_cid st) parsed).
Proof.
  induction 1 as [|line r lines parsed Hline _ IH]; intros st rows Hrows.
  - exists st, rows, []. cbn [importLines fresh_rows concat app].
    rewrite !app_nil_r. split_and!; auto.
  - cbn [importLines fresh_rows].
    rewrite (importLine_parsed st rows line r Hline). cbn [mbind option_bind].
    rewrite seen_decide.
    destruct (bool_decide (after_cid st = Some (row_cid r))) eqn:Hseen.
    + apply (IH st rows Hrows).
    + rewrite last_cid_cons, last_date_cons. unfold pushed.
      destruct (500 <? length (rows ++ [r]))%nat eqn:Hfull.
      * apply Nat.ltb_lt in Hfull. rewrite length_app in Hfull. simpl in Hfull.
        assert (commitTx (rows ++ [r])
                  {| after := Some (row_created_at r);
                     after_cid := Some (row_cid r);
                     committed := committed st |}
                = {| after := Some (row_created_at r);
                     after_cid := Some (row_cid r);
                     committed := committed st ++ [rows ++ [r]] |}) as ->.
        { unfold commitTx. destruct (rows ++ [r]) eqn:Hnil; [|reflexivity].
          apply app_eq_nil in Hnil as [_ [=]]. }
        destruct (IH {| after := Some (row_created_at r);
                        after_cid := Some (row_cid r);
                        committed := committed st ++ [rows ++ [r]] |} [])
          as (st' & rows' & full & Hrun & Hlen & Hcommit & Hfulls & Hcat
              & Hcid & Hdate); [simpl; lia|].
        cbn [after after_cid committed app] in *.
        exists st', rows', ((rows ++ [r]) :: full).
        split_and!; try assumption.
        -- rewrite Hcommit, <- app_assoc. reflexivity.
        -- constructor; [rewrite length_app; simpl; lia|assumption].
        -- cbn [concat]. rewrite <- !app_assoc, Hcat. reflexivity.
      * apply Nat.ltb_ge in Hfull. rewrite length_app in Hfull. simpl in Hfull.
        destruct (IH {| after := Some (row_created_at r);
                        after_cid := Some (row_cid r);
                        committed := committed st |} (rows ++ [r]))
          as (st' & rows' & full & Hrun & Hlen & Hcommit & Hfulls & Hcat
              & Hcid & Hdate); [rewrite length_app; simpl; lia|].
        cbn [after after_cid committed] in *.
        exists st', rows', full. split_and!; try assumption.
        rewrite Hcat, <- app_assoc. reflexivity.
Qed.

(** X25. What a page adds to the table. When every line of the page parses,
    the turn succeeds and commits, in page order, the parsed rows but
    those whose [cid] is that of the row kept just before (at first, of
    the newest row of the table): first in transactions of exactly 501
    rows, then the remaining rows, at most 500, in a last transaction
    when there are any.  [after] and [after_cid] end at the last row
    kept, and the turn sleeps exactly when that last transaction is
    empty. *)
Theorem importPage_commits (st : State) (lines : list (list byte))
    (parsed : list ImportedRow) :
  Forall2 (fun line r => parseLine line = Some r) lines parsed ->
  let kept := fresh_rows (after_cid st) parsed in
  exists st' full rest,
    importPage st lines = Some (st', bool_decide (rest = []))
    /\ concat full ++ rest = kept
    /\ Forall (fun batch => length batch = 501%nat) full
    /\ (length rest <= 500)%nat
    /\ committed st'
       = committed st ++ full ++ match rest with [] => [] | _ :: _ => [rest] end
    /\ after_cid st' = last_cid (after_cid st) kept
    /\ after st' = last_date (after st) kept.
Proof.
  intros Hlines kept.
  destruct (importLines_spec lines parsed Hlines st [])
    as (st1 & rest & full & Hrun & Hlen & Hcommit & Hfull & Hcat & Hcid & Hdate);
    [simpl; lia|].
  exists (commitTx rest st1), full, rest. unfold importPage. rewrite Hrun.
  cbn [mbind option_bind]. split_and!; try assumption.
  - destruct rest; reflexivity.
  - destruct rest; cbn [commitTx committed]; rewrite Hcommit.
    + rewrite app_nil_r. reflexivity.
    + rewrite <- app_assoc. reflexivity.
  - destruct rest; assumption.
  - destruct rest; assumption.
Qed.

End Import_page.

(** * Links of a record *)

Section Walk_pattern.

Import Walk.

Lemma literal_spec (p s r : string) : literal p s = Some r <-> s = p +:+ r.
Proof.
  revert s. induction p as [|a p IH]; intros s; cbn [literal].
  - split; [intros [= ->]; reflexivity|intros ->; reflexivity].
  - destruct s as [|b s]; [split; discriminate|].
    rewrite append_cons. destruct (Ascii.eqb a b) eqn:Hab.
    + apply Ascii.eqb_eq in Hab as ->. rewrite IH. split; congruence.
    + apply Ascii.eqb_neq in Hab. split; [discriminate|congruence].
Qed.

Lemma run_spec (s a rest : string) :
  run s = (a, rest) <-> s = a +:+ rest /\ plain a = true /\ stops rest.
Proof.
  revert a rest. induction s as [|c s IH]; intros a rest; cbn [run].
  - split.
    + intros [= <- <-]. repeat split.
    + intros (Hs & _ & _). destruct a; [|discriminate].
      change ("" +:+ rest) with rest in Hs. subst rest. reflexivity.
  - destruct (in_class c) eqn:Hc.
    + destruct (run s) as [a' rest'] eqn:Hrun.
      pose proof (proj1 (IH a' rest') eq_refl) as Hspec. split.
      * intros [= <- <-]. destruct Hspec as (-> & Hp & Hst).
        rewrite append_cons. cbn [plain]. rewrite Hc, Hp. repeat split.
        exact Hst.
      * intros (Hs & Hp & Hst). destruct a as [|c' a].
        -- change ("" +:+ rest) with rest in Hs. subst rest.
           cbn [stops] in Hst. congruence.
        -- rewrite append_cons in Hs. injection Hs as <- Hs.
           cbn [plain] in Hp. apply andb_true_iff in Hp as [_ Hp].
           assert ((a', rest') = (a, rest)) as Hr by (apply IH; auto).
           congruence.
    + split.
      * intros [= <- <-]. repeat split. exact Hc.
      * intros (Hs & Hp & Hst). destruct a as [|c' a].
        -- reflexivity || (change ("" +:+ rest) with rest in Hs; congruence).
        -- rewrite append_cons in Hs. injection Hs as <- Hs.
           cbn [plain] in Hp. rewrite Hc in Hp. discriminate.
Qed.

Lemma group_spec (s a rest : string) :
  group s = Some (a, rest)
  <-> s = a +:+ rest /\ a <> "" /\ plain a = true /\ stops rest.
Proof.
  unfold group. destruct (run s) as [a' rest'] eqn:Hrun.
  apply run_spec in Hrun as Hspec. split.
  - destruct a' as [|c a']; cbn [JS.truthy]; [discriminate|].
    intros [= <- <-]. destruct Hspec as (Hs & Hp & Hst).
    split_and!; try assumption. discriminate.
  - intros (Hs & Hne & Hp & Hst).
    assert (run s = (a, rest)) as Hr by (apply run_spec; auto).
    rewrite Hrun in Hr. injection Hr as -> ->.
    destruct a; [congruence|reflexivity].
Qed.

Lemma append_empty (a : string) : a +:+ "" = a.
Proof.
  induction a as [|x a IH]; [reflexivity|]. rewrite append_cons, IH. reflexivity.
Qed.

(** X26. The pattern [atURI], read as a grammar: a string matches exactly
    when it is [at://], then three non-empty segments separated by one
    [/] each, no segment holding a [/], a [#] or a [?]; the captures
    are the three segments. *)
Theorem atURI_spec (s m1 m2 m3 : string) :
  atURI s = Some (m1, m2, m3)
  <-> s = "at://" +:+ m1 +:+ "/" +:+ m2 +:+ "/" +:+ m3
      /\ (m1 <> "" /\ plain m1 = true)
      /\ (m2 <> "" /\ plain m2 = true)
      /\ (m3 <> "" /\ plain m3 = true).
Proof.
  unfold atURI. split.
  - destruct (literal "at://" s) as [r0|] eqn:H0; [|discriminate].
    cbn [mbind option_bind].
    destruct (group r0) as [[a r1]|] eqn:H1; [|discriminate].
    cbn [mbind option_bind].
    destruct (literal "/" r1) as [r2|] eqn:H2; [|discriminate].
    cbn [mbind option_bind].
    destruct (group r2) as [[b r3]|] eqn:H3; [|discriminate].
    cbn [mbind option_bind].
    destruct (literal "/" r3) as [r4|] eqn:H4; [|discriminate].
    cbn [mbind option_bind].
    destruct (group r4) as [[c r5]|] eqn:H5; [|discriminate].
    cbn [mbind option_bind].
    destruct r5 as [|x r5]; cbn [JS.truthy]; [|discriminate].
    intros [= <- <- <-].
    apply literal_spec in H0, H2, H4.
    apply group_spec in H1 as (E1 & N1 & P1 & _).
    apply group_spec in H3 as (E3 & N3 & P3 & _).
    apply group_spec in H5 as (E5 & N5 & P5 & _).
    rewrite append_empty in E5. subst.
    split; [|auto]. reflexivity.
  - intros (-> & (N1 & P1) & (N2 & P2) & (N3 & P3)).
    assert (literal "at://"
              ("at://" +:+ m1 +:+ "/" +:+ m2 +:+ "/" +:+ m3)
            = Some (m1 +:+ ("/" +:+ m2 +:+ "/" +:+ m3))) as ->.
    { apply literal_spec. reflexivity. }
    cbn [mbind option_bind].
    assert (group (m1 +:+ ("/" +:+ m2 +:+ "/" +:+ m3))
            = Some (m1, "/" +:+ m2 +:+ "/" +:+ m3)) as ->.
    { apply group_spec. split_and!; auto. reflexivity. }
    cbn [mbind option_bind].
    assert (literal "/" ("/" +:+ m2 +:+ "/" +:+ m3)
            = Some (m2 +:+ ("/" +:+ m3))) as ->.
    { apply literal_spec. reflexivity. }
    cbn [mbind option_bind].
    assert (group (m2 +:+ ("/" +:+ m3)) = Some (m2, "/" +:+ m3)) as ->.
    { apply group_spec. split_and!; auto. reflexivity. }
    cbn [mbind option_bind].
    assert (literal "/" ("/" +:+ m3) = Some m3) as ->
      by (apply literal_spec; reflexivity).
    cbn [mbind option_bind].
    assert (group m3 = Some (m3, "")) as ->.
    { apply group_spec. rewrite append_empty. split_and!; auto. exact I. }
    reflexivity.
Qed.

End Walk_pattern.

Section Walk_links.

Import Walk.
#[local] Open Scope list_scope.

Context `{HOST : Host}.

Lemma Json_induction (P : Json -> Prop) :
  P JNull -> P JAtom -> (forall s, P (JString s)) ->
  (forall items, Forall P items -> P (JArray items)) ->
  (forall props, Forall (fun kv => P kv.2) props -> P (JObject props)) ->
  forall obj, P obj.
Proof.
  intros HN HA HS HAr HO. fix IH 1. intros [| |s|items|props].
  - exact HN.
  - exact HA.
  - apply HS.
  - apply HAr. induction items as [|item items IHitems]; constructor;
      [apply IH|exact IHitems].
  - apply HO. induction props as [|[key value] props IHprops]; constructor;
      [apply IH|exact IHprops].
Qed.

Lemma and_then_yields (first second : Trace) (link : Link) :
  link ∈ yields (and_then first second) ->
  link ∈ yields first \/ link ∈ yields second.
Proof.
  unfold and_then. destruct (thrown first); [auto|].
  cbn [yields]. apply elem_of_app.
Qed.

Lemma and_then_quiet (first second : Trace) :
  thrown (and_then first second) = false ->
  thrown first = false /\ thrown second = false
  /\ yields (and_then first second) = yields first ++ yields second.
Proof.
  unfold and_then. destruct (thrown first) eqn:Hfirst.
  - intros Hthrown. congruence.
  - cbn [thrown yields]. auto.
Qed.

Lemma walkItems_yields (walk : Json -> list Step -> list nat -> Trace)
    (path : list Step) (indices : list nat) (link : Link) (items : list Json) :
  forall i,
    link ∈ yields (walkItems walk items i path indices) ->
    exists j item,
      items !! j = Some item
      /\ link ∈ yields (walk item (path ++ [Zero]) (indices ++ [i + j]%nat)).
Proof.
  induction items as [|item items IH]; intros i Hin; cbn [walkItems] in Hin.
  - apply elem_of_nil in Hin as [].
  - apply and_then_yields in Hin as [Hin|Hin].
    + exists 0%nat, item. rewrite Nat.add_0_r. auto.
    + destruct (IH (S i) Hin) as (j & x & Hj & Hx).
      exists (S j), x. replace (i + S j)%nat with (S i + j)%nat by lia. auto.
Qed.

Lemma walkProps_yields (walk : Json -> list Step -> list nat -> Trace)
    (path : list Step) (indices : list nat) (link : Link)
    (props : list (string * Json)) :
  link ∈ yields (walkProps walk props path indices) ->
  exists key value,
    (key, value) ∈ props
    /\ link ∈ yields (walk value (path ++ [Key key]) indices).
Proof.
  induction props as [|[key value] props IH]; intros Hin; cbn [walkProps] in Hin.
  - apply elem_of_nil in Hin as [].
  - apply and_then_yields in Hin as [Hin|Hin].
    + exists key, value. split; [left|assumption].
    + destruct (IH Hin) as (k & v & Hkv & Hv). exists k, v.
      split; [right|]; assumption.
Qed.

Lemma walkItems_quiet (walk : Json -> list Step -> list nat -> Trace)
    (path : list Step) (indices : list nat) (items : list Json) :
  forall i,
    thrown (walkItems walk items i path indices) = false ->
    forall j item,
      items !! j = Some item ->
      thrown (walk item (path ++ [Zero]) (indices ++ [i + j]%nat)) = false
      /\ forall link,
           link ∈ yields (walk item (path ++ [Zero]) (indices ++ [i + j]%nat)) ->
           link ∈ yields (walkItems walk items i path indices).
Proof.
  induction items as [|item0 items IH]; intros i Hquiet j item Hj;
    [discriminate|].
  cbn [walkItems] in *.
  apply and_then_quiet in Hquiet as (Hfirst & Hrest & ->).
  destruct j as [|j].
  - injection Hj as <-. rewrite Nat.add_0_r. split; [assumption|].
    intros link Hin. apply elem_of_app. auto.
  - destruct (IH (S i) Hrest j item Hj) as [Hq Hsub].
    replace (i + S j)%nat with (S i + j)%nat by lia. split; [assumption|].
    intros link Hin. apply elem_of_app. auto.
Qed.

Lemma walkProps_quiet (walk : Json -> list Step -> list nat -> Trace)
    (path : list Step) (indices : list nat) (props : list (string * Json)) :
  thrown (walkProps walk props path indices) = false ->
  forall key value,
    (key, value) ∈ props ->
    thrown (walk value (path ++ [Key key]) indices) = false
    /\ forall link,
         link ∈ yields (walk value (path ++ [Key key]) indices) ->
         link ∈ yields (walkProps walk props path indices).
Proof.
  induction props as [|[key0 value0] props IH]; intros Hquiet key value Hin.
  - apply elem_of_nil in Hin as [].
  - cbn [walkProps] in *.
    apply and_then_quiet in Hquiet as (Hfirst & Hrest & ->).
    apply elem_of_cons in Hin as [[= -> ->]|Hin].
    + split; [assumption|]. intros link Hl. apply elem_of_app. auto.
    + destruct (IH Hrest key value Hin) as [Hq Hsub]. split; [assumption|].
      intros link Hl. apply elem_of_app. auto.
Qed.

Lemma property_elem (key : string) (props : list (string * Json))
    (value : Json) :
  property key props = Some value -> (key, value) ∈ props.
Proof.
  induction props as [|[k v] props IH]; [discriminate|]. cbn [property].
  destruct (String.eqb k key) eqn:Hk.
  - apply String.eqb_eq in Hk as ->. intros [= ->]. left.
  - intros Hrest. right. auto.
Qed.

Lemma property_unique (key : string) (props : list (string * Json))
    (value : Json) :
  NoDup props.*1 -> (key, value) ∈ props -> property key props = Some value.
Proof.
  induction props as [|[k v] props IH]; intros Hnodup Hin.
  - apply elem_of_nil in Hin as [].
  - cbn [fmap list_fmap fst] in Hnodup. apply NoDup_cons in Hnodup as [Hk Hnodup].
    cbn [property]. apply elem_of_cons in Hin as [[= -> ->]|Hin].
    + rewrite String.eqb_refl. reflexivity.
    + destruct (String.eqb k key) eqn:Hkey; [|auto].
      apply String.eqb_eq in Hkey as ->. exfalso. apply Hk.
      apply list_elem_of_fmap. exists (key, value). auto.
Qed.

Lemma yield_link_at (path : list Step) (indices : list nat)
    (uri m1 m2 m3 : string) (link : Link) :
  atURI uri = Some (m1, m2, m3) ->
  link ∈ yields (yield_link path indices m1 m2 m3) ->
  link_at path indices uri link.
Proof.
  intros Huri. unfold yield_link.
  destruct (decodeURIComponent m1) as [did|] eqn:H1;
    [|intros Hin; apply elem_of_nil in Hin as []].
  destruct (decodeURIComponent m2) as [collection|] eqn:H2;
    [|intros Hin; apply elem_of_nil in Hin as []].
  destruct (decodeURIComponent m3) as [rkey|] eqn:H3;
    [|intros Hin; apply elem_of_nil in Hin as []].
  cbn [yields]. intros Hin. apply list_elem_of_singleton in Hin as ->.
  exists m1, m2, m3. cbn. auto 10.
Qed.

(** X27. Every tuple is the address of a link. A tuple that [walkObject]
    yields stands for a string of the record that matches [atURI]:
    there are keys and array positions that lead from the record to
    that string, the tuple's path is [path] and then those keys with
    [0] for each array position, its indices are [indices] and then
    those positions ([null] when there are none at all), and its last
    three fields are the decoded captures. *)
Theorem walkObject_sound (obj : Json) :
  forall (path : list Step) (indices : list nat) (link : Link),
    unique_keys obj = true ->
    link ∈ yields (walkObject obj path indices) ->
    exists steps positions uri,
      locate obj steps positions = Some (JString uri)
      /\ link_at (path ++ steps) (indices ++ positions) uri link.
Proof.
  induction obj as [| |s|items IH|props IH] using Json_induction;
    intros path indices link Hkeys Hin; cbn [walkObject] in Hin.
  - apply elem_of_nil in Hin as [].
  - apply elem_of_nil in Hin as [].
  - destruct (atURI s) as [[[m1 m2] m3]|] eqn:Huri;
      [|apply elem_of_nil in Hin as []].
    exists [], [], s. rewrite !app_nil_r. split; [reflexivity|].
    eapply yield_link_at; eassumption.
  - apply walkItems_yields in Hin as (j & item & Hj & Hin).
    cbn [unique_keys] in Hkeys. rewrite forallb_forall in Hkeys.
    rewrite Forall_forall in IH.
    assert (item ∈ items) as Hitem by (eapply list_elem_of_lookup_2; eassumption).
    destruct (IH item Hitem (path ++ [Zero]) (indices ++ [j]) link)
      as (steps & positions & uri & Hloc & Hat);
      [apply Hkeys, list_elem_of_In, Hitem|exact Hin|].
    exists (Zero :: steps), (j :: positions), uri. split.
    + cbn [locate]. rewrite Hj. exact Hloc.
    + rewrite <- !app_assoc in Hat. exact Hat.
  - apply walkProps_yields in Hin as (key & value & Hkv & Hin).
    cbn [unique_keys] in Hkeys. apply andb_true_iff in Hkeys as [Hnodup Hkeys].
    apply bool_decide_eq_true in Hnodup.
    rewrite forallb_forall in Hkeys. rewrite Forall_forall in IH.
    destruct (IH (key, value) Hkv (path ++ [Key key]) indices link)
      as (steps & positions & uri & Hloc & Hat);
      [apply (Hkeys (key, value)), list_elem_of_In, Hkv|exact Hin|].
    exists (Key key :: steps), positions, uri. split.
    + cbn [locate]. rewrite (property_unique key props value) by assumption.
      exact Hloc.
    + rewrite <- !app_assoc in Hat. exact Hat.
Qed.

(** X28. No link is missed. When [walkObject] runs to its end without an
    exception, every string of the record that matches [atURI],
    wherever keys and array positions lead to it, has its tuple among
    those yielded. *)
Theorem walkObject_complete (obj : Json) :
  forall (path : list Step) (indices : list nat)
         (steps : list Step) (positions : list nat) (uri : string),
    thrown (walkObject obj path indices) = false ->
    locate obj steps positions = Some (JString uri) ->
    is_Some (atURI uri) ->
    exists link,
      link ∈ yields (walkObject obj path indices)
      /\ link_at (path ++ steps) (indices ++ positions) uri link.
Proof.
  induction obj as [| |s|items IH|props IH] using Json_induction;
    intros path indices steps positions uri Hquiet Hloc [[[m1 m2] m3] Huri].
  - destruct steps as [|[key|] steps]; [destruct positions|..]; discriminate.
  - destruct steps as [|[key|] steps]; [destruct positions|..]; discriminate.
  - destruct steps as [|[key|] steps]; [destruct positions|..];
      try discriminate.
    injection Hloc as ->. cbn [walkObject] in *. rewrite Huri in *.
    rewrite !app_nil_r. unfold yield_link in *.
    destruct (decodeURIComponent m1) as [did|] eqn:H1; [|discriminate].
    destruct (decodeURIComponent m2) as [collection|] eqn:H2; [|discriminate].
    destruct (decodeURIComponent m3) as [rkey|] eqn:H3; [|discriminate].
    eexists. split; [cbn [yields]; left|].
    exists m1, m2, m3. cbn. auto 10.
  - destruct steps as [|[key|] steps]; [destruct positions|..];
      try discriminate.
    destruct positions as [|j positions]; [discriminate|].
    cbn [locate] in Hloc.
    destruct (items !! j) as [item|] eqn:Hj; [|discriminate].
    cbn [mbind option_bind] in Hloc. cbn [walkObject] in *.
    destruct (walkItems_quiet _ _ _ _ _ Hquiet j item Hj) as [Hq Hsub].
    rewrite Forall_forall in IH.
    destruct (IH item (list_elem_of_lookup_2 _ _ _ Hj) (path ++ [Zero])
                (indices ++ [j]) steps positions uri Hq Hloc)
      as (link & Hin & Hat); [eauto|].
    exists link. split; [auto|]. rewrite <- !app_assoc in Hat. exact Hat.
  - destruct steps as [|[key|] steps]; [destruct positions|..];
      try discriminate.
    cbn [locate] in Hloc.
    destruct (property key props) as [value|] eqn:Hkey; [|discriminate].
    cbn [mbind option_bind] in Hloc. cbn [walkObject] in *.
    apply property_elem in Hkey.
    destruct (walkProps_quiet _ _ _ _ Hquiet key value Hkey) as [Hq Hsub].
    rewrite Forall_forall in IH.
    destruct (IH (key, value) Hkey (path ++ [Key key]) indices steps positions
                uri Hq Hloc)
      as (link & Hin & Hat); [eauto|].
    exists link. split; [auto|]. rewrite <- !app_assoc in Hat. exact Hat.
Qed.

End Walk_links.

(** * The further properties on concrete inputs *)

Section More_scenarios.

Import Fixture Samples Wire.
#[local] Open Scope list_scope.

Lemma step_partitions_history_witness :
  exists kept displaced,
    [G; A] = kept ++ displaced
    /\ [G; B "2024-01-03T00:00:00.000Z"]
       = kept ++ [B "2024-01-03T00:00:00.000Z"]
    /\ ["bafyA"] = cid <$> displaced.
Proof.
  apply (step_partitions_history did [G; A] (B "2024-01-03T00:00:00.000Z")
           {| res_nullified := ["bafyA"];
              res_prev := Some "bafyG";
              res_ops := [G; B "2024-01-03T00:00:00.000Z"] |}).
  vm_compute. reflexivity.
Defined.

Lemma step_linear_extension_witness :
  assureValidNextOp did [G] A
  = Ok {| res_nullified := []; res_prev := Some "bafyG"; res_ops := [G; A] |}.
Proof.
  rewrite (step_linear_extension did [G] A "bafyG" "bafyG" 0%nat G
             (plc_op [KR; KS] "https://pds.example.com" None KS));
    [vm_compute; reflexivity|reflexivity|discriminate|reflexivity
    |apply refers_to_G|reflexivity|reflexivity].
Defined.

Lemma step_fork_unparseable_date_witness :
  assureValidNextOp did [G; A] B_undated
  = Ok {| res_nullified := ["bafyA"];
          res_prev := Some "bafyG";
          res_ops := [G; B_undated] |}.
Proof.
  apply (step_fork_unparseable_date did [G; A] B_undated "bafyG" "bafyG" 0%nat G
           (plc_op [KR; KS] "https://pds.example.com" None KS) A KS KR);
    [reflexivity|discriminate|reflexivity|apply refers_to_G|reflexivity
    |reflexivity|vm_compute; reflexivity|vm_compute; reflexivity|].
  left. vm_compute. reflexivity.
Defined.

Lemma step_no_rotation_keys_witness :
  assureValidNextOp did [H] (X "bafyH")
  = Throw (Plc (InvalidSignatureError (operation (X "bafyH")))).
Proof.
  apply (step_no_rotation_keys did [H] (X "bafyH") "bafyH" "bafyH" 0%nat H
           (plc_op [] "https://pds.example.com" None KS));
    [reflexivity|discriminate|reflexivity| |reflexivity|reflexivity].
  split; [reflexivity|]. split; [reflexivity|]. intros j y _ Hlt. lia.
Defined.

Lemma accepted_log_genesis_witness :
  bound_genesis did G [G; B "2024-01-03T00:00:00.000Z"].
Proof.
  apply (accepted_log_genesis did G [A; B "2024-01-03T00:00:00.000Z"]).
  vm_compute. reflexivity.
Defined.

Lemma accepted_log_authorised_witness :
  authorised [G; A; X "bafyA"]
  /\ forall i a,
       [G; A; X "bafyA"] !! i = Some a ->
       (S i < length [G; A; X "bafyA"])%nat ->
       is_tombstone (operation a) = false.
Proof.
  apply (accepted_log_authorised did [G; A; X "bafyA"]).
  vm_compute. reflexivity.
Defined.

Lemma step_exceptions_witness :
  LateRecoveryError (JS.Num 259200001) = MisorderedOperationError
  \/ LateRecoveryError (JS.Num 259200001)
     = InvalidSignatureError (operation (B "2024-01-05T00:00:00.001Z"))
  \/ (exists confirmed,
        confirmed ∈ [G; A]
        /\ LateRecoveryError (JS.Num 259200001)
           = InvalidSignatureError (operation confirmed))
  \/ (exists ms,
        (72 * 3600 * 1000 < ms)%Z
        /\ LateRecoveryError (JS.Num 259200001) = LateRecoveryError (JS.Num ms)).
Proof.
  apply (step_exceptions did [G; A] (B "2024-01-05T00:00:00.001Z"));
    [discriminate|].
  vm_compute. reflexivity.
Defined.



Lemma atprotoUpdate_handle_witness :
  u_alsoKnownAs (atprotoUpdate (rename "bob.example.com") unsigned)
  = ["https://alice.example.com"; "at://bob.example.com"; "at://old.example.com"]
  /\ exists i,
       list_find (fun h : string => JS.startsWith h "at://" = true)
         (u_alsoKnownAs (atprotoUpdate (rename "bob.example.com") unsigned))
       = Some (i, "at://bob.example.com").
Proof.
  destruct (atprotoUpdate_handle (rename "bob.example.com") unsigned
              "bob.example.com") as [Hupd Hfirst];
    [reflexivity|discriminate|].
  split; [|exact Hfirst]. rewrite Hupd. vm_compute. reflexivity.
Defined.

Lemma parseLine_encode_witness :
  Wire.parseLine (concat (Wire.encode (row 0) true))
  = Some {| Wire.row_cid := Wire.st_cid (row 0);
            Wire.row_did := Wire.st_did (row 0);
            Wire.row_operation := Wire.st_operation (row 0);
            Wire.row_nullified := 0;
            Wire.row_created_at := JS.Num 1704153600000 |}.
Proof.
  rewrite (parseLine_encode (row 0));
    [vm_compute; reflexivity|reflexivity|no_such_byte..].
Defined.

Lemma parseLine_encode_nullified_witness :
  Wire.parseLine (concat (Wire.encode (row 1) true))
  = Some {| Wire.row_cid := Wire.encode_text "bafy";
            Wire.row_did := Wire.st_did (row 1);
            Wire.row_operation := Wire.st_operation (row 1);
            Wire.row_nullified := 1;
            Wire.row_created_at := JS.Num 1704153600000 |}.
Proof.
  rewrite (parseLine_encode_nullified (row 1) (Wire.encode_text "bafy") "A"%byte);
    [vm_compute; reflexivity|discriminate|reflexivity|no_such_byte..].
Defined.

Lemma export_then_readStream_witness :
  Stream.readStream
    [take 30 (concat (Wire.exportChunks true [row 0; row 1]));
     drop 30 (concat (Wire.exportChunks true [row 0; row 1]))]
  = Some [concat (Wire.encode (row 0) true); concat (Wire.encode (row 1) true)].
Proof.
  apply (export_then_readStream [row 0; row 1]).
  - vm_compute. reflexivity.
  - repeat constructor; no_such_byte.
Defined.

Lemma accepted_log_document_witness :
  Some {| doc_did := did;
          doc_verificationMethods := {[ "atproto" := KS ]};
          doc_rotationKeys := [KR; KS];
          doc_alsoKnownAs := ["at://alice.example.com"];
          doc_services :=
            {[ "atproto_pds" :=
                 {| svc_type := "AtprotoPersonalDataServer";
                    endpoint := "https://pds2.example.com" |} ]} |}
  = opToData did (operation A).
Proof.
  apply (accepted_log_document did [G] A). vm_compute. reflexivity.
Defined.

Lemma creation_document_witness :
  opToData did (operation G)
  = Some {| doc_did := did;
            doc_verificationMethods := {[ "atproto" := KS ]};
            doc_rotationKeys := [KR; KS];
            doc_alsoKnownAs := ["at://alice.example.com"];
            doc_services :=
              {[ "atproto_pds" :=
                   {| svc_type := "AtprotoPersonalDataServer";
                      endpoint := "https://pds.example.com" |} ]} |}.
Proof.
  apply (creation_document did (operation G)). vm_compute. reflexivity.
Defined.

Lemma accepted_history_replays_witness :
  validateLoop did [] [G; B "2024-01-03T00:00:00.000Z"]
  = Ok [G; B "2024-01-03T00:00:00.000Z"].
Proof.
  apply (accepted_history_replays did [G; A; B "2024-01-03T00:00:00.000Z"]).
  vm_compute. reflexivity.
Defined.

Lemma export_body_witness :
  exists delivered,
    Serve.body [None; Some (replicate 600 x00); None]
      {| Serve.first := true; Serve.pending_rows := [row 0; row2] |}
    = Some (delivered, true)
    /\ Forall (fun bytes => bytes <> []) delivered
    /\ concat delivered = concat (Wire.exportChunks true [row 0; row2]).
Proof.
  apply (export_body [None; Some (replicate 600 x00); None]
           {| Serve.first := true; Serve.pending_rows := [row 0; row2] |}).
  simpl. lia.
Defined.

Lemma importPage_commits_witness :
  exists st' full rest,
    Importer.importPage resumed
      [concat (Wire.encode (row 0) true); concat (Wire.encode row2 true)]
    = Some (st', bool_decide (rest = []))
    /\ concat full ++ rest
       = Importer.fresh_rows (Importer.after_cid resumed)
           [imported (row 0); imported row2]
    /\ Forall (fun batch => length batch = 501%nat) full
    /\ (length rest <= 500)%nat
    /\ Importer.committed st'
       = Importer.committed resumed ++ full
           ++ match rest with [] => [] | _ :: _ => [rest] end
    /\ Importer.after_cid st'
       = Importer.last_cid (Importer.after_cid resumed)
           (Importer.fresh_rows (Importer.after_cid resumed)
              [imported (row 0); imported row2])
    /\ Importer.after st'
       = Importer.last_date (Importer.after resumed)
           (Importer.fresh_rows (Importer.after_cid resumed)
              [imported (row 0); imported row2]).
Proof.
  apply (importPage_commits resumed
           [concat (Wire.encode (row 0) true); concat (Wire.encode row2 true)]
           [imported (row 0); imported row2]).
  repeat constructor; vm_compute; reflexivity.
Defined.

Lemma walkObject_sound_witness :
  exists steps positions uri,
    Walk.locate post steps positions = Some (Walk.JString uri)
    /\ Walk.link_at ([] ++ steps) ([] ++ positions) uri list_link.
Proof.
  apply (walkObject_sound post [] [] list_link).
  - vm_compute. reflexivity.
  - assert (Walk.yields (Walk.walkObject post [] [])
            = [ {| Walk.link_path :=
                     Walk.stringify_path [Walk.Key "subject"; Walk.Key "uri"];
                   Walk.link_indices := None;
                   Walk.link_did := "did:plc:abc";
                   Walk.link_collection := "app.bsky.feed.post";
                   Walk.link_rkey := "3k" |};
                list_link ]) as -> by (vm_compute; reflexivity).
    repeat constructor.
Defined.

Lemma walkObject_complete_witness :
  exists link,
    link ∈ Walk.yields (Walk.walkObject post [] [])
    /\ Walk.link_at ([] ++ [Walk.Key "tags"; Walk.Zero]) ([] ++ [1%nat])
         "at://alice.example.com/app.bsky.graph.list/xyz" link.
Proof.
  apply (walkObject_complete post [] [] [Walk.Key "tags"; Walk.Zero] [1%nat]
           "at://alice.example.com/app.bsky.graph.list/xyz").
  - vm_compute. reflexivity.
  - vm_compute. reflexivity.
  - eexists. vm_compute. reflexivity.
Defined.

End More_scenarios.
